(** * pyClarion: construct realizers and rule databases

    A shallow embedding of [pyClarion/base/realizers.py] and
    [pyClarion/components/rules.py].

    Conventions of the embedding.
    - A Python [dict] is an association list in insertion order
      ([dict_get], [dict_set], [dict_del]); the input-link table of a
      realizer, whose order is never observed, is a [gmap].
    - A Python [float] is an IEEE 754 binary64 number, the primitive
      [float] of Rocq, with the same rounding to nearest even; [+], [*],
      [/], [<] and [<=] are the primitive operations.
    - A raised exception is the [Raise] case of [Result]; code that mutates
      a database threads the database through a state-and-exception monad.
    - Realizers form an ownership tree: a Structure owns its members, and a
      method that mutates members returns the rebuilt tree.  A pull callback
      [target.view] is the bound method of one object and is modelled by
      the identity of that object. *)

From stdpp Require Import gmap strings list fin_maps.
From Stdlib Require Import QArith Floats.
Close Scope Q_scope.
Set Warnings "-register-all".

(* ===================================================================== *)
(** ** Symbols *)
(* ===================================================================== *)

(** [ConstructType] is a flag enumeration: a bit mask tested with [&]. *)
Definition ConstructType := N.

Record Symbol := mkSymbol { ctype : ConstructType; cid : string }.

#[global] Instance Symbol_eq_dec : EqDecision Symbol.
Proof. solve_decision. Defined.

#[global] Instance Symbol_countable : Countable Symbol.
Proof.
  refine (inj_countable' (fun s => (ctype s, cid s))
                         (fun p => mkSymbol p.1 p.2) _).
  by intros [].
Defined.

Definition chunk := Symbol.
Definition rule := Symbol.

(* ===================================================================== *)
(** ** Python dictionaries, exceptions *)
(* ===================================================================== *)

Section PyDict.
Context {K V : Type} `{EqDecision K}.

Fixpoint dict_get (k : K) (d : list (K * V)) : option V :=
  match d with
  | [] => None
  | (k', v) :: d' => if decide (k = k') then Some v else dict_get k d'
  end.

(** [d[k] = v]: an existing key keeps its position, a new key goes last. *)
Fixpoint dict_set (k : K) (v : V) (d : list (K * V)) : list (K * V) :=
  match d with
  | [] => [(k, v)]
  | (k', v') :: d' =>
      if decide (k = k') then (k', v) :: d' else (k', v') :: dict_set k v d'
  end.

(** [del d[k]]; [None] stands for the [KeyError] of a missing key. *)
Fixpoint dict_del (k : K) (d : list (K * V)) : option (list (K * V)) :=
  match d with
  | [] => None
  | (k', v') :: d' =>
      if decide (k = k') then Some d'
      else match dict_del k d' with
           | Some d'' => Some ((k', v') :: d'')
           | None => None
           end
  end.

Definition dict_keys (d : list (K * V)) : list K := map fst d.
Definition dict_values (d : list (K * V)) : list V := map snd d.

(** [k in d] *)
Definition dict_contains (k : K) (d : list (K * V)) : bool :=
  match dict_get k d with Some _ => true | None => false end.
End PyDict.

Inductive Exception :=
| RealizerError (construct : Symbol) (context : option (list Symbol))
                (missing : gset Symbol)
| KeyError
| LookupError
| UnboundLocalError (name : string)
| ValueError (msg : string)
| TypeError (msg : string)
| AttributeError (name : string)
| AssertionError (msg : string).

Inductive Result (A : Type) :=
| Ok (a : A)
| Raise (e : Exception).
Arguments Ok {A} a.
Arguments Raise {A} e.

#[global] Instance Result_ret : MRet Result := fun A a => Ok a.
#[global] Instance Result_bind : MBind Result := fun A B f x =>
  match x with
  | Ok a => f a
  | Raise e => Raise e
  end.

(** A traversal that stops at the first exception, as a [for] loop does. *)
Definition mapM {A B} (f : A -> Result B) : list A -> Result (list B) :=
  fix go l :=
    match l with
    | [] => Ok []
    | x :: l' =>
        match f x with
        | Raise e => Raise e
        | Ok y => match go l' with
                  | Raise e => Raise e
                  | Ok ys => Ok (y :: ys)
                  end
        end
    end.

(** A loop that rewrites every element while it carries a local variable. *)
Definition map_accum {A B} (f : A -> B -> A * B) : A -> list B -> A * list B :=
  fix go a l :=
    match l with
    | [] => (a, [])
    | x :: l' =>
        let '(a1, y) := f a x in
        let '(a2, ys) := go a1 l' in
        (a2, y :: ys)
    end.

(** An expression statement: the value is built and thrown away. *)
Definition expr_stmt {A} (x : A) : unit := tt.

(* ===================================================================== *)
(** ** Numerical dictionaries *)
(* ===================================================================== *)

Module nd.

(** Modelled from the spec: the module [pyClarion.numdicts] is not among
    the sources.  The spec describes an associative container of floats
    with an optional default for unlisted keys, elementwise arithmetic by
    a scalar or by another container, key filtering and sum reduction. *)
Record NumDict := mkNumDict {
  data : list (Symbol * float);
  default : option float
}.

(** [MutableNumDict(weights)], [weights] possibly [None]. *)
Definition MutableNumDict (weights : option (list (Symbol * float))) : NumDict :=
  {| data := match weights with Some w => w | None => [] end;
     default := None |}.

(** [d.extend(keys, value=v)]: every key not yet in [d] is mapped to [v]. *)
Definition extend (d : NumDict) (keys : list Symbol) (value : float) : NumDict :=
  {| data := foldl (fun acc k =>
                      if dict_contains k acc then acc else acc ++ [(k, value)])
                   (data d) keys;
     default := default d |}.

(** [val_sum(d)]: the sum of the stored values.  Modelled from the spec,
    which says sum reduction: the values are added one after the other in
    the order of the container, starting from 0, as [sum] does. *)
Definition val_sum (d : NumDict) : float :=
  foldl PrimFloat.add 0%float (dict_values (data d)).

(** [d /= w] for a scalar [w]. *)
Definition div_scalar (d : NumDict) (w : float) : NumDict :=
  {| data := map (fun kv => (kv.1, (kv.2 / w)%float)) (data d);
     default := (fun v => (v / w)%float) <$> default d |}.

Definition freeze (d : NumDict) : NumDict := d.

(** [d[k]]: the stored value, else the default, else [KeyError]. *)
Definition getitem (d : NumDict) (k : Symbol) : Result float :=
  match dict_get k (data d) with
  | Some v => Ok v
  | None => match default d with
            | Some v => Ok v
            | None => Raise KeyError
            end
  end.



End nd.

(* ===================================================================== *)
(** ** Capability interfaces *)
(* ===================================================================== *)

(** A pull callback: the bound method [view] of the object with this
    identity. *)
Inductive PullFunc := view_of (oid : nat).

#[global] Instance PullFunc_eq_dec : EqDecision PullFunc.
Proof. solve_decision. Defined.

(** The output of a realizer: a numerical dictionary for a Construct, a
    mapping from member symbols to member outputs for a Structure. *)
Inductive Output :=
| NumDictOut (d : nd.NumDict)
| TrieOut (t : list (Symbol * Output)).

(** Modelled from the spec: [pyClarion/base/components.py] is not among the
    sources.  An emitter produces an output ([emit()] is the default,
    [emit(data)] the aggregate of member outputs), answers [expects(symbol)]
    and publishes the set [expected] of the source symbols it wants. *)
Record Emitter := mkEmitter {
  emit : option (list (Symbol * Output)) -> Output;
  expects : Symbol -> bool;
  expected : gset Symbol
}.

(** Modelled from the spec: [check_links(inputs)] validates that every
    expected source symbol has a link in [inputs]. *)
Definition check_links (e : Emitter) (inputs : gmap Symbol PullFunc) : bool :=
  bool_decide (expected e ⊆ dom inputs).

(** A propagator is the emitter of a Construct. *)
Record Propagator := mkPropagator { prop_emitter : Emitter }.

(** A cycle is the emitter of a Structure: it adds the order in which member
    types propagate and the mask of the member types it aggregates. *)
Record Cycle := mkCycle {
  cycle_emitter : Emitter;
  sequence : list ConstructType;
  cycle_output : ConstructType
}.

(** Modelled from the spec: an updater answers [expects(symbol)], publishes
    [expected] and validates links like an emitter. *)
Record Updater := mkUpdater {
  upd_expects : Symbol -> bool;
  upd_expected : gset Symbol
}.

Definition upd_check_links (u : Updater) (inputs : gmap Symbol PullFunc) : bool :=
  bool_decide (upd_expected u ⊆ dom inputs).

(** The type variable [Et] of [Realizer] ranges over emitters. *)
Class EmitterLike (Et : Type) := as_emitter : Et -> Emitter.
#[global] Instance Emitter_like : EmitterLike Emitter := fun e => e.
#[global] Instance Propagator_like : EmitterLike Propagator := prop_emitter.
#[global] Instance Cycle_like : EmitterLike Cycle := cycle_emitter.

(** What an update pass does to the outside world, in order: a call of a
    propagator's [update] hook, a call of an updater. *)
Inductive Event :=
| PropagatorUpdate (c : Symbol)
| UpdaterCall (c : Symbol).

(* ===================================================================== *)
(** ** Realizer: the base class *)
(* ===================================================================== *)

Record Realizer (Et : Type) := mkRealizer {
  oid : nat;
  _construct : Symbol;
  _inputs : gmap Symbol PullFunc;
  _output : Output;
  _emitter : Et;
  _updater : option Updater;
  _input_cache : list (Symbol * Output);
  _update_cache : list (Symbol * Output)
}.
Arguments mkRealizer {Et}.
Arguments oid {Et}.
Arguments _construct {Et}.
Arguments _inputs {Et}.
Arguments _output {Et}.
Arguments _emitter {Et}.
Arguments _updater {Et}.
Arguments _input_cache {Et}.
Arguments _update_cache {Et}.

Module RealizerBase.
Section Methods.
Context {Et : Type} `{EmitterLike Et}.

Definition set_inputs (self : Realizer Et) (i : gmap Symbol PullFunc) :=
  mkRealizer (oid self) (_construct self) i (_output self) (_emitter self)
             (_updater self) (_input_cache self) (_update_cache self).

Definition set_output (self : Realizer Et) (o : Output) :=
  mkRealizer (oid self) (_construct self) (_inputs self) o (_emitter self)
             (_updater self) (_input_cache self) (_update_cache self).

Definition set_update_cache (self : Realizer Et) (c : list (Symbol * Output)) :=
  mkRealizer (oid self) (_construct self) (_inputs self) (_output self)
             (_emitter self) (_updater self) (_input_cache self) c.

(** [__init__] up to the registration in the build list. *)
Definition init (id : nat) (name : Symbol) (emitter : Et)
    (updater : option Updater) : Realizer Et :=
  mkRealizer id name ∅ (emit (as_emitter emitter) None) emitter updater [] [].

(** [del self.output] *)
Definition del_output (self : Realizer Et) : Realizer Et :=
  set_output self (emit (as_emitter (_emitter self)) None).

(** The bound method [self.view]. *)
Definition view (self : Realizer Et) : PullFunc := view_of (oid self).

Definition _accepts (self : Realizer Et) (source : Symbol) : bool :=
  let val := expects (as_emitter (_emitter self)) source in
  match _updater self with
  | Some u => val || upd_expects u source
  | None => val
  end.

Definition _offer (self : Realizer Et) (construct : Symbol)
    (callback : PullFunc) : Realizer Et :=
  if _accepts self construct
  then set_inputs self (<[construct := callback]> (_inputs self))
  else self.

(** The error of a failed link check.  [context] is the value of the
    context variable [BUILD_CTX], when it is set. *)
Definition _link_error_msg (context : option (list Symbol))
    (self : Realizer Et) : Exception :=
  let s := expected (as_emitter (_emitter self)) in
  let s := s ∪ match _updater self with
               | Some u => upd_expected u
               | None => ∅
               end in
  let s := s ∖ dom (_inputs self) in
  RealizerError (_construct self) context s.

Definition _finalize_assembly (context : option (list Symbol))
    (self : Realizer Et) : Result unit :=
  let b := check_links (as_emitter (_emitter self)) (_inputs self) in
  let b := b && match _updater self with
                | None => true
                | Some u => upd_check_links u (_inputs self)
                end in
  if negb b then Raise (_link_error_msg context self) else Ok tt.

(** [ask] resolves a pull callback to the current output of its object. *)
Definition _pull_update_data (ask : PullFunc -> Output)
    (self : Realizer Et) : Realizer Et :=
  match _updater self with
  | Some u =>
      let items := map_to_list (_inputs self) in
      let data := map (fun kv => (kv.1, ask kv.2))
                      (filter (fun kv => upd_expects u kv.1 = true) items) in
      set_update_cache self data
  | None => self
  end.
End Methods.
End RealizerBase.

(* ===================================================================== *)
(** ** Construct and Structure *)
(* ===================================================================== *)

(** A realizer object is a Construct or a Structure; a Structure holds its
    members in [_dict], by construct type and then by symbol. *)
Inductive RealizerObj :=
| Construct (self : Realizer Propagator)
| Structure (self : Realizer Cycle)
            (_dict : list (ConstructType * list (Symbol * RealizerObj))).

Definition Registry := list (ConstructType * list (Symbol * RealizerObj)).

Definition isinstance_Structure (r : RealizerObj) : bool :=
  match r with Structure _ _ => true | Construct _ => false end.

Definition isinstance_Construct (r : RealizerObj) : bool :=
  match r with Construct _ => true | Structure _ _ => false end.

Definition construct (r : RealizerObj) : Symbol :=
  match r with
  | Construct self => _construct self
  | Structure self _ => _construct self
  end.

Definition inputs (r : RealizerObj) : gmap Symbol PullFunc :=
  match r with
  | Construct self => _inputs self
  | Structure self _ => _inputs self
  end.

Definition output (r : RealizerObj) : Output :=
  match r with
  | Construct self => _output self
  | Structure self _ => _output self
  end.

Definition view (r : RealizerObj) : PullFunc :=
  match r with
  | Construct self => RealizerBase.view self
  | Structure self _ => RealizerBase.view self
  end.

Definition _accepts (r : RealizerObj) (source : Symbol) : bool :=
  match r with
  | Construct self => RealizerBase._accepts self source
  | Structure self _ => RealizerBase._accepts self source
  end.

(** A loop over [self.values()] that rewrites the members in place and
    carries a local variable. *)
Definition values_accum {A} (f : A -> RealizerObj -> A * RealizerObj)
    (a : A) (d : Registry) : A * Registry :=
  map_accum (fun a ctb =>
               let '(a', b') := map_accum (fun a km =>
                                             let '(a', m') := f a km.2 in
                                             (a', (km.1, m'))) a ctb.2 in
               (a', (ctb.1, b'))) a d.

(** The same loop without a local variable. *)
Definition values_map (f : RealizerObj -> RealizerObj) (d : Registry) : Registry :=
  map (fun ctb => (ctb.1, map (fun km => (km.1, f km.2)) ctb.2)) d.

Module Struct.

(** [self[key]] for a symbol [key]: [self._dict[key.ctype][key]]. *)
Definition getitem (d : Registry) (key : Symbol) : Result RealizerObj :=
  match dict_get (ctype key) d with
  | None => Raise KeyError
  | Some b => match dict_get key b with
              | None => Raise KeyError
              | Some r => Ok r
              end
  end.

(** The filter [ctype is None or bool(ct & ctype)]. *)
Definition selects (mask : option ConstructType) (ct : ConstructType) : bool :=
  match mask with
  | None => true
  | Some m => negb (N.eqb (N.land ct m) 0)
  end.

Definition items (d : Registry) (mask : option ConstructType)
    : list (Symbol * RealizerObj) :=
  flat_map (fun ctb => if selects mask ctb.1 then ctb.2 else []) d.

Definition values (d : Registry) (mask : option ConstructType)
    : list RealizerObj :=
  map snd (items d mask).

Definition keys (d : Registry) (mask : option ConstructType) : list Symbol :=
  map fst (items d mask).

Definition reset_output (self : Realizer Cycle) (d : Registry) : Realizer Cycle :=
  let mask := cycle_output (_emitter self) in
  let data := map (fun kv => (kv.1, output kv.2)) (items d (Some mask)) in
  RealizerBase.set_output self (emit (cycle_emitter (_emitter self)) (Some data)).

End Struct.

(** [Structure.clear_outputs]; on a Construct this is the other branch of
    the loop body, [del realizer.output]. *)
Fixpoint clear_outputs (r : RealizerObj) : RealizerObj :=
  match r with
  | Construct self => Construct (RealizerBase.del_output self)
  | Structure self d =>
      let d' := map (fun ctb =>
                       (ctb.1, map (fun km => (km.1, clear_outputs km.2)) ctb.2)) d in
      Structure (Struct.reset_output self d') d'
  end.

(** [_offer], dispatched on the class: a Construct runs the base method, a
    Structure runs it and then offers the link to every member. *)
Fixpoint _offer (r : RealizerObj) (c : Symbol) (callback : PullFunc)
    : RealizerObj :=
  match r with
  | Construct self => Construct (RealizerBase._offer self c callback)
  | Structure self d =>
      Structure (RealizerBase._offer self c callback)
                (map (fun ctb =>
                        (ctb.1, map (fun km => (km.1, _offer km.2 c callback))
                                    ctb.2)) d)
  end.

(** A loop over [self.values()] that may raise. *)
Definition values_mapM (f : RealizerObj -> Result RealizerObj) (d : Registry)
    : Result Registry :=
  mapM (fun ctb =>
          b' ← mapM (fun km => m' ← f km.2; Ok (km.1, m')) ctb.2;
          Ok (ctb.1, b')) d.

(** [Structure._finalize_assembly], and on a Construct the inherited
    [Realizer._finalize_assembly]. *)
Fixpoint _finalize_assembly (context : option (list Symbol)) (r : RealizerObj)
    : Result RealizerObj :=
  match r with
  | Construct self =>
      RealizerBase._finalize_assembly context self;; Ok r
  | Structure self d =>
      d1 ← mapM (fun ctb =>
                   b' ← mapM (fun km =>
                                m' ← (if isinstance_Structure km.2
                                      then _finalize_assembly context km.2
                                      else Ok km.2);
                                Ok (km.1, m')) ctb.2;
                   Ok (ctb.1, b')) d;
      d2 ← values_mapM (fun m =>
                          match m with
                          | Construct s =>
                              RealizerBase._finalize_assembly context s;; Ok m
                          | Structure _ _ => Ok m
                          end) d1;
      let self' := Struct.reset_output self d2 in
      RealizerBase._finalize_assembly context self';;
      Ok (Structure self' d2)
  end.

(** A loop that works on the elements in place and stops at the first
    exception: what was written before the exception stays written. *)
Definition map_until {A} (f : A -> Result unit * A)
    : list A -> Result unit * list A :=
  fix go l :=
    match l with
    | [] => (Ok tt, [])
    | x :: l' =>
        match f x with
        | (Raise e, x') => (Raise e, x' :: l')
        | (Ok _, x') => let '(res, l'') := go l' in (res, x' :: l'')
        end
    end.

(** Such a loop over [self.values()]. *)
Definition values_until (f : RealizerObj -> Result unit * RealizerObj)
    (d : Registry) : Result unit * Registry :=
  map_until (fun ctb =>
               let '(res, b') := map_until (fun km =>
                                              let '(res, m') := f km.2 in
                                              (res, (km.1, m'))) ctb.2 in
               (res, (ctb.1, b'))) d.

(** [_finalize_assembly] together with the tree as the call leaves it,
    whether it returns or raises: the outputs that [reset_output] has
    recomputed before an exception stay recomputed. *)
Fixpoint _finalize_assembly_state (context : option (list Symbol))
    (r : RealizerObj) : Result unit * RealizerObj :=
  match r with
  | Construct self => (RealizerBase._finalize_assembly context self, r)
  | Structure self d =>
      match map_until (fun ctb =>
                         let '(res, b') :=
                           map_until (fun km =>
                                        let '(res, m') :=
                                          if isinstance_Structure km.2
                                          then _finalize_assembly_state context km.2
                                          else (Ok tt, km.2) in
                                        (res, (km.1, m'))) ctb.2 in
                         (res, (ctb.1, b'))) d with
      | (Raise e, d1) => (Raise e, Structure self d1)
      | (Ok _, d1) =>
          match values_until (fun m =>
                                match m with
                                | Construct s =>
                                    (RealizerBase._finalize_assembly context s, m)
                                | Structure _ _ => (Ok tt, m)
                                end) d1 with
          | (Raise e, d2) => (Raise e, Structure self d2)
          | (Ok _, d2) =>
              let self' := Struct.reset_output self d2 in
              (RealizerBase._finalize_assembly context self', Structure self' d2)
          end
      end
  end.

(** [Construct._update]: the propagator's hook, then the updater if any. *)
Definition Construct_update (ask : PullFunc -> Output)
    (self : Realizer Propagator) : Realizer Propagator * list Event :=
  let ev := [PropagatorUpdate (_construct self)] in
  let self := RealizerBase._pull_update_data ask self in
  match _updater self with
  | Some _ => (self, ev ++ [UpdaterCall (_construct self)])
  | None => (self, ev)
  end.

(** [_update], dispatched on the class.  The result carries the calls made
    to propagator hooks and updaters, in the order they are made. *)
Fixpoint _update (ask : PullFunc -> Output) (r : RealizerObj)
    : RealizerObj * list Event :=
  match r with
  | Construct self =>
      let '(self', t) := Construct_update ask self in (Construct self', t)
  | Structure self d =>
      let self := RealizerBase._pull_update_data ask self in
      let '(t1, d1) :=
        map_accum (fun t ctb =>
          let '(t', b') :=
            map_accum (fun t km =>
              if isinstance_Structure km.2
              then let '(m', tm) := _update ask km.2 in (t ++ tm, (km.1, m'))
              else (t, km)) t ctb.2 in
          (t', (ctb.1, b'))) [] d in
      let '(t2, d2) :=
        values_accum (fun t m =>
          match m with
          | Construct s =>
              let '(s', tm) := Construct_update ask s in (t ++ tm, Construct s')
          | Structure _ _ => (t, m)
          end) t1 d1 in
      match _updater self with
      | Some _ => (Structure self d2, t2 ++ [UpdaterCall (_construct self)])
      | None => (Structure self d2, t2)
      end
  end.

Module Links.

(** [self._dict[key.ctype][key] = r], the bucket created on demand. *)
Definition setitem (d : Registry) (key : Symbol) (r : RealizerObj) : Registry :=
  let b := match dict_get (ctype key) d with
           | Some b => b
           | None => []
           end in
  dict_set (ctype key) (dict_set key r b) d.

(** The body of the loop of [_update_links]. *)
Definition link_step (target realizer : RealizerObj)
    : RealizerObj * RealizerObj :=
  if decide (construct target ≠ construct realizer)
  then
    let realizer' := _offer realizer (construct target) (view target) in
    let target' := _offer target (construct realizer) (view realizer) in
    (target', realizer')
  else (target, realizer).

(** [target] is itself a member: the loop skips it, and what the loop did
    to the object is written back to its entry at the end. *)
Definition _update_links (d : Registry) (c : Symbol) : Result Registry :=
  target ← Struct.getitem d c;
  let '(target', d') := values_accum link_step target d in
  Ok (setitem d' c target').

Fixpoint _add (d : Registry) (realizers : list RealizerObj) : Result Registry :=
  match realizers with
  | [] => Ok d
  | realizer :: rest =>
      let d := setitem d (construct realizer) realizer in
      d ← _update_links d (construct realizer);
      _add d rest
  end.

End Links.

(* ===================================================================== *)
(** ** The build context *)
(* ===================================================================== *)

(** The context variables [BUILD_CTX] and [BUILD_LIST]; [None] is an unset
    variable. *)
Record BuildState := mkBuildState {
  BUILD_CTX : option (list Symbol);
  BUILD_LIST : option (list RealizerObj)
}.

(** The tokens kept by [__enter__]: each remembers the value its variable
    had before the [set]. *)
Record Tokens := mkTokens {
  _build_ctx_token : option (list Symbol);
  _build_list_token : option (list RealizerObj)
}.

Definition obj_oid (r : RealizerObj) : nat :=
  match r with
  | Construct self => oid self
  | Structure self _ => oid self
  end.

Module Build.

(** [Realizer._update_add_queue] *)
Definition _update_add_queue (self : RealizerObj) (st : BuildState) : BuildState :=
  match BUILD_LIST st with
  | None => st
  | Some lst => mkBuildState (BUILD_CTX st) (Some (lst ++ [self]))
  end.

(** [Construct(name, emitter, updater)] *)
Definition new_Construct (id : nat) (name : Symbol) (emitter : Propagator)
    (updater : option Updater) (st : BuildState) : RealizerObj * BuildState :=
  let self := Construct (RealizerBase.init id name emitter updater) in
  (self, _update_add_queue self st).

(** [Structure(name, emitter, updater=updater)] *)
Definition new_Structure (id : nat) (name : Symbol) (emitter : Cycle)
    (updater : option Updater) (st : BuildState) : RealizerObj * BuildState :=
  let self := Structure (RealizerBase.init id name emitter updater) [] in
  (self, _update_add_queue self st).

Definition __enter__ (self : Realizer Cycle) (st : BuildState)
    : Tokens * BuildState :=
  let parent := match BUILD_CTX st with Some p => p | None => [] end in
  (mkTokens (BUILD_CTX st) (BUILD_LIST st),
   mkBuildState (Some (parent ++ [_construct self])) (Some [])).

Definition ctx_get {A} (v : option A) : Result A :=
  match v with Some a => Ok a | None => Raise LookupError end.

(** The enclosing build list holds the object [self], not a copy of it. *)
Definition refresh (self : RealizerObj) (l : list RealizerObj) :=
  map (fun r => if Nat.eqb (obj_oid r) (obj_oid self) then self else r) l.

(** The block guarded by [if exc_type is None].  It yields the state of
    [self] and the local variable [add_list], bound or not.  When the
    finalisation raises, [self] is left as the finalisation left it. *)
Definition exit_block (self : Realizer Cycle) (d : Registry)
    (exc_type : option Exception) (st : BuildState)
    : Result unit * RealizerObj * option (list RealizerObj) :=
  match exc_type with
  | Some _ => (Ok tt, Structure self d, None)
  | None =>
      match ctx_get (BUILD_CTX st), ctx_get (BUILD_LIST st) with
      | Raise e, _ | _, Raise e => (Raise e, Structure self d, None)
      | Ok context, Ok add_list =>
          match Links._add d add_list with
          | Raise e => (Raise e, Structure self d, Some add_list)
          | Ok d' =>
              if (length context <=? 1)%nat
              then let '(res, self') :=
                     _finalize_assembly_state (BUILD_CTX st) (Structure self d') in
                   (res, self', Some add_list)
              else (Ok tt, Structure self d', Some add_list)
          end
      end
  end.

Definition __exit__ (self : Realizer Cycle) (d : Registry) (tok : Tokens)
    (exc_type : option Exception) (st : BuildState)
    : Result unit * RealizerObj * BuildState :=
  match exit_block self d exc_type st with
  | (Raise e, self', _) => (Raise e, self', st)
  | (Ok _, self', add_list) =>
      (* print(add_list) *)
      match add_list with
      | None => (Raise (UnboundLocalError "add_list"), self', st)
      | Some _ =>
          (* BUILD_CTX.reset(...); BUILD_LIST.reset(...) *)
          (Ok tt, self',
           mkBuildState (_build_ctx_token tok)
                        (refresh self' <$> _build_list_token tok))
      end
  end.

End Build.

(* ===================================================================== *)
(** ** Rules and rule databases *)
(* ===================================================================== *)

Module Rules.

(** [set(a).issuperset(b)] *)
Definition issuperset (a b : list Symbol) : bool :=
  forallb (fun k => bool_decide (k ∈ a)) b.

(** A rule form: [_conc] and [_weights]. *)
Record Rule := mkRule {
  _conc : chunk;
  _weights : nd.NumDict
}.

Definition weight_keys (self : Rule) : list Symbol :=
  dict_keys (nd.data (_weights self)).

(** [Rule(conc, *conds, weights=weights)].  Both precondition checks build
    a [ValueError] and drop it: the source has no [raise] there. *)
Definition Rule_init (conc : chunk) (conds : list chunk)
    (weights : option (list (chunk * float))) : Result Rule :=
  let _ :=
    match weights with
    | Some w =>
        let _ := if negb (issuperset conds (dict_keys w))
                 then expr_stmt (ValueError "Keys of arg `weights` do not match conds.")
                 else tt in
        if negb (forallb (fun v => (0 <? v)%float) (dict_values w))
        then expr_stmt (ValueError "Weights must be strictly positive.")
        else tt
    | None => tt
    end in
  let ws := nd.MutableNumDict weights in
  let ws := nd.extend ws conds 1%float in
  let w_sum := nd.val_sum ws in
  let ws := if (1 <? w_sum)%float then nd.div_scalar ws w_sum else ws in
  let self := mkRule conc (nd.freeze ws) in
  (* postconditions *)
  if negb (issuperset (weight_keys self) conds && issuperset conds (weight_keys self))
  then Raise (AssertionError "Each cond must have a weight.")
  else if negb (nd.val_sum ws <=? 1)%float
  then Raise (AssertionError "Inferred weights must sum to one or less.")
  else Ok self.


(** A class: its name and the names of its proper ancestors. *)
Record PyClass := mkClass { cls_name : string; cls_bases : list string }.

Definition issubclass (c t : PyClass) : bool :=
  bool_decide (cls_name t ∈ cls_name c :: cls_bases c).

Definition RuleClass : PyClass := mkClass "Rule" ["object"].

(** A value handed to a rule database: an instance of [Rule] or of one of
    its subclasses, or any other object, which may or may not have a sized
    attribute [weights]. *)
Inductive Value :=
| RuleObj (cls : PyClass) (form : Rule)
| OtherObj (weights_len : option nat).

Definition isinstance (val : Value) (t : PyClass) : bool :=
  match val with
  | RuleObj cls _ => issubclass cls t
  | OtherObj _ => false
  end.

(** [len(form.weights)]; [None] when the attribute is missing. *)
Definition len_weights (form : Value) : option nat :=
  match form with
  | RuleObj _ r => Some (length (nd.data (_weights r)))
  | OtherObj l => l
  end.

Record Rules := mkRules {
  _data : list (rule * Value);
  max_conds : option nat;
  Rule_type : PyClass;
  _add_promises : list (rule * Value);
  _del_promises : list rule
}.

Definition set_data (self : Rules) (d : list (rule * Value)) : Rules :=
  mkRules d (max_conds self) (Rule_type self) (_add_promises self)
          (_del_promises self).

Definition set_add_promises (self : Rules) (p : list (rule * Value)) : Rules :=
  mkRules (_data self) (max_conds self) (Rule_type self) p (_del_promises self).

Definition set_del_promises (self : Rules) (p : list rule) : Rules :=
  mkRules (_data self) (max_conds self) (Rule_type self) (_add_promises self) p.

(** Methods run on the database and may raise: the database at the moment
    of the exception is part of the result. *)
Definition M (A : Type) : Type := Rules -> Result A * Rules.

#[global] Instance M_ret : MRet M := fun A a self => (Ok a, self).
#[global] Instance M_bind : MBind M := fun A B f x self =>
  match x self with
  | (Ok a, self') => f a self'
  | (Raise e, self') => (Raise e, self')
  end.

Definition raise {A} (e : Exception) : M A := fun self => (Raise e, self).
Definition gets {A} (f : Rules -> A) : M A := fun self => (Ok (f self), self).
Definition modify (f : Rules -> Rules) : M unit := fun self => (Ok tt, f self).

Fixpoint for_each {A} (l : list A) (body : A -> M unit) : M unit :=
  match l with
  | [] => mret tt
  | x :: l' => body x;; for_each l' body
  end.

(** [Rules(data, max_conds, rule_type)] *)
Definition init (data : option (list (rule * Value))) (max_conds : option nat)
    (rule_type : option PyClass) : Rules :=
  mkRules (match data with Some d => d | None => [] end)
          max_conds
          (match rule_type with Some t => t | None => RuleClass end)
          [] [].

Definition _validate_rule_form (form : Value) : M unit :=
  mc ← gets max_conds;
  match mc with
  | None => mret tt
  | Some n =>
      match len_weights form with
      | None => raise (AttributeError "weights")
      | Some l =>
          if (n <? l)%nat
          then raise (ValueError "Received rule with too many conditions.")
          else mret tt
      end
  end.

(** [self[key] = val].  The [else] branch builds a [TypeError] and drops
    it: the source has no [raise] there. *)
Definition __setitem__ (key : rule) (val : Value) : M unit :=
  _validate_rule_form val;;
  t ← gets Rule_type;
  if isinstance val t
  then modify (fun self => set_data self (dict_set key val (_data self)))
  else mret (expr_stmt
               (TypeError "This rule database expects rules of another type.")).

(** [del self[key]] *)
Definition __delitem__ (key : rule) : M unit :=
  d ← gets _data;
  match dict_del key d with
  | Some d' => modify (fun self => set_data self d')
  | None => raise KeyError
  end.

(** [key in self] *)
Definition __contains__ (key : rule) : M bool :=
  gets (fun self => dict_contains key (_data self)).

(** [MutableMapping.update(other)] for a mapping [other]. *)
Definition update (other : list (rule * Value)) : M unit :=
  for_each other (fun kv => __setitem__ kv.1 kv.2).

Definition promised (r : rule) : M bool :=
  gets (fun self => dict_contains r (_add_promises self)
                    || bool_decide (r ∈ _del_promises self)).

Definition request_add (r : rule) (form : Value) : M unit :=
  b ← promised r;
  if b : bool
  then raise (ValueError "Rule already registered for a promised update.")
  else modify (fun self =>
                 set_add_promises self (dict_set r form (_add_promises self))).

Definition request_del (r : rule) : M unit :=
  b ← promised r;
  if b : bool
  then raise (ValueError "Rule already registered for a promised update.")
  else
    c ← __contains__ r;
    if c : bool
    then modify (fun self =>
                   set_del_promises self (_del_promises self ++ [r]))
    else raise (ValueError "Cannot delete non-existent rule.").

Definition step : M unit :=
  dels ← gets _del_promises;
  for_each dels __delitem__;;
  modify (fun self => set_del_promises self []);;
  adds ← gets _add_promises;
  update adds;;
  modify (fun self => set_add_promises self []).

End Rules.

Module RulesSpec.
Import Rules.

(** What [_validate_rule_form] accepts. *)
Definition within_max_conds (mc : option nat) (form : Value) : bool :=
  match mc with
  | None => true
  | Some n => match len_weights form with
              | None => false
              | Some l => negb (n <? l)%nat
              end
  end.

(** The promised deletions, applied in order; [None] when one is missing. *)
Fixpoint delete_all (dels : list rule) (d : list (rule * Value))
    : option (list (rule * Value)) :=
  match dels with
  | [] => Some d
  | r :: rest => match dict_del r d with
                 | Some d' => delete_all rest d'
                 | None => None
                 end
  end.

(** The promised additions of the configured rule type, stored in order. *)
Definition install_all (t : PyClass) (adds : list (rule * Value))
    (d : list (rule * Value)) : list (rule * Value) :=
  foldl (fun d kv => if isinstance kv.2 t then dict_set kv.1 kv.2 d else d)
        d adds.


(** The float of a natural number, exact below [2^53]. *)
Definition float_of_nat (n : nat) : float :=
  of_uint63 (Uint63.of_Z (Z.of_nat n)).


(** The weights as they stand before the postconditions are checked. *)
Definition stored_weights (conds : list chunk)
    (weights : option (list (chunk * float))) : nd.NumDict :=
  let ws := nd.extend (nd.MutableNumDict weights) conds 1%float in
  if (1 <? nd.val_sum ws)%float then nd.div_scalar ws (nd.val_sum ws) else ws.
End RulesSpec.

(* ===================================================================== *)
(** ** Vocabulary for the statements *)
(* ===================================================================== *)

(** Every realizer below [r], at any depth. *)
Fixpoint all_members (r : RealizerObj) : list RealizerObj :=
  match r with
  | Construct _ => []
  | Structure _ d =>
      flat_map (fun ctb => flat_map (fun km => km.2 :: all_members km.2) ctb.2) d
  end.

(** The value of [b] in [Realizer._finalize_assembly]. *)
Definition links_ok {Et} `{EmitterLike Et} (self : Realizer Et) : bool :=
  check_links (as_emitter (_emitter self)) (_inputs self)
  && match _updater self with
     | None => true
     | Some u => upd_check_links u (_inputs self)
     end.

(** The symbols expected by the emitter and by the updater, if any. *)
Definition expected_links {Et} `{EmitterLike Et} (self : Realizer Et) : gset Symbol :=
  expected (as_emitter (_emitter self))
  ∪ match _updater self with Some u => upd_expected u | None => ∅ end.

Definition obj_links_ok (r : RealizerObj) : bool :=
  match r with
  | Construct self => links_ok self
  | Structure self _ => links_ok self
  end.

Definition obj_expected_links (r : RealizerObj) : gset Symbol :=
  match r with
  | Construct self => expected_links self
  | Structure self _ => expected_links self
  end.

(** The link check passes at [r] and at every realizer below it. *)
Fixpoint tree_links_ok (r : RealizerObj) : bool :=
  match r with
  | Construct self => links_ok self
  | Structure self d =>
      forallb (fun ctb => forallb (fun km => tree_links_ok km.2) ctb.2) d
      && links_ok self
  end.

(** The tree in which every Structure has recomputed its output, members
    first. *)
Fixpoint refresh_outputs (r : RealizerObj) : RealizerObj :=
  match r with
  | Construct _ => r
  | Structure self d =>
      let d' := map (fun ctb =>
                       (ctb.1, map (fun km => (km.1, refresh_outputs km.2)) ctb.2)) d in
      Structure (Struct.reset_output self d') d'
  end.


(** The error raised for a realizer whose link check fails. *)
Definition link_error (context : option (list Symbol)) (r : RealizerObj)
    : Exception :=
  RealizerError (construct r) context (obj_expected_links r ∖ dom (inputs r)).

(** The two loops of [Structure._finalize_assembly]. *)
Definition finalize_state_if_Structure (context : option (list Symbol))
    (m : RealizerObj) : Result unit * RealizerObj :=
  if isinstance_Structure m then _finalize_assembly_state context m else (Ok tt, m).

Definition finalize_state_if_Construct (context : option (list Symbol))
    (m : RealizerObj) : Result unit * RealizerObj :=
  match m with
  | Construct s => (RealizerBase._finalize_assembly context s, m)
  | Structure _ _ => (Ok tt, m)
  end.

Definition finalize_if_Structure (context : option (list Symbol))
    (m : RealizerObj) : Result RealizerObj :=
  if isinstance_Structure m then _finalize_assembly context m else Ok m.

Definition finalize_if_Construct (context : option (list Symbol))
    (m : RealizerObj) : Result RealizerObj :=
  match m with
  | Construct s => RealizerBase._finalize_assembly context s;; Ok m
  | Structure _ _ => Ok m
  end.

(** The two loops of [Structure._update]. *)
Definition update_if_Structure (ask : PullFunc -> Output)
    (t : list Event) (m : RealizerObj) : list Event * RealizerObj :=
  if isinstance_Structure m
  then let '(m', tm) := _update ask m in (t ++ tm, m')
  else (t, m).

Definition update_if_Construct (ask : PullFunc -> Output)
    (t : list Event) (m : RealizerObj) : list Event * RealizerObj :=
  match m with
  | Construct s =>
      let '(s', tm) := Construct_update ask s in (t ++ tm, Construct s')
  | Structure _ _ => (t, m)
  end.

(** The call of the Structure's own updater, when it has one. *)
Definition own_updater_call (self : Realizer Cycle) : list Event :=
  match _updater self with
  | Some _ => [UpdaterCall (_construct self)]
  | None => []
  end.

(** What decides [_accepts]: the emitter and the updater of a realizer. *)
Definition iface (r : RealizerObj) : Emitter * option Updater :=
  match r with
  | Construct self => (as_emitter (_emitter self), _updater self)
  | Structure self _ => (as_emitter (_emitter self), _updater self)
  end.

Definition iface_accepts (i : Emitter * option Updater) (s : Symbol) : bool :=
  match i.2 with
  | Some u => expects i.1 s || upd_expects u s
  | None => expects i.1 s
  end.

(** The invariant of [_dict] that [_add] maintains: keys are not repeated,
    every member is filed under its own symbol, and every symbol is in the
    bucket of its construct type. *)
Definition wf_bucket (ct : ConstructType) (b : list (Symbol * RealizerObj)) : bool :=
  bool_decide (NoDup (dict_keys b))
  && forallb (fun km => bool_decide (km.1 = construct km.2)
                        && bool_decide (ctype km.1 = ct)) b.

Definition wf_registry (d : Registry) : bool :=
  bool_decide (NoDup (dict_keys d))
  && forallb (fun ctb => wf_bucket ctb.1 ctb.2) d.

(** The keys of the input-link table of the member filed under [s]. *)
Definition member_keys (d : Registry) (s : Symbol) : option (gset Symbol) :=
  match Struct.getitem d s with
  | Ok m => Some (dom (inputs m))
  | Raise _ => None
  end.

(** The two halves of the loop body of [_update_links]: what the target
    takes from a member, and what a member takes from the target. *)
Definition absorb (target m : RealizerObj) : RealizerObj :=
  if decide (construct target ≠ construct m)
  then _offer target (construct m) (view m)
  else target.

Definition offer_from (target m : RealizerObj) : RealizerObj :=
  if decide (construct target ≠ construct m)
  then _offer m (construct target) (view target)
  else m.

(** The member filed under [s] has the emitter and updater [i], and the keys
    of its input-link table are the symbols that satisfy [P]. *)
Definition keyview (d : Registry) (s : Symbol) (i : Emitter * option Updater)
    (P : Symbol -> Prop) : Prop :=
  exists m, Struct.getitem d s = Ok m /\ iface m = i
            /\ forall x, x ∈ dom (inputs m) <-> P x.

(** Concrete symbols and values used to exercise the model. *)
Module Samples.
Import Rules.
Definition ct_chunk : ConstructType := 8%N.
Definition ct_rule : ConstructType := 16%N.
Definition c : chunk := mkSymbol ct_chunk "c".
Definition x : chunk := mkSymbol ct_chunk "x".
Definition y : chunk := mkSymbol ct_chunk "y".
Definition r : rule := mkSymbol ct_rule "r".

(** [Rule(c, x, y)], as [Rule_init] returns it. *)
Definition two_conds : Rule :=
  mkRule c (nd.mkNumDict [(x, 0.5%float); (y, 0.5%float)] None).

(** Nine pairwise distinct conditions. *)
Definition nine_conds : list chunk :=
  map (mkSymbol ct_chunk)
      ["x1"; "x2"; "x3"; "x4"; "x5"; "x6"; "x7"; "x8"; "x9"].

(** A database that accepts single-condition rules only. *)
Definition single_cond_db : Rules := init None (Some 1%nat) None.
End Samples.

Module SampleNet.
Definition ct_node : ConstructType := 1%N.
Definition ct_subsystem : ConstructType := 4%N.
Definition ct_agent : ConstructType := 2%N.

Definition a : Symbol := mkSymbol ct_node "a".
Definition b : Symbol := mkSymbol ct_node "b".
Definition sub : Symbol := mkSymbol ct_subsystem "sub".
Definition agent : Symbol := mkSymbol ct_agent "agent".

(** A propagator that expects the listed symbols and emits zeros. *)
Definition relay (exp : list Symbol) : Propagator :=
  mkPropagator
    (mkEmitter (fun _ => NumDictOut (nd.mkNumDict [] (Some 0%float)))
               (fun s => bool_decide (s ∈ exp))
               (list_to_set exp)).

(** A cycle that aggregates the outputs of its node members. *)
Definition cycle (exp : list Symbol) : Cycle :=
  mkCycle
    (mkEmitter (fun data => TrieOut (match data with Some t => t | None => [] end))
               (fun s => bool_decide (s ∈ exp))
               (list_to_set exp))
    [ct_node] ct_node.

(** An updater that expects the listed symbols. *)
Definition watcher (exp : list Symbol) : Updater :=
  mkUpdater (fun s => bool_decide (s ∈ exp)) (list_to_set exp).

Definition A : RealizerObj := Construct (RealizerBase.init 1 a (relay [b]) None).
Definition B : RealizerObj := Construct (RealizerBase.init 2 b (relay [a]) None).
Definition Sub : Realizer Cycle := RealizerBase.init 3 sub (cycle []) None.
Definition Agent : Realizer Cycle :=
  RealizerBase.init 4 agent (cycle []) (Some (watcher [])).

(** An agent whose cycle expects a link from [sub], which no member
    provides. *)
Definition Needy : Realizer Cycle := RealizerBase.init 5 agent (cycle [sub]) None.

(** An agent that holds the subsystem [sub], itself holding [b], and the
    node [a]. *)
Definition two_level : RealizerObj :=
  Structure Agent
    [(ct_subsystem, [(sub, Structure Sub [(ct_node, [(b, B)])])]);
     (ct_node, [(a, A)])].

(** The agent after [_add(A, B)]: each node is linked to the other. *)
Definition wired : RealizerObj :=
  match Links._add [] [A; B] with
  | Ok d => Structure Agent d
  | Raise _ => Structure Agent []
  end.
End SampleNet.


(* ===================================================================== *)
(** ** The rest of the rule database interface *)
(* ===================================================================== *)

Module RulesAPI.
Import Rules.

(** [self[key]] *)
Definition __getitem__ (key : rule) : M Value :=
  d ← gets _data;
  match dict_get key d with
  | Some v => mret v
  | None => raise KeyError
  end.

(** [len(self)] *)
Definition __len__ : M nat := gets (fun self => length (_data self)).

(** [list(self)] *)
Definition __iter__ : M (list rule) := gets (fun self => dict_keys (_data self)).

(** [self.define(r, conc, *conds, weights=weights)].  The form is built by
    the configured rule class, whose constructor is that of [Rule]. *)
Definition define (r : rule) (conc : chunk) (conds : list chunk)
    (weights : option (list (chunk * float))) : M rule :=
  t ← gets Rule_type;
  match Rule_init conc conds weights with
  | Raise e => raise e
  | Ok form => __setitem__ r (RuleObj t form);; mret r
  end.

(** What the promise bookkeeping maintains: no symbol is promised twice,
    and none is promised both for addition and for deletion. *)
Definition promises_wf (self : Rules) : bool :=
  bool_decide (NoDup (dict_keys (_add_promises self)))
  && bool_decide (NoDup (_del_promises self))
  && forallb (fun r => negb (dict_contains r (_add_promises self)))
             (_del_promises self).
End RulesAPI.


(* ===================================================================== *)
(** ** The rest of the realizer interface *)
(* ===================================================================== *)

Module RealizerMore.
Section Methods.
Context {Et : Type} `{EmitterLike Et}.

Definition set_input_cache (self : Realizer Et) (c : list (Symbol * Output)) :=
  mkRealizer (oid self) (_construct self) (_inputs self) (_output self)
             (_emitter self) (_updater self) c (_update_cache self).

(** [Realizer._pull_input_data]; [ask] resolves a pull callback to the
    current output of its object. *)
Definition _pull_input_data (ask : PullFunc -> Output)
    (self : Realizer Et) : Realizer Et :=
  let items := map_to_list (_inputs self) in
  let data := map (fun kv => (kv.1, ask kv.2))
                  (filter (fun kv => expects (as_emitter (_emitter self)) kv.1 = true)
                          items) in
  set_input_cache self data.
End Methods.
End RealizerMore.

Module Address.

(** [Structure.__getitem__] for a tuple of symbols.  A Construct met before
    the end of the address cannot be subscripted. *)
Fixpoint getitem (d : Registry) (key : list Symbol) : Result RealizerObj :=
  match key with
  | [] => Raise KeyError
  | k :: rest =>
      match rest with
      | [] => Struct.getitem d k
      | _ :: _ =>
          head ← Struct.getitem d k;
          match head with
          | Structure _ d' => getitem d' rest
          | Construct _ => Raise (TypeError "object is not subscriptable")
          end
      end
  end.

(** [Structure.__contains__]: only [KeyError] is caught. *)
Definition contains (d : Registry) (key : list Symbol) : Result bool :=
  match getitem d key with
  | Ok _ => Ok true
  | Raise KeyError => Ok false
  | Raise e => Raise e
  end.

(** What the last step of an address does with the realizer reached so
    far. *)
Definition descend (m : RealizerObj) (rest : list Symbol) : Result RealizerObj :=
  match m with
  | Structure _ d' => getitem d' rest
  | Construct _ => Raise (TypeError "object is not subscriptable")
  end.
End Address.

(** The calls that one realizer contributes to an update pass. *)
Definition update_calls (m : RealizerObj) : list Event :=
  match m with
  | Construct self =>
      PropagatorUpdate (_construct self)
      :: match _updater self with
         | Some _ => [UpdaterCall (_construct self)]
         | None => []
         end
  | Structure self _ => own_updater_call self
  end.

(** A scope body that constructs the realizers [rs], in this order. *)
Definition construct_all (rs : list RealizerObj) (st : BuildState) : BuildState :=
  foldl (fun st r => Build._update_add_queue r st) st rs.

(** Two registries that file realizers with the same emitters and updaters
    under the same symbols, with the same keys in their input-link tables. *)
Definition same_links (d d' : Registry) : Prop :=
  forall s,
    match Struct.getitem d s, Struct.getitem d' s with
    | Ok m, Ok m' => iface m = iface m' /\ dom (inputs m) = dom (inputs m')
    | Raise _, Raise _ => True
    | _, _ => False
    end.

(* ===================================================================== *)
(** ** Facts about dictionaries *)
(* ===================================================================== *)

Section PyDictFacts.
Context {K V : Type} `{EqDecision K}.
Implicit Types (k : K) (v : V) (d : list (K * V)).

Lemma dict_contains_true k d :
  dict_contains k d = true <-> k ∈ dict_keys d.
Proof.
  unfold dict_contains, dict_keys.
  induction d as [|[k' v'] d IH]; simpl.
  - split; [discriminate | intros Hin; inversion Hin].
  - destruct (decide (k = k')) as [->|Hne].
    + split; [intros _; left | reflexivity].
    + rewrite IH. split.
      * intros Hin; by right.
      * intros Hin. inversion Hin; subst; [done | assumption].
Qed.

Lemma dict_contains_false k d :
  dict_contains k d = false <-> k ∉ dict_keys d.
Proof.
  rewrite <- dict_contains_true. destruct (dict_contains k d); intuition congruence.
Qed.

Lemma dict_get_None k d : dict_get k d = None <-> k ∉ dict_keys d.
Proof.
  rewrite <- dict_contains_false. unfold dict_contains.
  destruct (dict_get k d); split; done.
Qed.

Lemma dict_get_app k d d' :
  dict_get k (d ++ d') =
  match dict_get k d with Some v => Some v | None => dict_get k d' end.
Proof.
  induction d as [|[k' v'] d IH]; simpl; [done|].
  destruct (decide (k = k')); done.
Qed.

Lemma dict_get_set_eq k v d : dict_get k (dict_set k v d) = Some v.
Proof.
  induction d as [|[k' v'] d IH]; simpl.
  - by rewrite decide_True.
  - destruct (decide (k = k')) as [->|Hne]; simpl.
    + by rewrite decide_True.
    + by rewrite decide_False.
Qed.

Lemma dict_get_set_ne k k' v d :
  k ≠ k' -> dict_get k' (dict_set k v d) = dict_get k' d.
Proof.
  intros Hne. induction d as [|[k0 v0] d IH]; simpl.
  - by rewrite decide_False.
  - destruct (decide (k = k0)) as [->|Hne0]; simpl.
    + by rewrite !decide_False by done.
    + destruct (decide (k' = k0)); done.
Qed.

Lemma dict_keys_set k v d :
  dict_keys (dict_set k v d) =
  if dict_contains k d then dict_keys d else dict_keys d ++ [k].
Proof.
  unfold dict_contains, dict_keys.
  induction d as [|[k0 v0] d IH]; simpl; [done|].
  destruct (decide (k = k0)) as [->|Hne]; simpl; [done|].
  rewrite IH. by destruct (dict_get k d).
Qed.

Lemma dict_del_Some k d :
  k ∈ dict_keys d -> exists d', dict_del k d = Some d'.
Proof.
  unfold dict_keys. induction d as [|[k0 v0] d IH]; simpl; intros Hin.
  - inversion Hin.
  - destruct (decide (k = k0)) as [->|Hne]; [by eexists|].
    destruct IH as [d' ->]; [|by eexists].
    inversion Hin; subst; done.
Qed.

Lemma dict_del_keys k k' d d' :
  dict_del k d = Some d' -> k' ≠ k -> k' ∈ dict_keys d -> k' ∈ dict_keys d'.
Proof.
  unfold dict_keys. revert d'.
  induction d as [|[k0 v0] d IH]; simpl; intros d' Hdel Hne Hin; [done|].
  destruct (decide (k = k0)) as [->|Hne0].
  - injection Hdel as <-. inversion Hin; subst; done.
  - destruct (dict_del k d) as [d''|] eqn:E; [|done].
    injection Hdel as <-. simpl.
    inversion Hin; subst; [left | right; by eapply IH].
Qed.
End PyDictFacts.

Section PyDictMore.
Context {K V : Type} `{EqDecision K}.
Implicit Types (k : K) (v : V) (d : list (K * V)).

Lemma dict_get_elem k v d : dict_get k d = Some v -> (k, v) ∈ d.
Proof.
  induction d as [|[k' v'] d IH]; simpl; [done|].
  destruct (decide (k = k')) as [->|Hne].
  - intros [= ->]. by left.
  - intros Hg. right. by apply IH.
Qed.

Lemma dict_get_NoDup k v d :
  NoDup (dict_keys d) -> (k, v) ∈ d -> dict_get k d = Some v.
Proof.
  unfold dict_keys. induction d as [|[k' v'] d IH]; simpl; intros Hnd Hin.
  - inversion Hin.
  - apply NoDup_cons in Hnd as [Hk' Hnd].
    apply elem_of_cons in Hin as [[= -> ->]|Hin].
    + by rewrite decide_True.
    + rewrite decide_False; [by apply IH|].
      intros ->. apply Hk'. apply list_elem_of_fmap. by exists (k', v).
Qed.

Lemma dict_set_elem k v k' v' d :
  (k', v') ∈ dict_set k v d -> (k', v') = (k, v) \/ (k', v') ∈ d.
Proof.
  induction d as [|[k0 v0] d IH]; simpl.
  - intros Hin. apply list_elem_of_singleton in Hin. by left.
  - destruct (decide (k = k0)) as [->|Hne]; intros Hin.
    + apply elem_of_cons in Hin as [->|Hin]; [by left | right; by right].
    + apply elem_of_cons in Hin as [->|Hin]; [right; by left|].
      destruct (IH Hin) as [?|?]; [by left | right; by right].
Qed.

Lemma dict_set_keeps k v k' v' d :
  k' ≠ k -> (k', v') ∈ d -> (k', v') ∈ dict_set k v d.
Proof.
  intros Hne. induction d as [|[k0 v0] d IH]; simpl; intros Hin.
  - inversion Hin.
  - destruct (decide (k = k0)) as [->|Hne0].
    + apply elem_of_cons in Hin as [[= -> ->]|Hin]; [done | by right].
    + apply elem_of_cons in Hin as [->|Hin]; [by left | right; by apply IH].
Qed.

Lemma dict_set_NoDup k v d :
  NoDup (dict_keys d) -> NoDup (dict_keys (dict_set k v d)).
Proof.
  intros Hnd. rewrite dict_keys_set.
  destruct (dict_contains k d) eqn:Hc; [done|].
  apply dict_contains_false in Hc.
  apply NoDup_app. split; [done|]. split.
  - intros x Hx Hx'. apply list_elem_of_singleton in Hx'. by subst.
  - apply NoDup_singleton.
Qed.
End PyDictMore.


(* ===================================================================== *)
(** ** Rules: weights *)
(* ===================================================================== *)

Section WeightFacts.
Import nd Rules RulesSpec.
Local Open Scope float_scope.

Lemma keys_div_scalar (d : NumDict) (w : float) :
  dict_keys (data (div_scalar d w)) = dict_keys (data d).
Proof. unfold dict_keys, div_scalar; simpl. by rewrite map_map. Qed.

Lemma extend_get (value : float) (keys : list Symbol)
    (acc : list (Symbol * float)) (k : Symbol) :
  dict_get k (foldl (fun acc k =>
                       if dict_contains k acc then acc else acc ++ [(k, value)])
                    acc keys) =
  match dict_get k acc with
  | Some v => Some v
  | None => if bool_decide (k ∈ keys) then Some value else None
  end.
Proof.
  revert acc. induction keys as [|k0 keys IH]; intros acc; simpl.
  - by destruct (dict_get k acc).
  - rewrite IH. clear IH.
    destruct (dict_contains k0 acc) eqn:Hc.
    + destruct (dict_get k acc) eqn:Hk; [done|].
      assert (k ≠ k0) as Hne.
      { intros ->. unfold dict_contains in Hc. by rewrite Hk in Hc. }
      destruct (decide (k ∈ keys)) as [Hin|Hnin].
      * rewrite !bool_decide_eq_true_2; [done | by right | done].
      * rewrite !bool_decide_eq_false_2; [done | | done].
        intros Hin; inversion Hin; subst; done.
    + rewrite dict_get_app. destruct (dict_get k acc) eqn:Hk; [done|]. simpl.
      destruct (decide (k = k0)) as [->|Hne].
      * rewrite bool_decide_eq_true_2; [done | by left].
      * destruct (decide (k ∈ keys)) as [Hin|Hnin].
        -- rewrite !bool_decide_eq_true_2; [done | by right | done].
        -- rewrite !bool_decide_eq_false_2; [done | | done].
           intros Hin; inversion Hin; subst; done.
Qed.


Lemma extend_keys (d : NumDict) (conds : list Symbol) (value : float)
    (k : Symbol) :
  k ∈ dict_keys (data (extend d conds value)) <->
  k ∈ dict_keys (data d) \/ k ∈ conds.
Proof.
  rewrite <- !dict_contains_true. unfold dict_contains, extend; simpl.
  rewrite extend_get. destruct (dict_get k (data d)); [naive_solver|].
  destruct (bool_decide (k ∈ conds)) eqn:E;
    [apply bool_decide_eq_true_1 in E | apply bool_decide_eq_false_1 in E];
    naive_solver.
Qed.

Lemma issuperset_true (a b : list Symbol) :
  issuperset a b = true <-> forall k, k ∈ b -> k ∈ a.
Proof.
  unfold issuperset. rewrite forallb_forall. split.
  - intros Hall k Hk. apply list_elem_of_In in Hk.
    specialize (Hall k Hk). by apply bool_decide_eq_true_1 in Hall.
  - intros Hall k Hk. apply bool_decide_eq_true_2, Hall.
    by apply list_elem_of_In.
Qed.

Lemma stored_weights_keys (conds : list chunk)
    (weights : option (list (chunk * float))) (k : Symbol) :
  k ∈ dict_keys (data (stored_weights conds weights)) <->
  k ∈ dict_keys (data (MutableNumDict weights)) \/ k ∈ conds.
Proof.
  unfold stored_weights.
  destruct (1 <? _); [rewrite keys_div_scalar|]; apply extend_keys.
Qed.

(** The outcome of the constructor: the first postcondition fails exactly
    when a weight key is not a condition, the second exactly when the
    weights to be stored do not sum, in floats, to at most 1. *)
Lemma Rule_init_outcome (conc : chunk) (conds : list chunk)
    (weights : option (list (chunk * float))) :
  Rule_init conc conds weights =
  if issuperset conds (dict_keys (data (MutableNumDict weights)))
  then if val_sum (stored_weights conds weights) <=? 1
       then Ok (mkRule conc (stored_weights conds weights))
       else Raise (AssertionError "Inferred weights must sum to one or less.")
  else Raise (AssertionError "Each cond must have a weight.").
Proof.
  unfold Rule_init. fold (stored_weights conds weights).
  cbv zeta. unfold freeze, weight_keys; simpl.
  assert (issuperset (dict_keys (data (stored_weights conds weights))) conds = true)
    as ->.
  { apply issuperset_true. intros k Hk. apply stored_weights_keys. by right. }
  assert (issuperset conds (dict_keys (data (stored_weights conds weights)))
          = issuperset conds (dict_keys (data (MutableNumDict weights)))) as ->.
  { apply eq_true_iff_eq. rewrite !issuperset_true. split; intros Hall k Hk.
    - apply Hall, stored_weights_keys. by left.
    - apply stored_weights_keys in Hk as [Hk|Hk]; [by apply Hall | done]. }
  simpl. destruct (issuperset conds _); simpl; [|done].
  by destruct (_ <=? _).
Qed.




Lemma filter_none {A} (P : A -> Prop) `{forall a, Decision (P a)} (l : list A) :
  Forall (fun a => ~ P a) l -> filter P l = [].
Proof.
  induction 1 as [|a l Ha _ IH]; [done|].
  by rewrite filter_cons_False.
Qed.


(** Comparison of floats: [a <= b] excludes [b < a]. *)
Lemma SFcompare_antisym (a b : spec_float) :
  SFcompare b a = CompOpp <$> SFcompare a b.
Proof.
  destruct a as [sa|sa| |sa ma ea], b as [sb|sb| |sb mb eb]; simpl;
    try done; try (by destruct sa); try (by destruct sb);
    try (by destruct sa, sb).
  destruct sa, sb; try done.
  - rewrite (Z.compare_antisym ea eb).
    change (PosDef.Pos.compare_cont Eq ?p ?q) with (Pos.compare p q).
    rewrite (Pos.compare_antisym ma mb).
    destruct (ea ?= eb)%Z; simpl; [|done|done].
    by destruct (ma ?= mb)%positive.
  - rewrite (Z.compare_antisym ea eb).
    change (PosDef.Pos.compare_cont Eq ?p ?q) with (Pos.compare p q).
    rewrite (Pos.compare_antisym ma mb).
    by destruct (ea ?= eb)%Z.
Qed.

Lemma leb_not_ltb (a b : float) : (a <=? b) = true -> (b <? a) = false.
Proof.
  rewrite leb_spec, ltb_spec. unfold SFleb, SFltb.
  rewrite (SFcompare_antisym (Prim2SF a) (Prim2SF b)).
  destruct (SFcompare (Prim2SF a) (Prim2SF b)) as [[| |]|]; simpl; done.
Qed.
End WeightFacts.


(* ===================================================================== *)
(** ** Rules: the database *)
(* ===================================================================== *)

Section DatabaseFacts.
Import Rules RulesSpec.

Lemma bind_Ok {A B} (x : M A) (f : A -> M B) (self self' : Rules) (a : A) :
  x self = (Ok a, self') -> (x ≫= f) self = f a self'.
Proof. intros Hx. unfold mbind, M_bind. by rewrite Hx. Qed.

Lemma bind_Raise {A B} (x : M A) (f : A -> M B) (self self' : Rules) e :
  x self = (Raise e, self') -> (x ≫= f) self = (Raise e, self').
Proof. intros Hx. unfold mbind, M_bind. by rewrite Hx. Qed.

Lemma validate_within (form : Value) (self : Rules) :
  within_max_conds (max_conds self) form = true ->
  _validate_rule_form form self = (Ok tt, self).
Proof.
  unfold within_max_conds, _validate_rule_form, gets, mbind, M_bind.
  destruct (max_conds self) as [n|]; [|done].
  destruct (len_weights form) as [l|]; [|done].
  destruct (n <? l)%nat; done.
Qed.

Lemma setitem_within (key : rule) (val : Value) (self : Rules) :
  within_max_conds (max_conds self) val = true ->
  __setitem__ key val self =
  (Ok tt, if isinstance val (Rule_type self)
          then set_data self (dict_set key val (_data self))
          else self).
Proof.
  intros Hw. unfold __setitem__.
  rewrite (bind_Ok _ _ self self tt) by by apply validate_within.
  unfold gets, modify, mbind, M_bind, mret, M_ret.
  by destruct (isinstance val (Rule_type self)).
Qed.

Lemma set_data_data self d : _data (set_data self d) = d.
Proof. done. Qed.

Lemma update_within (adds : list (rule * Value)) (self : Rules) :
  forallb (within_max_conds (max_conds self)) (dict_values adds) = true ->
  update adds self =
  (Ok tt, set_data self (install_all (Rule_type self) adds (_data self))).
Proof.
  unfold update. revert self.
  induction adds as [|[k v] adds IH]; intros self Hall; simpl.
  - by destruct self.
  - simpl in Hall. apply andb_true_iff in Hall as [Hv Hall].
    erewrite bind_Ok by by apply setitem_within.
    destruct (isinstance v (Rule_type self)) eqn:Hi.
    + rewrite IH by done. done.
    + rewrite IH by done. done.
Qed.

Lemma delete_promises (dels : list rule) (self : Rules) :
  NoDup dels ->
  (forall r, r ∈ dels -> r ∈ dict_keys (_data self)) ->
  exists d', delete_all dels (_data self) = Some d' /\
             for_each dels __delitem__ self = (Ok tt, set_data self d').
Proof.
  revert self. induction dels as [|r dels IH]; intros self Hnd Hin; simpl.
  - exists (_data self). split; [done|]. by destruct self.
  - apply NoDup_cons in Hnd as [Hr Hnd].
    destruct (dict_del_Some r (_data self)) as [d1 Hd1]; [apply Hin; by left|].
    rewrite Hd1.
    destruct (IH (set_data self d1) Hnd) as (d' & Hd' & Hfor).
    { intros r' Hr'. simpl. eapply dict_del_keys; [done | | apply Hin; by right].
      intros ->. done. }
    exists d'. split; [done|].
    erewrite bind_Ok; [exact Hfor|].
    unfold __delitem__, gets, modify, mbind, M_bind. by rewrite Hd1.
Qed.


End DatabaseFacts.


Section RuleClaims.
Import nd Rules RulesSpec.
Local Open Scope float_scope.

(** C2: the constructor is claimed to raise on a non-positive weight and on
    a weight key outside the conditions.  On the code a negative and a zero
    weight are both accepted and stored; a key outside the conditions is
    caught only by the postcondition assertion. *)
Theorem Rule_init_accepts_nonpositive_weight :
  Rule_init Samples.c [Samples.x] (Some [(Samples.x, -1)])
    = Ok (mkRule Samples.c (mkNumDict [(Samples.x, -1)] None))
  /\ Rule_init Samples.c [Samples.x] (Some [(Samples.x, 0)])
    = Ok (mkRule Samples.c (mkNumDict [(Samples.x, 0)] None))
  /\ Rule_init Samples.c [Samples.x] (Some [(Samples.y, 1)])
    = Raise (AssertionError "Each cond must have a weight.").
Proof. repeat split; vm_compute; reflexivity. Qed.


End RuleClaims.


Section DatabaseClaims.
Import Rules RulesSpec.




(** C10: a value that passes the [max_conds] check and is not an instance
    of the configured rule type is dropped by [__setitem__]: the call
    returns normally and the database is unchanged. *)
Theorem setitem_wrong_type_dropped (db : Rules) (key : rule) (val : Value)
    (Hcheck : _validate_rule_form val db = (Ok tt, db))
    (Htype : isinstance val (Rule_type db) = false) :
  __setitem__ key val db = (Ok tt, db).
Proof.
  unfold __setitem__. erewrite bind_Ok by exact Hcheck.
  unfold gets, mbind, M_bind, mret, M_ret. by rewrite Htype.
Qed.

Lemma setitem_wrong_type_dropped_witness :
  __setitem__ Samples.r (OtherObj None) (init None None None)
  = (Ok tt, init None None None).
Proof.
  apply (setitem_wrong_type_dropped (init None None None) Samples.r
                                    (OtherObj None)).
  - reflexivity.
  - reflexivity.
Defined.
End DatabaseClaims.


(* ===================================================================== *)
(** ** Realizers: induction over the ownership tree *)
(* ===================================================================== *)

Lemma RealizerObj_tree_ind (P : RealizerObj -> Prop) :
  (forall self, P (Construct self)) ->
  (forall self d,
      Forall (fun ctb => Forall (fun km => P km.2) ctb.2) d ->
      P (Structure self d)) ->
  forall r, P r.
Proof.
  intros HC HS. fix IH 1. intros [self|self d].
  - apply HC.
  - apply HS. induction d as [|[ct b] d IHd]; constructor; [|exact IHd].
    simpl. induction b as [|[k m] b IHb]; constructor; [|exact IHb].
    simpl. apply IH.
Qed.

Section OfferFacts.
Context {Et : Type} `{EmitterLike Et}.
Implicit Types (self : Realizer Et).

Lemma base_offer_inputs self s f :
  _inputs (RealizerBase._offer self s f) =
  if RealizerBase._accepts self s then <[s := f]> (_inputs self)
  else _inputs self.
Proof. unfold RealizerBase._offer. by destruct (RealizerBase._accepts self s). Qed.

Lemma base_offer_accepts self s f x :
  RealizerBase._accepts (RealizerBase._offer self s f) x
  = RealizerBase._accepts self x.
Proof. unfold RealizerBase._offer. by destruct (RealizerBase._accepts self s). Qed.

Lemma base_offer_construct self s f :
  _construct (RealizerBase._offer self s f) = _construct self.
Proof. unfold RealizerBase._offer. by destruct (RealizerBase._accepts self s). Qed.

Lemma base_offer_oid self s f :
  oid (RealizerBase._offer self s f) = oid self.
Proof. unfold RealizerBase._offer. by destruct (RealizerBase._accepts self s). Qed.
End OfferFacts.

Lemma filter_key_length {V} (l : list (Symbol * V)) (k : Symbol) :
  NoDup (map fst l) -> length (filter (fun kv => kv.1 = k) l) <= 1.
Proof.
  induction l as [|[k0 v0] l IH]; simpl; intros Hnd; [lia|].
  apply NoDup_cons in Hnd as [Hk0 Hnd].
  destruct (decide (k0 = k)) as [->|Hne].
  - rewrite filter_cons_True by done. simpl.
    rewrite (filter_none (fun kv : Symbol * V => kv.1 = k) l); [simpl; lia|].
    apply Forall_forall. intros [k1 v1] Hin Heq. simpl in Heq. subst k1.
    apply Hk0. apply list_elem_of_fmap. by exists (k, v1).
  - rewrite filter_cons_False by done. by apply IH.
Qed.

Section RealizerClaims.

(** C9: [_offer(s, f)] writes the entry [s ↦ f] exactly when the emitter
    or, if there is one, the updater expects [s]; otherwise the realizer is
    unchanged; a second offer for [s] replaces the first, and the table
    holds at most one entry for any symbol.  The same holds for the own
    table of a Construct and of a Structure. *)
Theorem offer_stores_iff_accepted {Et} `{EmitterLike Et}
    (self : Realizer Et) (r : RealizerObj) (s : Symbol) (f g : PullFunc) :
  (RealizerBase._accepts self s = true <->
     expects (as_emitter (_emitter self)) s = true
     \/ exists u, _updater self = Some u /\ upd_expects u s = true)
  /\ _inputs (RealizerBase._offer self s f)
     = (if RealizerBase._accepts self s then <[s := f]> (_inputs self)
        else _inputs self)
  /\ (RealizerBase._accepts self s = false ->
      RealizerBase._offer self s f = self)
  /\ RealizerBase._offer (RealizerBase._offer self s f) s g
     = RealizerBase._offer self s g
  /\ (forall k,
         length (filter (fun kv => kv.1 = k)
                        (map_to_list (_inputs (RealizerBase._offer self s f))))
         <= 1)
  /\ inputs (_offer r s f)
     = (if _accepts r s then <[s := f]> (inputs r) else inputs r).
Proof.
  split; [|split; [|split; [|split; [|split]]]].
  - unfold RealizerBase._accepts. destruct (_updater self) as [u|].
    + rewrite orb_true_iff. split.
      * intros [He|Hu]; [by left | right; by exists u].
      * intros [He|(u' & Hu' & Hx)]; [by left | right; congruence].
    + split; [by left | intros [He|(u' & Hu' & _)]; [done | discriminate]].
  - apply base_offer_inputs.
  - intros Hn. unfold RealizerBase._offer. by rewrite Hn.
  - unfold RealizerBase._offer.
    destruct (RealizerBase._accepts self s) eqn:Ha; rewrite ?Ha; [|done].
    unfold RealizerBase._accepts in *. simpl. rewrite Ha.
    unfold RealizerBase.set_inputs; simpl. by rewrite insert_insert_eq.
  - intros k. apply filter_key_length, NoDup_fst_map_to_list.
  - destruct r as [c|c d]; simpl; apply base_offer_inputs.
Qed.
End RealizerClaims.


(* ===================================================================== *)
(** ** Realizers: loops over the members *)
(* ===================================================================== *)

Section LoopFacts.

Lemma mapM_dichotomy {A B} (f : A -> Result B) (g : A -> B) (l : list A) :
  (forall x, x ∈ l -> f x = Ok (g x) \/ exists e, f x = Raise e) ->
  (mapM f l = Ok (map g l) /\ forall x, x ∈ l -> f x = Ok (g x))
  \/ (exists x e, x ∈ l /\ f x = Raise e /\ mapM f l = Raise e).
Proof.
  induction l as [|a l IH]; intros Hall.
  - left. split; [done|]. intros x Hx. inversion Hx.
  - destruct (Hall a) as [Ha|[e Ha]]; [by left | |].
    + destruct IH as [[Hl Hok]|(x & e & Hx & Hfx & Hl)].
      * intros x Hx. apply Hall. by right.
      * left. split; [simpl; by rewrite Ha, Hl|].
        intros x Hx. inversion Hx; subst; [done | by apply Hok].
      * right. exists x, e. split; [by right|]. split; [done|].
        simpl. by rewrite Ha, Hl.
    + right. exists a, e. split; [by left|]. split; [done|].
      simpl. by rewrite Ha.
Qed.

Lemma values_flat (d : Registry) :
  Struct.values d None = flat_map (fun ctb => map snd ctb.2) d.
Proof.
  unfold Struct.values, Struct.items. simpl.
  induction d as [|[ct b] d IH]; simpl; [done|].
  by rewrite map_app, IH.
Qed.

Lemma elem_of_values (d : Registry) (m : RealizerObj) :
  m ∈ Struct.values d None <->
  exists ctb km, ctb ∈ d /\ km ∈ ctb.2 /\ m = km.2.
Proof.
  rewrite values_flat. rewrite list_elem_of_In, in_flat_map. split.
  - intros (ctb & Hctb & Hm). apply list_elem_of_In in Hctb.
    apply list_elem_of_In, list_elem_of_fmap in Hm as (km & -> & Hkm).
    by exists ctb, km.
  - intros (ctb & km & Hctb & Hkm & ->). exists ctb.
    split; [by apply list_elem_of_In|].
    apply list_elem_of_In, list_elem_of_fmap. by exists km.
Qed.

Lemma values_values_map (f : RealizerObj -> RealizerObj) (d : Registry) :
  Struct.values (values_map f d) None = map f (Struct.values d None).
Proof.
  rewrite !values_flat. unfold values_map.
  induction d as [|[ct b] d IH]; simpl; [done|].
  rewrite map_app, IH. f_equal. by rewrite !map_map.
Qed.

Lemma items_values_map (f : RealizerObj -> RealizerObj) (d : Registry) mask :
  Struct.items (values_map f d) mask
  = map (fun km => (km.1, f km.2)) (Struct.items d mask).
Proof.
  unfold Struct.items, values_map.
  induction d as [|[ct b] d IH]; simpl; [done|].
  rewrite map_app, IH. by destruct (Struct.selects mask ct).
Qed.

Lemma values_map_ext (f g : RealizerObj -> RealizerObj) (d : Registry) :
  (forall m, m ∈ Struct.values d None -> f m = g m) ->
  values_map f d = values_map g d.
Proof.
  intros Hfg. unfold values_map.
  apply map_ext_in. intros ctb Hctb. f_equal.
  apply map_ext_in. intros km Hkm. f_equal. apply Hfg.
  apply elem_of_values. exists ctb, km.
  split; [by apply list_elem_of_In|]. split; [by apply list_elem_of_In|done].
Qed.

Lemma values_map_id (d : Registry) : values_map (fun m => m) d = d.
Proof.
  unfold values_map. rewrite <- (map_id d) at 2.
  apply map_ext. intros [ct b]. simpl. f_equal.
  rewrite <- (map_id b) at 2. apply map_ext. by intros [k m].
Qed.

Lemma values_mapM_dichotomy (f : RealizerObj -> Result RealizerObj)
    (g : RealizerObj -> RealizerObj) (d : Registry) :
  (forall m, m ∈ Struct.values d None ->
             f m = Ok (g m) \/ exists e, f m = Raise e) ->
  (values_mapM f d = Ok (values_map g d)
   /\ forall m, m ∈ Struct.values d None -> f m = Ok (g m))
  \/ (exists m e, m ∈ Struct.values d None /\ f m = Raise e
                  /\ values_mapM f d = Raise e).
Proof.
  intros Hall. unfold values_mapM, values_map.
  set (F := fun ctb : ConstructType * list (Symbol * RealizerObj) =>
              b' ← mapM (fun km => m' ← f km.2; Ok (km.1, m')) ctb.2;
              Ok (ctb.1, b')).
  set (G := fun ctb : ConstructType * list (Symbol * RealizerObj) =>
              (ctb.1, map (fun km => (km.1, g km.2)) ctb.2)).
  assert (forall ctb, ctb ∈ d ->
            (F ctb = Ok (G ctb) /\ forall km, km ∈ ctb.2 -> f km.2 = Ok (g km.2))
            \/ exists km e, km ∈ ctb.2 /\ f km.2 = Raise e /\ F ctb = Raise e)
    as Hbucket.
  { intros ctb Hctb.
    destruct (mapM_dichotomy (fun km => m' ← f km.2; Ok (km.1, m'))
                             (fun km => (km.1, g km.2)) ctb.2)
      as [[Hb Hok]|(km & e & Hkm & Hf & Hb)].
    - intros km Hkm.
      destruct (Hall km.2) as [Hm|[e Hm]].
      + apply elem_of_values. by exists ctb, km.
      + left. by rewrite Hm.
      + right. exists e. by rewrite Hm.
    - left. split; [unfold F; by rewrite Hb|].
      intros km Hkm. specialize (Hok km Hkm).
      destruct (Hall km.2) as [Hm|[e Hm]]; [|done|].
      + apply elem_of_values. by exists ctb, km.
      + rewrite Hm in Hok. discriminate.
    - right. exists km, e. split; [done|].
      destruct (f km.2) eqn:Hm; [discriminate|].
      injection Hf as ->. split; [done|]. unfold F. by rewrite Hb. }
  destruct (mapM_dichotomy F G d) as [[Hd Hok]|(ctb & e & Hctb & HF & Hd)].
  - intros ctb Hctb.
    destruct (Hbucket ctb Hctb) as [[HF _]|(km & e & _ & _ & HF)];
      [by left | right; by exists e].
  - left. split; [done|]. intros m Hm.
    apply elem_of_values in Hm as (ctb & km & Hctb & Hkm & ->).
    destruct (Hbucket ctb Hctb) as [[_ Hall']|(km' & e & _ & _ & HF)].
    + by apply Hall'.
    + rewrite (Hok ctb Hctb) in HF. discriminate.
  - right.
    destruct (Hbucket ctb Hctb) as [[HF' _]|(km & e' & Hkm & Hm & HF')].
    + rewrite HF' in HF. discriminate.
    + rewrite HF' in HF. injection HF as ->.
      exists km.2, e. split; [|done].
      apply elem_of_values. by exists ctb, km.
Qed.

Lemma forallb_map_ext {A B} (p : B -> bool) (q : A -> bool) (f : A -> B)
    (l : list A) :
  (forall x, x ∈ l -> p (f x) = q x) ->
  forallb p (map f l) = forallb q l.
Proof.
  induction l as [|a l IH]; intros Hpq; simpl; [done|].
  rewrite Hpq by by left. rewrite IH; [done|].
  intros x Hx. apply Hpq. by right.
Qed.

Lemma map_accum_trace {E B} (f : list E -> B -> list E * B)
    (h : B -> list E) (k : B -> B) (t : list E) (l : list B) :
  (forall t x, f t x = (t ++ h x, k x)) ->
  map_accum f t l = (t ++ flat_map h l, map k l).
Proof.
  intros Hf. revert t. induction l as [|x l IH]; intros t; simpl.
  - by rewrite app_nil_r.
  - rewrite Hf, IH. by rewrite <- app_assoc.
Qed.

Lemma all_members_values (self : Realizer Cycle) (d : Registry) :
  all_members (Structure self d)
  = flat_map (fun m => m :: all_members m) (Struct.values d None).
Proof.
  rewrite values_flat. simpl.
  induction d as [|[ct b] d IH]; simpl; [done|].
  rewrite flat_map_app, IH. f_equal.
  clear. induction b as [|[k m] b IHb]; simpl; [done|]. by rewrite IHb.
Qed.

Lemma tree_links_ok_values (self : Realizer Cycle) (d : Registry) :
  tree_links_ok (Structure self d)
  = forallb tree_links_ok (Struct.values d None) && links_ok self.
Proof.
  rewrite values_flat. simpl. f_equal.
  induction d as [|[ct b] d IH]; simpl; [done|].
  rewrite forallb_app, IH. f_equal.
  clear. induction b as [|[k m] b IHb]; simpl; [done|]. by rewrite IHb.
Qed.
End LoopFacts.


(* ===================================================================== *)
(** ** Realizers: assembly *)
(* ===================================================================== *)

Section AssemblyFacts.
Variable context : option (list Symbol).

Lemma base_finalize {Et} `{EmitterLike Et} (self : Realizer Et) :
  RealizerBase._finalize_assembly context self =
  if links_ok self then Ok tt
  else Raise (RealizerError (_construct self) context
                            (expected_links self ∖ dom (_inputs self))).
Proof.
  unfold RealizerBase._finalize_assembly, RealizerBase._link_error_msg,
    links_ok, expected_links.
  by destruct (_ && _).
Qed.

Lemma links_ok_sound {Et} `{EmitterLike Et} (self : Realizer Et) :
  links_ok self = true -> expected_links self ⊆ dom (_inputs self).
Proof.
  unfold links_ok, expected_links, check_links, upd_check_links.
  intros [He Hu]%andb_true_iff. apply bool_decide_eq_true_1 in He.
  destruct (_updater self) as [u|].
  - apply bool_decide_eq_true_1 in Hu. set_solver.
  - set_solver.
Qed.

Lemma finalize_Structure_eq (self : Realizer Cycle) (d : Registry) :
  _finalize_assembly context (Structure self d) =
  d1 ← values_mapM (finalize_if_Structure context) d;
  d2 ← values_mapM (finalize_if_Construct context) d1;
  let self' := Struct.reset_output self d2 in
  RealizerBase._finalize_assembly context self';;
  Ok (Structure self' d2).
Proof. reflexivity. Qed.

Lemma tree_links_ok_members (r : RealizerObj) :
  tree_links_ok r = true ->
  forall m, m ∈ r :: all_members r -> obj_links_ok m = true.
Proof.
  induction r as [self|self d IH] using RealizerObj_tree_ind; intros Hok m Hm.
  - simpl in Hm. apply list_elem_of_singleton in Hm as ->. exact Hok.
  - rewrite tree_links_ok_values in Hok.
    apply andb_true_iff in Hok as [Hmem Hself].
    apply elem_of_cons in Hm as [->|Hm]; [exact Hself|].
    rewrite all_members_values in Hm.
    apply list_elem_of_In, in_flat_map in Hm as (m' & Hm' & Hm).
    apply list_elem_of_In in Hm'. apply list_elem_of_In in Hm.
    rewrite forallb_forall in Hmem.
    pose proof (Hmem m' (proj1 (list_elem_of_In _ _) Hm')) as Hok'.
    apply elem_of_values in Hm' as (ctb & km & Hctb & Hkm & ->).
    rewrite Forall_forall in IH. specialize (IH ctb Hctb).
    rewrite Forall_forall in IH. by apply (IH km Hkm).
Qed.

Lemma refresh_outputs_Construct (m : RealizerObj) :
  isinstance_Construct m = true -> refresh_outputs m = m.
Proof. by destruct m. Qed.

Lemma refresh_outputs_kind (m : RealizerObj) :
  isinstance_Structure (refresh_outputs m) = isinstance_Structure m.
Proof. by destruct m. Qed.

Lemma refresh_outputs_iface (m : RealizerObj) :
  construct (refresh_outputs m) = construct m
  /\ inputs (refresh_outputs m) = inputs m
  /\ obj_links_ok (refresh_outputs m) = obj_links_ok m
  /\ obj_expected_links (refresh_outputs m) = obj_expected_links m.
Proof. by destruct m. Qed.

Lemma finalize_spec (r : RealizerObj) :
  (tree_links_ok r = true
   /\ _finalize_assembly context r = Ok (refresh_outputs r))
  \/ (tree_links_ok r = false
      /\ exists m, m ∈ r :: all_members r
                   /\ obj_links_ok m = false
                   /\ _finalize_assembly context r = Raise (link_error context m)).
Proof.
  induction r as [self|self d IH] using RealizerObj_tree_ind.
  - simpl. rewrite base_finalize. destruct (links_ok self) eqn:Hok.
    + by left.
    + right. split; [done|]. exists (Construct self).
      split; [by left|]. by split.
  - assert (forall m, m ∈ Struct.values d None ->
              (tree_links_ok m = true
               /\ _finalize_assembly context m = Ok (refresh_outputs m))
              \/ (tree_links_ok m = false
                  /\ exists m0, m0 ∈ m :: all_members m
                       /\ obj_links_ok m0 = false
                       /\ _finalize_assembly context m
                          = Raise (link_error context m0))) as IH'.
    { intros m (ctb & km & Hctb & Hkm & ->)%elem_of_values.
      rewrite Forall_forall in IH. specialize (IH ctb Hctb).
      rewrite Forall_forall in IH. by apply IH. }
    clear IH.
    assert (forall m m0, m ∈ Struct.values d None -> m0 ∈ m :: all_members m ->
              m0 ∈ Structure self d :: all_members (Structure self d)) as Hsub.
    { intros m m0 Hm Hm0. right. rewrite all_members_values.
      apply list_elem_of_In, in_flat_map. exists m.
      split; by apply list_elem_of_In. }
    assert (forall m, m ∈ Struct.values d None -> tree_links_ok m = false ->
              tree_links_ok (Structure self d) = false) as Hbad.
    { intros m Hm Hf. rewrite tree_links_ok_values.
      apply andb_false_iff. left. apply not_true_iff_false. intros Hall.
      rewrite forallb_forall in Hall.
      rewrite (Hall m) in Hf; [discriminate | by apply list_elem_of_In]. }
    rewrite finalize_Structure_eq.
    remember (tree_links_ok (Structure self d)) as T eqn:HT.
    destruct (values_mapM_dichotomy (finalize_if_Structure context)
                                    refresh_outputs d)
      as [[Hd1 Hok1]|(m & e & Hm & Hfm & Hd1)].
    { intros m Hm. unfold finalize_if_Structure.
      destruct (isinstance_Structure m) eqn:Hk.
      - destruct (IH' m Hm) as [[_ Hf]|[_ (m0 & _ & _ & Hf)]];
          [by left | right; by eexists].
      - left. rewrite refresh_outputs_Construct; [done | by destruct m]. }
    2:{ (* a member Structure fails *)
      unfold finalize_if_Structure in Hfm.
      destruct (isinstance_Structure m) eqn:Hk; [|discriminate].
      destruct (IH' m Hm) as [[_ Hf]|[Hbadm (m0 & Hm0 & Hl0 & Hf)]];
        [rewrite Hf in Hfm; discriminate|].
      right. split; [by eapply Hbad|].
      exists m0. split; [by eapply Hsub|]. split; [done|].
      rewrite Hd1. rewrite Hf in Hfm. by injection Hfm as <-. }
    rewrite Hd1. simpl.
    destruct (values_mapM_dichotomy (finalize_if_Construct context)
                                    (fun m => m) (values_map refresh_outputs d))
      as [[Hd2 Hok2]|(m' & e & Hm' & Hfm & Hd2)].
    { intros m' _. destruct m' as [s|s d']; simpl; [|by left].
      rewrite base_finalize. destruct (links_ok s); [by left | right; by eexists]. }
    2:{ (* a member Construct fails *)
      rewrite values_values_map in Hm'.
      apply list_elem_of_fmap in Hm' as (m & -> & Hm).
      destruct m as [s|s d']; [|discriminate].
      simpl in Hfm. rewrite base_finalize in Hfm.
      destruct (links_ok s) eqn:Hs; [discriminate|].
      right. split; [by apply (Hbad (Construct s))|].
      exists (Construct s). split; [apply (Hsub (Construct s)); [done | by left]|].
      split; [done|]. rewrite Hd2. simpl in Hfm. by injection Hfm as <-. }
    rewrite Hd2, values_map_id. simpl.
    rewrite base_finalize.
    change (links_ok (Struct.reset_output self (values_map refresh_outputs d)))
      with (links_ok self).
    destruct (links_ok self) eqn:Hself.
    + left. split; [|done].
      rewrite HT, tree_links_ok_values, Hself, andb_true_r.
      apply forallb_forall. intros m Hm. apply list_elem_of_In in Hm.
      destruct m as [s|s d'].
      * assert (Construct s ∈ Struct.values (values_map refresh_outputs d) None)
          as Hin.
        { rewrite values_values_map. apply list_elem_of_fmap.
          by exists (Construct s). }
        specialize (Hok2 _ Hin). simpl in Hok2. rewrite base_finalize in Hok2.
        simpl. by destruct (links_ok s).
      * specialize (Hok1 _ Hm). unfold finalize_if_Structure in Hok1.
        simpl in Hok1.
        destruct (IH' _ Hm) as [[Ht _]|[_ (m0 & _ & _ & Hf)]]; [done|].
        simpl in Hf. rewrite Hf in Hok1. discriminate.
    + right. split; [rewrite HT, tree_links_ok_values, Hself; apply andb_false_r|].
      exists (Structure self d). split; [by left|]. by split.
Qed.

Lemma tree_links_ok_refresh (r : RealizerObj) :
  tree_links_ok (refresh_outputs r) = tree_links_ok r.
Proof.
  induction r as [self|self d IH] using RealizerObj_tree_ind; [done|].
  change (refresh_outputs (Structure self d))
    with (Structure (Struct.reset_output self (values_map refresh_outputs d))
                    (values_map refresh_outputs d)).
  rewrite !tree_links_ok_values, values_values_map.
  change (links_ok (Struct.reset_output self (values_map refresh_outputs d)))
    with (links_ok self).
  f_equal. apply forallb_map_ext.
  intros m (ctb & km & Hctb & Hkm & ->)%elem_of_values.
  rewrite Forall_forall in IH. specialize (IH ctb Hctb).
  rewrite Forall_forall in IH. by apply IH.
Qed.
End AssemblyFacts.


(* ===================================================================== *)
(** ** Realizers: update order *)
(* ===================================================================== *)

Section UpdateFacts.
Variable ask : PullFunc -> Output.

Lemma map_accum_ext {A B} (f g : A -> B -> A * B) (a : A) (l : list B) :
  (forall a x, f a x = g a x) -> map_accum f a l = map_accum g a l.
Proof.
  intros Hfg. revert a. induction l as [|x l IH]; intros a; simpl; [done|].
  rewrite Hfg. destruct (g a x) as [a1 y]. by rewrite IH.
Qed.

Lemma values_accum_trace (f : list Event -> RealizerObj -> list Event * RealizerObj)
    (h : RealizerObj -> list Event) (k : RealizerObj -> RealizerObj)
    (t : list Event) (d : Registry) :
  (forall t m, f t m = (t ++ h m, k m)) ->
  values_accum f t d = (t ++ flat_map h (Struct.values d None), values_map k d).
Proof.
  intros Hf. unfold values_accum, values_map. rewrite values_flat.
  rewrite (map_accum_trace _ (fun ctb => flat_map h (map snd ctb.2))
                           (fun ctb => (ctb.1, map (fun km => (km.1, k km.2)) ctb.2))).
  - f_equal. f_equal. induction d as [|[ct b] d IH]; simpl; [done|].
    by rewrite flat_map_app, IH.
  - intros t' [ct b]. simpl.
    rewrite (map_accum_trace _ (fun km => h km.2) (fun km => (km.1, k km.2))).
    + f_equal. f_equal. induction b as [|[k0 m] b IHb]; simpl; [done|].
      by rewrite IHb.
    + intros t'' [k0 m]. simpl. by rewrite Hf.
Qed.

Lemma update_Structure_eq (self : Realizer Cycle) (d : Registry) :
  _update ask (Structure self d) =
  let self1 := RealizerBase._pull_update_data ask self in
  let '(t1, d1) := values_accum (update_if_Structure ask) [] d in
  let '(t2, d2) := values_accum (update_if_Construct ask) t1 d1 in
  match _updater self1 with
  | Some _ => (Structure self1 d2, t2 ++ [UpdaterCall (_construct self1)])
  | None => (Structure self1 d2, t2)
  end.
Proof.
  cbn [_update]. cbv zeta.
  unfold values_accum at 1.
  erewrite (map_accum_ext _ _ [] d); [reflexivity|].
  intros t [ct b]. simpl.
  erewrite (map_accum_ext _ _ t b); [reflexivity|].
  intros t' [k m]. unfold update_if_Structure. simpl.
  destruct (isinstance_Structure m); [|done].
  by destruct (_update ask m).
Qed.

Lemma pull_update_data_iface {Et} `{EmitterLike Et} (self : Realizer Et) :
  _updater (RealizerBase._pull_update_data ask self) = _updater self
  /\ _construct (RealizerBase._pull_update_data ask self) = _construct self.
Proof.
  unfold RealizerBase._pull_update_data.
  destruct (_updater self) eqn:E; simpl; by rewrite ?E.
Qed.

Lemma update_kind (m : RealizerObj) :
  isinstance_Structure (_update ask m).1 = isinstance_Structure m.
Proof.
  destruct m as [s|s d].
  - simpl. unfold Construct_update.
    by destruct (_updater (RealizerBase._pull_update_data ask s)).
  - rewrite update_Structure_eq. cbv zeta.
    destruct (values_accum (update_if_Structure ask) [] d) as [t1 d1].
    destruct (values_accum (update_if_Construct ask) t1 d1) as [t2 d2].
    by destruct (_updater (RealizerBase._pull_update_data ask s)).
Qed.

(** The calls made for the member Structures, then those made for the
    member Constructs, then the call of the own updater. *)
Lemma update_trace_Structure (self : Realizer Cycle) (d : Registry) :
  (_update ask (Structure self d)).2 =
  flat_map (fun m => if isinstance_Structure m then (_update ask m).2 else [])
           (Struct.values d None)
  ++ flat_map (fun m => if isinstance_Construct m then (_update ask m).2 else [])
              (Struct.values d None)
  ++ own_updater_call self.
Proof.
  rewrite update_Structure_eq. cbv zeta.
  rewrite (values_accum_trace (update_if_Structure ask)
             (fun m => if isinstance_Structure m then (_update ask m).2 else [])
             (fun m => if isinstance_Structure m then (_update ask m).1 else m)).
  2:{ intros t m. unfold update_if_Structure.
      destruct (isinstance_Structure m); [|by rewrite app_nil_r].
      by destruct (_update ask m). }
  rewrite (values_accum_trace (update_if_Construct ask)
             (fun m => if isinstance_Construct m then (_update ask m).2 else [])
             (fun m => if isinstance_Construct m then (_update ask m).1 else m)).
  2:{ intros t [s|s d']; simpl; [|by rewrite app_nil_r].
      by destruct (Construct_update ask s). }
  rewrite values_values_map, app_nil_l.
  destruct (pull_update_data_iface self) as [-> ->].
  assert (flat_map (fun m => if isinstance_Construct m then (_update ask m).2 else [])
            (map (fun m => if isinstance_Structure m then (_update ask m).1 else m)
                 (Struct.values d None))
          = flat_map (fun m => if isinstance_Construct m then (_update ask m).2 else [])
                     (Struct.values d None)) as ->.
  { induction (Struct.values d None) as [|m l IH]; [done|].
    cbn [map flat_map]. rewrite IH. f_equal.
    destruct m as [s|s d']; [done|].
    cbn [isinstance_Structure isinstance_Construct].
    pose proof (update_kind (Structure s d')) as Hk.
    cbn [isinstance_Structure] in Hk.
    by destruct ((_update ask (Structure s d')).1). }
  unfold own_updater_call.
  destruct (_updater self); simpl; by rewrite <- ?app_assoc, ?app_nil_r.
Qed.
End UpdateFacts.


Section StructureClaims.

(** C1: on exit with an exception the pending realizers are not attached
    and nothing is finalised, as claimed; but the exit itself raises
    [UnboundLocalError] at [print(add_list)], before either context
    variable is reset, so the build context stays as the scope left it. *)
Theorem exit_after_exception_raises (self : Realizer Cycle) (d : Registry)
    (tok : Tokens) (e : Exception) (st st' : BuildState) :
  Build.__exit__ self d tok (Some e) st'
    = (Raise (UnboundLocalError "add_list"), Structure self d, st')
  /\ BUILD_CTX (Build.__enter__ self st).2 <> BUILD_CTX st
  /\ (let '(tok0, st0) := Build.__enter__ self (mkBuildState None None) in
      (Build.__exit__ self d tok0 (Some e) st0).2
      = mkBuildState (Some [_construct self]) (Some [])).
Proof.
  split; [done|]. split; [|done].
  unfold Build.__enter__. simpl. destruct (BUILD_CTX st) as [p|]; [|done].
  intros Heq. injection Heq as Heq. apply (f_equal length) in Heq.
  rewrite length_app in Heq. simpl in Heq. lia.
Qed.

(** C3: the check of a realizer passes exactly when the emitter's and, if
    there is one, the updater's [check_links] accept its input-link table;
    otherwise the error names the realizer's symbol and the expected
    symbols that have no link.  A Structure finalises its member
    Structures, then checks its member Constructs, then recomputes its
    output and checks itself.  Finalisation succeeds exactly when the check
    passes at every realizer of the tree, and then every realizer of the
    tree has a link for each symbol it expects; otherwise it raises the
    error of a realizer whose check fails. *)
Theorem finalize_assembly_checks_links (context : option (list Symbol))
    (c : Realizer Propagator) (self : Realizer Cycle) (d : Registry)
    (r : RealizerObj) :
  (links_ok c = true <->
     check_links (prop_emitter (_emitter c)) (_inputs c) = true
     /\ forall u, _updater c = Some u -> upd_check_links u (_inputs c) = true)
  /\ _finalize_assembly context (Construct c)
     = (if links_ok c then Ok (Construct c)
        else Raise (RealizerError (_construct c) context
                                  (expected_links c ∖ dom (_inputs c))))
  /\ _finalize_assembly context (Structure self d)
     = (d1 ← values_mapM (finalize_if_Structure context) d;
        d2 ← values_mapM (finalize_if_Construct context) d1;
        let self' := Struct.reset_output self d2 in
        RealizerBase._finalize_assembly context self';;
        Ok (Structure self' d2))
  /\ (tree_links_ok r = true ->
      _finalize_assembly context r = Ok (refresh_outputs r)
      /\ forall m, m ∈ refresh_outputs r :: all_members (refresh_outputs r) ->
                   obj_expected_links m ⊆ dom (inputs m))
  /\ (tree_links_ok r = false ->
      exists m, m ∈ r :: all_members r
                /\ obj_links_ok m = false
                /\ _finalize_assembly context r = Raise (link_error context m)).
Proof.
  split; [|split; [|split; [|split]]].
  - unfold links_ok. rewrite andb_true_iff.
    change (as_emitter (_emitter c)) with (prop_emitter (_emitter c)).
    destruct (_updater c) as [u|].
    + split.
      * intros [He Hu]. split; [done|]. by intros u' [= <-].
      * intros [He Hu]. split; [done|]. by apply Hu.
    + split; [intros [He _]; by split | intros [He _]; by split].
  - simpl. rewrite base_finalize. by destruct (links_ok c).
  - apply finalize_Structure_eq.
  - intros Hok. destruct (finalize_spec context r) as [[_ Hf]|[Hbad _]];
      [|congruence].
    split; [done|]. intros m Hm.
    assert (obj_links_ok m = true) as Hm_ok.
    { eapply tree_links_ok_members; [|exact Hm]. by rewrite tree_links_ok_refresh. }
    destruct m as [s|s d']; simpl in *; by apply links_ok_sound.
  - intros Hbad. destruct (finalize_spec context r) as [[Hok _]|[_ Hf]];
      [congruence | done].
Qed.

Lemma finalize_assembly_checks_links_witness :
  _finalize_assembly None SampleNet.wired
  = Ok (refresh_outputs SampleNet.wired)
  /\ exists m, _finalize_assembly None SampleNet.two_level
               = Raise (link_error None m).
Proof.
  destruct (finalize_assembly_checks_links None
              (RealizerBase.init 1 SampleNet.a (SampleNet.relay []) None)
              SampleNet.Agent [] SampleNet.wired)
    as (_ & _ & _ & Hok & _).
  destruct (finalize_assembly_checks_links None
              (RealizerBase.init 1 SampleNet.a (SampleNet.relay []) None)
              SampleNet.Agent [] SampleNet.two_level)
    as (_ & _ & _ & _ & Hbad).
  split.
  - apply Hok. vm_compute. reflexivity.
  - destruct Hbad as (m & _ & _ & Hm); [vm_compute; reflexivity|].
    by exists m.
Defined.

(** C5: when the members of a Structure are one Structure [cs] and one
    Construct [cc], in either order, the calls made by its [_update()] are
    those of [cs._update()], all of them, then those of [cc._update()],
    then the call of its own updater if it has one.  The calls of
    [cs._update()] are in turn those of its members followed by that of
    its own updater. *)
Theorem update_order (ask : PullFunc -> Output) (self : Realizer Cycle)
    (d : Registry) (cs cc : RealizerObj)
    (Hcs : isinstance_Structure cs = true)
    (Hcc : isinstance_Construct cc = true)
    (Hmem : Struct.values d None = [cs; cc] \/ Struct.values d None = [cc; cs]) :
  (_update ask (Structure self d)).2
    = (_update ask cs).2 ++ (_update ask cc).2 ++ own_updater_call self
  /\ (forall s' d', cs = Structure s' d' ->
        (_update ask cs).2
        = flat_map (fun m => if isinstance_Structure m then (_update ask m).2 else [])
                   (Struct.values d' None)
          ++ flat_map (fun m => if isinstance_Construct m then (_update ask m).2 else [])
                      (Struct.values d' None)
          ++ own_updater_call s').
Proof.
  split.
  - rewrite update_trace_Structure.
    destruct cs as [?|s1 d1]; [discriminate|].
    destruct cc as [s2|? ?]; [|discriminate].
    destruct Hmem as [-> | ->]; cbn [flat_map isinstance_Structure isinstance_Construct];
      by rewrite ?app_nil_r, ?app_nil_l, <- ?app_assoc.
  - intros s' d' ->. apply update_trace_Structure.
Qed.

Lemma update_order_witness :
  (_update (fun _ => TrieOut []) SampleNet.two_level).2
  = [PropagatorUpdate SampleNet.b; PropagatorUpdate SampleNet.a;
     UpdaterCall SampleNet.agent].
Proof.
  pose proof (update_order (fun _ => TrieOut []) SampleNet.Agent
    [(SampleNet.ct_subsystem,
      [(SampleNet.sub,
        Structure SampleNet.Sub [(SampleNet.ct_node, [(SampleNet.b, SampleNet.B)])])]);
     (SampleNet.ct_node, [(SampleNet.a, SampleNet.A)])]
    (Structure SampleNet.Sub [(SampleNet.ct_node, [(SampleNet.b, SampleNet.B)])])
    SampleNet.A eq_refl eq_refl (or_introl eq_refl)) as [H _].
  etransitivity; [exact H|]. vm_compute. reflexivity.
Defined.

End StructureClaims.


(* ===================================================================== *)
(** ** Realizers: the registry and link wiring *)
(* ===================================================================== *)

Section RegistryFacts.
Implicit Types (d : Registry) (r m : RealizerObj) (s c : Symbol).

Lemma offer_construct r s f : construct (_offer r s f) = construct r.
Proof. destruct r; simpl; apply base_offer_construct. Qed.

Lemma offer_view r s f : view (_offer r s f) = view r.
Proof.
  destruct r; simpl; unfold RealizerBase.view; by rewrite base_offer_oid.
Qed.

Lemma offer_iface r s f : iface (_offer r s f) = iface r.
Proof.
  destruct r as [self|self d]; simpl; unfold RealizerBase._offer;
    by destruct (RealizerBase._accepts self s).
Qed.

Lemma accepts_iface r s : _accepts r s = iface_accepts (iface r) s.
Proof. by destruct r. Qed.

Lemma offer_keys r s f :
  dom (inputs (_offer r s f)) =
  if iface_accepts (iface r) s then {[s]} ∪ dom (inputs r) else dom (inputs r).
Proof.
  rewrite <- accepts_iface.
  assert (inputs (_offer r s f)
          = if _accepts r s then <[s := f]> (inputs r) else inputs r) as ->.
  { destruct r; simpl; apply base_offer_inputs. }
  destruct (_accepts r s); [|done]. by rewrite dom_insert_L.
Qed.

(** [getitem] and [setitem] *)

Lemma getitem_setitem_eq d c r : Struct.getitem (Links.setitem d c r) c = Ok r.
Proof.
  unfold Struct.getitem, Links.setitem.
  by rewrite !dict_get_set_eq.
Qed.

Lemma getitem_setitem_ne d c r s :
  s ≠ c -> Struct.getitem (Links.setitem d c r) s = Struct.getitem d s.
Proof.
  intros Hne. unfold Struct.getitem, Links.setitem.
  destruct (decide (ctype c = ctype s)) as [Heq|Hct].
  - rewrite <- Heq. rewrite dict_get_set_eq.
    rewrite dict_get_set_ne by done.
    destruct (dict_get (ctype c) d) as [b|]; done.
  - by rewrite dict_get_set_ne.
Qed.

Lemma dict_get_map_values {K V W} `{EqDecision K} (f : K * V -> W)
    (b : list (K * V)) (k : K) :
  dict_get k (map (fun kv => (kv.1, f kv)) b)
  = (fun v => f (k, v)) <$> dict_get k b.
Proof.
  induction b as [|[k0 v0] b IH]; simpl; [done|].
  destruct (decide (k = k0)) as [->|]; done.
Qed.

Lemma getitem_values_map (f : RealizerObj -> RealizerObj) d s :
  Struct.getitem (values_map f d) s =
  match Struct.getitem d s with
  | Ok m => Ok (f m)
  | Raise e => Raise e
  end.
Proof.
  unfold Struct.getitem, values_map.
  rewrite (dict_get_map_values
             (fun ctb => map (fun km => (km.1, f km.2)) ctb.2) d (ctype s)).
  destruct (dict_get (ctype s) d) as [b|]; simpl; [|done].
  rewrite (dict_get_map_values (fun km => f km.2) b s).
  by destruct (dict_get s b).
Qed.
End RegistryFacts.


Section LinkFacts.
Implicit Types (d : Registry) (r m t : RealizerObj) (s c : Symbol).

Lemma link_step_eq t m : Links.link_step t m = (absorb t m, offer_from t m).
Proof.
  unfold Links.link_step, absorb, offer_from.
  by destruct (decide (construct t ≠ construct m)).
Qed.

Lemma absorb_construct t m : construct (absorb t m) = construct t.
Proof. unfold absorb. case_decide; [apply offer_construct | done]. Qed.

Lemma absorb_view t m : view (absorb t m) = view t.
Proof. unfold absorb. case_decide; [apply offer_view | done]. Qed.

Lemma absorb_iface t m : iface (absorb t m) = iface t.
Proof. unfold absorb. case_decide; [apply offer_iface | done]. Qed.

Lemma offer_from_ext t t' m :
  construct t' = construct t -> view t' = view t ->
  offer_from t' m = offer_from t m.
Proof. intros Hc Hv. unfold offer_from. by rewrite Hc, Hv. Qed.

Lemma offer_from_construct t m : construct (offer_from t m) = construct m.
Proof. unfold offer_from. case_decide; [apply offer_construct | done]. Qed.

Lemma bucket_accum_link t0 (b : list (Symbol * RealizerObj)) t :
  construct t = construct t0 -> view t = view t0 ->
  map_accum (fun a km => let '(a', m') := Links.link_step a km.2 in
                         (a', (km.1, m'))) t b
  = (foldl absorb t (map snd b),
     map (fun km => (km.1, offer_from t0 km.2)) b).
Proof.
  revert t. induction b as [|[k m] b IH]; intros t Hc Hv; simpl; [done|].
  rewrite link_step_eq. rewrite IH.
  - by rewrite (offer_from_ext t0 t m).
  - by rewrite absorb_construct.
  - by rewrite absorb_view.
Qed.

Lemma fold_absorb_inv t l :
  construct (foldl absorb t l) = construct t
  /\ view (foldl absorb t l) = view t
  /\ iface (foldl absorb t l) = iface t.
Proof.
  revert t. induction l as [|m l IH]; intros t; simpl; [done|].
  destruct (IH (absorb t m)) as (-> & -> & ->).
  by rewrite absorb_construct, absorb_view, absorb_iface.
Qed.

Lemma values_accum_link t0 d t :
  construct t = construct t0 -> view t = view t0 ->
  values_accum Links.link_step t d
  = (foldl absorb t (Struct.values d None), values_map (offer_from t0) d).
Proof.
  unfold values_accum, values_map. rewrite values_flat.
  revert t. induction d as [|[ct b] d IH]; intros t Hc Hv; simpl; [done|].
  rewrite (bucket_accum_link t0 b t Hc Hv).
  destruct (fold_absorb_inv t (map snd b)) as (Hc' & Hv' & _).
  rewrite IH by congruence. by rewrite foldl_app.
Qed.

Lemma fold_absorb_keys t l x :
  x ∈ dom (inputs (foldl absorb t l)) <->
  x ∈ dom (inputs t)
  \/ (x ∈ map construct l /\ x ≠ construct t
      /\ iface_accepts (iface t) x = true).
Proof.
  revert t. induction l as [|m l IH]; intros t; simpl.
  - split; [by left | intros [?|[Hin _]]; [done | inversion Hin]].
  - rewrite IH, absorb_construct, absorb_iface. clear IH.
    unfold absorb. destruct (decide (construct t ≠ construct m)) as [Hne|Heq].
    + rewrite offer_keys.
      destruct (iface_accepts (iface t) (construct m)) eqn:Hacc.
      * rewrite elem_of_union, elem_of_singleton, elem_of_cons.
        split; [|naive_solver].
        intros [[->|?]|?]; [right | by left | right]; naive_solver.
      * rewrite elem_of_cons. split; [naive_solver|].
        intros [?|[[->|?] [? ?]]]; [by left | congruence | naive_solver].
    + apply dec_stable in Heq. rewrite elem_of_cons.
      split; [naive_solver|].
      intros [?|[[->|?] [? ?]]]; [by left | congruence | naive_solver].
Qed.
End LinkFacts.


Section WellFormedFacts.
Implicit Types (d : Registry) (r m t : RealizerObj) (s c : Symbol).

Lemma wf_registry_spec d :
  wf_registry d = true <->
  NoDup (dict_keys d)
  /\ forall ct b, (ct, b) ∈ d ->
       NoDup (dict_keys b)
       /\ forall k m, (k, m) ∈ b -> k = construct m /\ ctype k = ct.
Proof.
  unfold wf_registry, wf_bucket.
  rewrite andb_true_iff, bool_decide_eq_true, forallb_forall.
  split; intros [Hnd Hall]; (split; [done|]).
  - intros ct b Hb. apply list_elem_of_In in Hb. specialize (Hall _ Hb).
    simpl in Hall. apply andb_true_iff in Hall as [Hndb Hent].
    apply bool_decide_eq_true in Hndb. split; [done|].
    intros k m Hkm. rewrite forallb_forall in Hent.
    apply list_elem_of_In in Hkm. specialize (Hent _ Hkm). simpl in Hent.
    apply andb_true_iff in Hent as [H1 H2].
    by apply bool_decide_eq_true in H1, H2.
  - intros [ct b] Hb. apply list_elem_of_In in Hb.
    destruct (Hall ct b Hb) as [Hndb Hent]. simpl.
    apply andb_true_iff. split; [by apply bool_decide_eq_true|].
    apply forallb_forall. intros [k m] Hkm. apply list_elem_of_In in Hkm.
    destruct (Hent k m Hkm) as [H1 H2]. simpl.
    apply andb_true_iff. split; by apply bool_decide_eq_true.
Qed.

Lemma getitem_elem d s m :
  Struct.getitem d s = Ok m ->
  exists b, (ctype s, b) ∈ d /\ (s, m) ∈ b.
Proof.
  unfold Struct.getitem.
  destruct (dict_get (ctype s) d) as [b|] eqn:Hb; [|done].
  destruct (dict_get s b) as [m'|] eqn:Hm; [|done].
  intros [= ->]. exists b. split; by apply dict_get_elem.
Qed.

Lemma getitem_construct d s m :
  wf_registry d = true -> Struct.getitem d s = Ok m -> construct m = s.
Proof.
  intros [_ Hwf]%wf_registry_spec (b & Hb & Hm)%getitem_elem.
  destruct (Hwf _ _ Hb) as [_ Hent]. by destruct (Hent _ _ Hm) as [-> _].
Qed.

Lemma registered_iff d x :
  wf_registry d = true ->
  x ∈ map construct (Struct.values d None) <->
  exists m, Struct.getitem d x = Ok m.
Proof.
  intros [Hnd Hwf]%wf_registry_spec. split.
  - intros (m & -> & Hm)%list_elem_of_fmap.
    apply elem_of_values in Hm as ([ct b] & [k m'] & Hb & Hkm & ->).
    simpl in *. destruct (Hwf _ _ Hb) as [Hndb Hent].
    destruct (Hent _ _ Hkm) as [-> Hct]. exists m'.
    unfold Struct.getitem. rewrite Hct.
    rewrite (dict_get_NoDup _ _ _ Hnd Hb).
    by rewrite (dict_get_NoDup _ _ _ Hndb Hkm).
  - intros [m Hm]. pose proof Hm as (b & Hb & Hkm)%getitem_elem.
    destruct (Hwf _ _ Hb) as [_ Hent]. destruct (Hent _ _ Hkm) as [Hx _].
    apply list_elem_of_fmap. exists m. split; [done|].
    apply elem_of_values. by exists (ctype x, b), (x, m).
Qed.

Lemma wf_setitem d r :
  wf_registry d = true ->
  wf_registry (Links.setitem d (construct r) r) = true.
Proof.
  intros [Hnd Hwf]%wf_registry_spec. apply wf_registry_spec.
  unfold Links.setitem. split; [by apply dict_set_NoDup|].
  assert (NoDup (dict_keys (match dict_get (ctype (construct r)) d with
                            | Some b => b | None => [] end))
          /\ forall k m, (k, m) ∈ match dict_get (ctype (construct r)) d with
                                   | Some b => b | None => [] end ->
                         k = construct m /\ ctype k = ctype (construct r))
    as [Hnd0 Hent0].
  { destruct (dict_get (ctype (construct r)) d) as [b|] eqn:Hb.
    - apply dict_get_elem in Hb. by apply Hwf.
    - split; [apply NoDup_nil_2 | intros k m Hin; inversion Hin]. }
  intros ct b Hb. apply dict_set_elem in Hb as [[= -> ->]|Hb]; [|by apply Hwf].
  split; [by apply dict_set_NoDup|].
  intros k m Hkm. apply dict_set_elem in Hkm as [[= -> ->]|Hkm];
    [done | by apply Hent0].
Qed.

Lemma wf_values_map (f : RealizerObj -> RealizerObj) d :
  (forall m, construct (f m) = construct m) ->
  wf_registry d = true -> wf_registry (values_map f d) = true.
Proof.
  intros Hf [Hnd Hwf]%wf_registry_spec. apply wf_registry_spec.
  unfold values_map. split.
  - unfold dict_keys in *. by rewrite map_map.
  - intros ct b Hb. apply list_elem_of_fmap in Hb as ([ct' b'] & [= -> ->] & Hb).
    destruct (Hwf _ _ Hb) as [Hndb Hent]. simpl. split.
    + unfold dict_keys in *. by rewrite map_map.
    + intros k m Hkm.
      apply list_elem_of_fmap in Hkm as ([k' m'] & [= -> ->] & Hkm).
      simpl. rewrite Hf. by apply Hent.
Qed.

Lemma wf_store d c t :
  construct t = c -> wf_registry d = true ->
  wf_registry (Links.setitem d c t) = true.
Proof. intros <-. apply wf_setitem. Qed.
End WellFormedFacts.


Section AddFacts.
Implicit Types (d : Registry) (r m t : RealizerObj) (s c x : Symbol).

Lemma keyview_member_keys d d' s i i' (P P' : Symbol -> Prop) :
  keyview d s i P -> keyview d' s i' P' -> (forall x, P x <-> P' x) ->
  member_keys d s = member_keys d' s.
Proof.
  intros (m & Hm & _ & HP) (m' & Hm' & _ & HP') HPP'.
  unfold member_keys. rewrite Hm, Hm'. f_equal.
  apply set_eq. intros x. by rewrite HP, HP', HPP'.
Qed.

Lemma add_single d r :
  Links._add d [r]
  = Ok (Links.setitem
          (values_map (offer_from r) (Links.setitem d (construct r) r))
          (construct r)
          (foldl absorb r
                 (Struct.values (Links.setitem d (construct r) r) None))).
Proof.
  cbn [Links._add]. unfold Links._update_links.
  rewrite getitem_setitem_eq. cbn [mbind Result_bind].
  by rewrite (values_accum_link r _ r).
Qed.

Lemma add_one_spec d r :
  wf_registry d = true ->
  exists d',
    Links._add d [r] = Ok d'
    /\ wf_registry d' = true
    /\ (forall x, (exists m, Struct.getitem d' x = Ok m) <->
                  x = construct r \/ exists m, Struct.getitem d x = Ok m)
    /\ keyview d' (construct r) (iface r)
         (fun x => x ∈ dom (inputs r)
                   \/ ((exists m, Struct.getitem d x = Ok m)
                       /\ x ≠ construct r
                       /\ iface_accepts (iface r) x = true))
    /\ (forall s i P, s ≠ construct r -> keyview d s i P ->
          keyview d' s i
            (fun x => P x \/ (x = construct r
                              /\ iface_accepts i (construct r) = true))).
Proof.
  intros Hwf. set (c := construct r).
  set (d0 := Links.setitem d c r).
  assert (wf_registry d0 = true) as Hwf0 by by apply wf_setitem.
  set (t := foldl absorb r (Struct.values d0 None)).
  destruct (fold_absorb_inv r (Struct.values d0 None)) as (Htc & Htv & Hti).
  fold t in Htc, Htv, Hti.
  set (d1 := values_map (offer_from r) d0).
  exists (Links.setitem d1 c t).
  assert (forall x, (exists m, Struct.getitem d0 x = Ok m) <->
                    x = c \/ exists m, Struct.getitem d x = Ok m) as Hreg0.
  { intros x. unfold d0. destruct (decide (x = c)) as [->|Hne].
    - rewrite getitem_setitem_eq. split; [by left | by exists r].
    - rewrite getitem_setitem_ne by done. split; [by right | by intros [?|?]]. }
  split; [|split; [|split; [|split]]].
  - apply add_single.
  - apply wf_store; [done|]. apply wf_values_map; [|done].
    intros m. apply offer_from_construct.
  - intros x. destruct (decide (x = c)) as [->|Hne].
    + rewrite getitem_setitem_eq. split; [by left | by exists t].
    + rewrite getitem_setitem_ne by done. unfold d1.
      rewrite getitem_values_map, <- Hreg0.
      destruct (Struct.getitem d0 x) as [m|e].
      * split; intros _; by eexists.
      * split; intros [m Hm]; discriminate.
  - exists t. split; [apply getitem_setitem_eq|]. split; [done|].
    intros x. unfold t. rewrite fold_absorb_keys.
    rewrite (registered_iff d0 x Hwf0), Hreg0. fold c. naive_solver.
  - intros s i P Hne (m & Hm & Hi & HP).
    exists (_offer m c (view r)).
    split; [|split].
    + rewrite getitem_setitem_ne by done. unfold d1.
      rewrite getitem_values_map. unfold d0.
      rewrite getitem_setitem_ne by done. rewrite Hm.
      unfold offer_from. rewrite decide_True; [done|].
      rewrite (getitem_construct d s m Hwf Hm). by fold c.
    + by rewrite offer_iface.
    + intros x. rewrite offer_keys, Hi.
      destruct (iface_accepts i c) eqn:Hacc.
      * rewrite elem_of_union, elem_of_singleton, HP. naive_solver.
      * rewrite HP. naive_solver.
Qed.

Lemma add_one_absent d d' r s :
  Links._add d [r] = Ok d' -> s ≠ construct r ->
  member_keys d s = None -> member_keys d' s = None.
Proof.
  rewrite add_single. intros [= <-] Hne. unfold member_keys.
  rewrite getitem_setitem_ne by done. rewrite getitem_values_map.
  rewrite getitem_setitem_ne by done.
  by destruct (Struct.getitem d s).
Qed.

Lemma add_cons d r rest d1 :
  Links._add d [r] = Ok d1 -> Links._add d (r :: rest) = Links._add d1 rest.
Proof.
  cbn [Links._add].
  destruct (Links._update_links _ _) as [d'|e]; cbn [mbind Result_bind];
    [|done].
  by intros [= ->].
Qed.
End AddFacts.


Section LinkClaims.

(** C4: let the registry of a Structure be well formed and let [A] and [B]
    accept each other's symbols.  Adding [A] then [B] and adding [B] then
    [A] both succeed and leave the same keys in the table of the
    Structure and in the table of every member found under the same
    symbol, [A] and [B] included.  When [A] and [B] carry the same symbol
    the later one replaces the earlier one; the table of each has the same
    keys when it was added first, at the moment it is replaced, as when it
    was added last. *)
Theorem add_order_independent (self : Realizer Cycle) (d : Registry)
    (A B : RealizerObj)
    (Hwf : wf_registry d = true)
    (HAB : _accepts A (construct B) = true)
    (HBA : _accepts B (construct A) = true) :
  exists dA dB dAB dBA,
    Links._add d [A] = Ok dA /\ Links._add d [B] = Ok dB
    /\ Links._add d [A; B] = Ok dAB /\ Links._add d [B; A] = Ok dBA
    /\ dom (inputs (Structure self dAB)) = dom (inputs (Structure self dBA))
    /\ (forall s, construct A ≠ construct B \/ s ≠ construct A ->
                  member_keys dAB s = member_keys dBA s)
    /\ (construct A ≠ construct B ->
        is_Some (member_keys dAB (construct A))
        /\ is_Some (member_keys dAB (construct B)))
    /\ (construct A = construct B ->
        member_keys dA (construct A) = member_keys dBA (construct A)
        /\ member_keys dB (construct B) = member_keys dAB (construct B)).
Proof.
  destruct (add_one_spec d A Hwf) as (dA & HdA & HwfA & HregA & HkA & HoA).
  destruct (add_one_spec d B Hwf) as (dB & HdB & HwfB & HregB & HkB & HoB).
  destruct (add_one_spec dA B HwfA) as (dAB & HdAB & _ & HregAB & HkAB & HoAB).
  destruct (add_one_spec dB A HwfB) as (dBA & HdBA & _ & HregBA & HkBA & HoBA).
  exists dA, dB, dAB, dBA.
  split; [done|]. split; [done|].
  split; [by rewrite (add_cons d A [B] dA)|].
  split; [by rewrite (add_cons d B [A] dB)|].
  split; [done|].
  split; [|split].
  - intros s Hs.
    destruct (decide (s = construct A)) as [->|HsA].
    { destruct Hs as [Hne|?]; [|done].
      eapply keyview_member_keys; [by apply HoAB | exact HkBA|].
      intros x. cbn beta. rewrite (HregB x). naive_solver. }
    destruct (decide (s = construct B)) as [->|HsB].
    { eapply keyview_member_keys; [exact HkAB | by apply HoBA|].
      intros x. cbn beta. rewrite (HregA x). naive_solver. }
    destruct (Struct.getitem d s) as [m|e] eqn:Hm.
    + assert (keyview d s (iface m) (fun x => x ∈ dom (inputs m))) as Hv.
      { by exists m. }
      eapply keyview_member_keys;
        [apply HoAB, HoA, Hv; done | apply HoBA, HoB, Hv; done|].
      intros x. cbn beta. naive_solver.
    + assert (member_keys d s = None) as Hn.
      { unfold member_keys. by rewrite Hm. }
      rewrite (add_one_absent dA dAB B s HdAB HsB
                 (add_one_absent d dA A s HdA HsA Hn)).
      by rewrite (add_one_absent dB dBA A s HdBA HsA
                    (add_one_absent d dB B s HdB HsB Hn)).
  - intros Hne. split.
    + destruct (HoAB _ _ _ Hne HkA) as (m & Hm & _).
      unfold member_keys. rewrite Hm. by eexists.
    + destruct HkAB as (m & Hm & _).
      unfold member_keys. rewrite Hm. by eexists.
  - intros Heq. split.
    + eapply keyview_member_keys; [exact HkA | exact HkBA|].
      intros x. cbn beta. rewrite (HregB x). rewrite <- Heq. naive_solver.
    + eapply keyview_member_keys; [exact HkB | exact HkAB|].
      intros x. cbn beta. rewrite (HregA x). rewrite Heq. naive_solver.
Qed.
End LinkClaims.


Section AddClaims.

Lemma add_preserves_wf (d d' : Registry) (rs : list RealizerObj) :
  wf_registry d = true -> Links._add d rs = Ok d' -> wf_registry d' = true.
Proof.
  revert d. induction rs as [|r rs IH]; intros d Hwf.
  - by intros [= <-].
  - destruct (add_one_spec d r Hwf) as (d1 & Hd1 & Hwf1 & _).
    rewrite (add_cons d r rs d1 Hd1). by apply IH.
Qed.

Lemma add_order_independent_witness :
  exists dAB dBA,
    Links._add [] [SampleNet.A; SampleNet.B] = Ok dAB
    /\ Links._add [] [SampleNet.B; SampleNet.A] = Ok dBA
    /\ member_keys dAB SampleNet.a = member_keys dBA SampleNet.a
    /\ member_keys dAB SampleNet.b = member_keys dBA SampleNet.b.
Proof.
  destruct (add_order_independent SampleNet.Agent [] SampleNet.A SampleNet.B)
    as (dA & dB & dAB & dBA & _ & _ & HAB & HBA & _ & Hkeys & _).
  - reflexivity.
  - vm_compute. reflexivity.
  - vm_compute. reflexivity.
  - exists dAB, dBA. split; [exact HAB|]. split; [exact HBA|].
    split; apply Hkeys; left; discriminate.
Defined.

Example add_links_both_ways :
  match Links._add [] [SampleNet.A; SampleNet.B] with
  | Ok d => member_keys d SampleNet.a = Some {[SampleNet.b]}
            /\ member_keys d SampleNet.b = Some {[SampleNet.a]}
  | Raise _ => False
  end.
Proof. vm_compute. split; reflexivity. Qed.
End AddClaims.


(* ===================================================================== *)
(** ** More on dictionaries *)
(* ===================================================================== *)

Section PyDictDelete.
Context {K V : Type} `{EqDecision K}.
Implicit Types (k : K) (v : V) (d : list (K * V)).

Lemma dict_del_None k d : dict_contains k d = false -> dict_del k d = None.
Proof.
  unfold dict_contains. induction d as [|[k' v'] d IH]; simpl; [done|].
  destruct (decide (k = k')); [done|]. intros Hc. by rewrite IH.
Qed.

Lemma dict_get_del_ne k k' d d' :
  dict_del k d = Some d' -> k' ≠ k -> dict_get k' d' = dict_get k' d.
Proof.
  revert d'. induction d as [|[k0 v0] d IH]; simpl; intros d' Hdel Hne; [done|].
  destruct (decide (k = k0)) as [->|Hne0].
  - injection Hdel as <-. by rewrite decide_False.
  - destruct (dict_del k d) as [d''|]; [|done]. injection Hdel as <-.
    simpl. destruct (decide (k' = k0)); [done | by apply IH].
Qed.

Lemma dict_get_del_eq k d d' :
  NoDup (dict_keys d) -> dict_del k d = Some d' -> dict_get k d' = None.
Proof.
  unfold dict_keys. revert d'.
  induction d as [|[k0 v0] d IH]; simpl; intros d' Hnd Hdel; [done|].
  apply NoDup_cons in Hnd as [Hk0 Hnd].
  destruct (decide (k = k0)) as [->|Hne0].
  - injection Hdel as <-. by apply dict_get_None.
  - destruct (dict_del k d) as [d''|]; [|done]. injection Hdel as <-.
    simpl. rewrite decide_False by done. by apply IH.
Qed.

Lemma dict_del_length k d d' :
  dict_del k d = Some d' -> length d = S (length d').
Proof.
  revert d'. induction d as [|[k0 v0] d IH]; simpl; intros d' Hdel; [done|].
  destruct (decide (k = k0)) as [->|Hne0].
  - by injection Hdel as <-.
  - destruct (dict_del k d) as [d''|]; [|done]. injection Hdel as <-.
    simpl. by rewrite (IH d'').
Qed.

Lemma dict_del_NoDup k d d' :
  NoDup (dict_keys d) -> dict_del k d = Some d' -> NoDup (dict_keys d').
Proof.
  unfold dict_keys. revert d'.
  induction d as [|[k0 v0] d IH]; simpl; intros d' Hnd Hdel; [done|].
  apply NoDup_cons in Hnd as [Hk0 Hnd].
  destruct (decide (k = k0)) as [->|Hne0].
  - by injection Hdel as <-.
  - destruct (dict_del k d) as [d''|] eqn:E; [|done]. injection Hdel as <-.
    simpl. apply NoDup_cons. split; [|by apply IH].
    intros Hin. apply Hk0.
    apply list_elem_of_fmap in Hin as ([k1 v1] & -> & Hin). simpl.
    destruct (decide (k1 = k)) as [->|Hne1].
    + assert (dict_get k d'' = None) as Hn by by eapply dict_get_del_eq.
      apply dict_get_None in Hn. exfalso. apply Hn.
      apply list_elem_of_fmap. by exists (k, v1).
    + assert (dict_get k1 d = dict_get k1 d'') as Hg.
      { symmetry. by eapply dict_get_del_ne. }
      destruct (dict_get k1 d) as [v|] eqn:Hd.
      * apply dict_get_elem in Hd. apply list_elem_of_fmap. by exists (k1, v).
      * symmetry in Hg. apply dict_get_None in Hg. exfalso. apply Hg.
        apply list_elem_of_fmap. by exists (k1, v1).
Qed.

Lemma dict_set_length k v d :
  length (dict_set k v d)
  = if dict_contains k d then length d else S (length d).
Proof.
  unfold dict_contains. induction d as [|[k0 v0] d IH]; simpl; [done|].
  destruct (decide (k = k0)); simpl; [done|].
  rewrite IH. by destruct (dict_get k d).
Qed.
End PyDictDelete.


(* ===================================================================== *)
(** ** More on rule databases *)
(* ===================================================================== *)

Section DatabaseFrame.
Import Rules RulesSpec RulesAPI.

Lemma set_data_id (self : Rules) : set_data self (_data self) = self.
Proof. by destruct self. Qed.

Lemma set_data_twice (self : Rules) d d' :
  set_data (set_data self d) d' = set_data self d'.
Proof. done. Qed.

Lemma setitem_frame (key : rule) (val : Value) (self : Rules) :
  exists d', (__setitem__ key val self).2 = set_data self d'.
Proof.
  unfold __setitem__, _validate_rule_form, gets, modify, raise, mbind, M_bind,
    mret, M_ret.
  destruct (max_conds self) as [n|].
  - destruct (len_weights val) as [l|]; [|exists (_data self); by rewrite set_data_id].
    destruct (n <? l)%nat; [exists (_data self); by rewrite set_data_id|].
    destruct (isinstance val (Rule_type self)); [by eexists|].
    exists (_data self). by rewrite set_data_id.
  - destruct (isinstance val (Rule_type self)); [by eexists|].
    exists (_data self). by rewrite set_data_id.
Qed.

Lemma delitem_frame (key : rule) (self : Rules) :
  exists d', (__delitem__ key self).2 = set_data self d'.
Proof.
  unfold __delitem__, gets, modify, raise, mbind, M_bind.
  destruct (dict_del key (_data self)) as [d'|]; [by eexists|].
  exists (_data self). by rewrite set_data_id.
Qed.

Lemma for_each_frame {A} (body : A -> M unit) (l : list A) (self : Rules) :
  (forall a s, exists d', (body a s).2 = set_data s d') ->
  exists d', (for_each l body self).2 = set_data self d'.
Proof.
  intros Hbody. revert self. induction l as [|a l IH]; intros self; simpl.
  - exists (_data self). by rewrite set_data_id.
  - unfold mbind, M_bind. destruct (Hbody a self) as [d1 H1].
    destruct (body a self) as [[[]|e] s1]; simpl in H1; subst s1.
    + destruct (IH (set_data self d1)) as [d2 H2]. exists d2.
      by rewrite H2.
    + by exists d1.
Qed.

Lemma step_unfold (self : Rules) :
  step self =
  match for_each (_del_promises self) __delitem__ self with
  | (Raise e, s1) => (Raise e, s1)
  | (Ok _, s1) =>
      match update (_add_promises s1) (set_del_promises s1 []) with
      | (Raise e, s3) => (Raise e, s3)
      | (Ok _, s3) => (Ok tt, set_add_promises s3 [])
      end
  end.
Proof.
  unfold step, gets, modify, mbind, M_bind.
  destruct (for_each (_del_promises self) __delitem__ self) as [[[]|e] s1];
    [|done].
  simpl. by destruct (update _ _) as [[[]|e] s3].
Qed.

Lemma delete_all_get_out (dels : list rule) d d' (k : rule) :
  delete_all dels d = Some d' -> k ∉ dels -> dict_get k d' = dict_get k d.
Proof.
  revert d. induction dels as [|r dels IH]; simpl; intros d Hd Hk.
  - by injection Hd as <-.
  - destruct (dict_del r d) as [d1|] eqn:E; [|done].
    rewrite (IH d1 Hd); [|set_solver].
    eapply dict_get_del_ne; [done|]. set_solver.
Qed.

Lemma delete_all_get_in (dels : list rule) d d' (k : rule) :
  NoDup (dict_keys d) -> delete_all dels d = Some d' -> k ∈ dels ->
  dict_get k d' = None.
Proof.
  revert d. induction dels as [|r dels IH]; simpl; intros d Hnd Hd Hk.
  - inversion Hk.
  - destruct (dict_del r d) as [d1|] eqn:E; [|done].
    destruct (decide (k ∈ dels)) as [Hin|Hout].
    + eapply IH; [|done..]. by eapply dict_del_NoDup.
    + assert (k = r) as -> by set_solver.
      rewrite (delete_all_get_out dels d1 d' r Hd Hout).
      by eapply dict_get_del_eq.
Qed.

Lemma install_all_get_out (t : PyClass) adds d (k : rule) :
  k ∉ dict_keys adds -> dict_get k (install_all t adds d) = dict_get k d.
Proof.
  unfold install_all, dict_keys. revert d.
  induction adds as [|[k0 v0] adds IH]; simpl; intros d Hk; [done|].
  rewrite IH by set_solver.
  destruct (isinstance v0 t); [|done].
  apply dict_get_set_ne. set_solver.
Qed.

Lemma setitem_rejects (key : rule) (val : Value) (self : Rules) :
  within_max_conds (max_conds self) val = false ->
  exists e, __setitem__ key val self = (Raise e, self).
Proof.
  unfold __setitem__, _validate_rule_form, gets, raise, mbind, M_bind,
    within_max_conds.
  destruct (max_conds self) as [n|]; [|done].
  destruct (len_weights val) as [l|]; [|by eexists].
  destruct (n <? l)%nat; [by eexists | done].
Qed.

Lemma update_fails_at (l1 l2 : list (rule * Value)) (k : rule) (v : Value)
    (self : Rules) :
  forallb (within_max_conds (max_conds self)) (dict_values l1) = true ->
  within_max_conds (max_conds self) v = false ->
  exists e,
    update (l1 ++ (k, v) :: l2) self
    = (Raise e, set_data self (install_all (Rule_type self) l1 (_data self))).
Proof.
  unfold update. revert self.
  induction l1 as [|[k1 v1] l1 IH]; intros self Hl1 Hv.
  - destruct (setitem_rejects k v self Hv) as [e He]. exists e.
    simpl. unfold mbind, M_bind. rewrite He. by rewrite set_data_id.
  - simpl in Hl1. apply andb_true_iff in Hl1 as [Hv1 Hl1].
    simpl. unfold mbind at 1, M_bind at 1.
    rewrite setitem_within by done.
    destruct (isinstance v1 (Rule_type self)) eqn:Hi.
    + destruct (IH (set_data self (dict_set k1 v1 (_data self)))) as [e He];
        [done..|].
      exists e. rewrite He. unfold install_all. simpl. by rewrite ?Hi.
    + destruct (IH self) as [e He]; [done..|].
      exists e. rewrite He. unfold install_all. simpl. by rewrite ?Hi.
Qed.
End DatabaseFrame.


Section DatabaseExtras.
Import Rules RulesSpec RulesAPI.

(** X1: storing a value that passes the [max_conds] check and has the
    configured type succeeds; the value is then read back under its key,
    every other key reads as before, the length grows by one exactly when
    the key is new, and the promises are untouched. *)
Theorem setitem_getitem (db : Rules) (key : rule) (val : Value)
    (Hcheck : within_max_conds (max_conds db) val = true)
    (Htype : isinstance val (Rule_type db) = true) :
  exists db',
    __setitem__ key val db = (Ok tt, db')
    /\ __getitem__ key db' = (Ok val, db')
    /\ (forall k, k <> key -> (__getitem__ k db').1 = (__getitem__ k db).1)
    /\ (__len__ db').1
       = Ok (if dict_contains key (_data db) then length (_data db)
             else S (length (_data db)))
    /\ _add_promises db' = _add_promises db
    /\ _del_promises db' = _del_promises db.
Proof.
  exists (set_data db (dict_set key val (_data db))).
  split; [by rewrite setitem_within, Htype|].
  split; [|split; [|split]].
  - unfold __getitem__, gets, mbind, M_bind. simpl.
    by rewrite dict_get_set_eq.
  - intros k Hk. unfold __getitem__, gets, raise, mbind, M_bind. simpl.
    rewrite dict_get_set_ne by done.
    by destruct (dict_get k (_data db)).
  - unfold __len__, gets. simpl. by rewrite dict_set_length.
  - done.
Qed.

Lemma setitem_getitem_witness :
  exists db',
    __setitem__ Samples.r (RuleObj RuleClass Samples.two_conds)
                (init None None None) = (Ok tt, db')
    /\ __getitem__ Samples.r db' = (Ok (RuleObj RuleClass Samples.two_conds), db').
Proof.
  destruct (setitem_getitem (init None None None) Samples.r
              (RuleObj RuleClass Samples.two_conds))
    as (db' & H1 & H2 & _).
  - reflexivity.
  - reflexivity.
  - by exists db'.
Defined.

(** X2: deleting a key that is not stored raises [KeyError] and changes
    nothing; deleting a stored key succeeds, after which the key is gone,
    every other key reads as before and the length has dropped by one. *)
Theorem delitem_removes (db : Rules) (key : rule)
    (Hnd : NoDup (dict_keys (_data db))) :
  if dict_contains key (_data db)
  then exists db',
      __delitem__ key db = (Ok tt, db')
      /\ __getitem__ key db' = (Raise KeyError, db')
      /\ (__contains__ key db').1 = Ok false
      /\ (forall k, k <> key -> (__getitem__ k db').1 = (__getitem__ k db).1)
      /\ S (length (_data db')) = length (_data db)
  else __delitem__ key db = (Raise KeyError, db).
Proof.
  destruct (dict_contains key (_data db)) eqn:Hc.
  - apply dict_contains_true, dict_del_Some in Hc as [d' Hd'].
    exists (set_data db d').
    assert (dict_get key d' = None) as Hgone by by eapply dict_get_del_eq.
    split; [|split; [|split; [|split]]].
    + unfold __delitem__, gets, modify, mbind, M_bind. by rewrite Hd'.
    + unfold __getitem__, gets, raise, mbind, M_bind. simpl. by rewrite Hgone.
    + unfold __contains__, gets, dict_contains. simpl. by rewrite Hgone.
    + intros k Hk. unfold __getitem__, gets, raise, mbind, M_bind. simpl.
      rewrite (dict_get_del_ne key k (_data db) d') by done.
      by destruct (dict_get k (_data db)).
    + simpl. symmetry. by eapply dict_del_length.
  - unfold __delitem__, gets, raise, mbind, M_bind.
    by rewrite dict_del_None.
Qed.

Lemma delitem_removes_witness :
  __delitem__ Samples.r (init None None None)
  = (Raise KeyError, init None None None).
Proof.
  apply (delitem_removes (init None None None) Samples.r).
  simpl. apply NoDup_nil_2.
Defined.

(** X3: [step()] is not atomic.  When the deletions can all be applied and
    the promised additions are valid up to one that fails the [max_conds]
    check, [step()] raises; the deletions are applied and forgotten, the
    additions before the failing one are stored, and all promised additions
    stay registered. *)
Theorem step_partial_failure (db : Rules) (l1 l2 : list (rule * Value))
    (k : rule) (v : Value)
    (Hadds : _add_promises db = l1 ++ (k, v) :: l2)
    (Hl1 : forallb (within_max_conds (max_conds db)) (dict_values l1) = true)
    (Hv : within_max_conds (max_conds db) v = false)
    (Hnodup : NoDup (_del_promises db))
    (Hdels : forallb (fun r' => dict_contains r' (_data db))
                     (_del_promises db) = true) :
  exists e d' db',
    step db = (Raise e, db')
    /\ delete_all (_del_promises db) (_data db) = Some d'
    /\ _data db' = install_all (Rule_type db) l1 d'
    /\ _del_promises db' = []
    /\ _add_promises db' = _add_promises db.
Proof.
  destruct (delete_promises (_del_promises db) db Hnodup) as (d' & Hd' & Hfor).
  { intros r' Hr'. apply dict_contains_true.
    rewrite forallb_forall in Hdels. apply Hdels. by apply list_elem_of_In. }
  destruct (update_fails_at l1 l2 k v (set_del_promises (set_data db d') []))
    as [e He]; [done..|].
  exists e, d', (set_del_promises (set_data db (install_all (Rule_type db) l1 d')) []).
  split; [|done].
  rewrite step_unfold, Hfor. simpl. rewrite Hadds. by rewrite He.
Qed.

Lemma step_partial_failure_witness :
  exists e db',
    step (set_add_promises Samples.single_cond_db
            [(Samples.r, RuleObj RuleClass Samples.two_conds)])
    = (Raise e, db')
    /\ _data db' = []
    /\ _add_promises db' = [(Samples.r, RuleObj RuleClass Samples.two_conds)].
Proof.
  destruct (step_partial_failure
              (set_add_promises Samples.single_cond_db
                 [(Samples.r, RuleObj RuleClass Samples.two_conds)])
              [] [] Samples.r (RuleObj RuleClass Samples.two_conds))
    as (e & d' & db' & Hstep & Hd' & Hdata & _ & Hadds).
  - reflexivity.
  - reflexivity.
  - reflexivity.
  - simpl. apply NoDup_nil_2.
  - reflexivity.
  - exists e, db'. split; [exact Hstep|]. split; [|exact Hadds].
    rewrite Hdata. simpl in Hd'. by injection Hd' as <-.
Defined.
End DatabaseExtras.


Section PromiseExtras.
Import Rules RulesSpec RulesAPI.

Lemma promises_wf_spec (self : Rules) :
  promises_wf self = true <->
  NoDup (dict_keys (_add_promises self))
  /\ NoDup (_del_promises self)
  /\ forall r, r ∈ _del_promises self ->
               dict_contains r (_add_promises self) = false.
Proof.
  unfold promises_wf.
  rewrite !andb_true_iff, !bool_decide_eq_true, forallb_forall.
  split.
  - intros [[H1 H2] H3]. split; [done|]. split; [done|].
    intros r Hr. apply list_elem_of_In in Hr. specialize (H3 r Hr).
    by apply negb_true_iff in H3.
  - intros (H1 & H2 & H3). split; [done|].
    intros r Hr. apply list_elem_of_In in Hr. apply negb_true_iff. by apply H3.
Qed.

Lemma update_frame (l : list (rule * Value)) (self : Rules) :
  exists d', (update l self).2 = set_data self d'.
Proof.
  unfold update. apply for_each_frame. intros [k v] s. apply setitem_frame.
Qed.

Lemma step_outcome (self : Rules) :
  exists d',
    (exists e, step self = (Raise e, set_data self d'))
    \/ (exists e, step self = (Raise e, set_del_promises (set_data self d') []))
    \/ (step self = (Ok tt, mkRules d' (max_conds self) (Rule_type self) [] [])).
Proof.
  rewrite step_unfold.
  destruct (for_each_frame __delitem__ (_del_promises self) self) as [d1 H1].
  { intros a s. apply delitem_frame. }
  destruct (for_each (_del_promises self) __delitem__ self) as [[[]|e] s1];
    simpl in H1; subst s1; [|exists d1; left; by exists e].
  destruct (update_frame (_add_promises (set_data self d1))
                         (set_del_promises (set_data self d1) []))
    as [d3 H3].
  destruct (update _ _) as [[[]|e] s3]; simpl in H3; subst s3; exists d3.
  - right. by right.
  - right. left. by exists e.
Qed.

(** X4: the promise bookkeeping keeps its invariant whatever the outcome of
    a call: after [request_add], [request_del] or [step], whether it
    returned or raised, no symbol is promised twice and none is promised
    both for addition and for deletion. *)
Theorem promises_wf_preserved (db : Rules) (r : rule) (form : Value)
    (Hwf : promises_wf db = true) :
  promises_wf (request_add r form db).2 = true
  /\ promises_wf (request_del r db).2 = true
  /\ promises_wf (step db).2 = true.
Proof.
  pose proof Hwf as (Hadd & Hdel & Hdisj)%promises_wf_spec.
  split; [|split].
  - unfold request_add, promised, gets, modify, raise, mbind, M_bind.
    destruct (dict_contains r (_add_promises db)
              || bool_decide (r ∈ _del_promises db)) eqn:Hp; [done|].
    apply orb_false_iff in Hp as [Hra Hrd].
    apply bool_decide_eq_false in Hrd.
    simpl. apply promises_wf_spec. simpl.
    split; [by apply dict_set_NoDup|]. split; [done|].
    intros r' Hr'. unfold dict_contains.
    rewrite dict_get_set_ne; [by apply Hdisj|]. by intros ->.
  - unfold request_del, promised, __contains__, gets, modify, raise, mbind,
      M_bind.
    destruct (dict_contains r (_add_promises db)
              || bool_decide (r ∈ _del_promises db)) eqn:Hp; [done|].
    apply orb_false_iff in Hp as [Hra Hrd].
    apply bool_decide_eq_false in Hrd.
    destruct (dict_contains r (_data db)); [|done].
    simpl. apply promises_wf_spec. simpl. split; [done|]. split.
    + apply NoDup_app. split; [done|]. split; [|apply NoDup_singleton].
      intros x Hx Hx'. apply list_elem_of_singleton in Hx'. by subst.
    + intros r' [Hr'|Hr']%elem_of_app; [by apply Hdisj|].
      apply list_elem_of_singleton in Hr'. by subst.
  - destruct (step_outcome db) as [d' [[e H]|[[e H]|H]]]; rewrite H; [done| |].
    + apply promises_wf_spec. simpl. split; [done|].
      split; [apply NoDup_nil_2|]. intros r' Hr'. inversion Hr'.
    + apply promises_wf_spec. simpl. split; [apply NoDup_nil_2|].
      split; [apply NoDup_nil_2|]. intros r' Hr'. inversion Hr'.
Qed.

Lemma promises_wf_preserved_witness :
  promises_wf (request_add Samples.r (RuleObj RuleClass Samples.two_conds)
                 (init None None None)).2 = true.
Proof.
  apply (promises_wf_preserved (init None None None) Samples.r
           (RuleObj RuleClass Samples.two_conds)).
  reflexivity.
Defined.

(** X5: for a database without repeated keys, whose pending promises can
    all be applied, [request_del(r)] of a stored rule with no pending
    promise followed by [step()] removes [r]; every rule that is in no
    promise is left as it was, and both promise sets are empty
    afterwards. *)
Theorem request_del_step_removes (db : Rules) (r : rule)
    (Hdata : NoDup (dict_keys (_data db)))
    (Hfresh : dict_contains r (_add_promises db)
              || bool_decide (r ∈ _del_promises db) = false)
    (Hin : dict_contains r (_data db) = true)
    (Hadds : forallb (within_max_conds (max_conds db))
                     (dict_values (_add_promises db)) = true)
    (Hnodup : NoDup (_del_promises db))
    (Hdels : forallb (fun r' => dict_contains r' (_data db))
                     (_del_promises db) = true) :
  exists db1 db2,
    request_del r db = (Ok tt, db1)
    /\ step db1 = (Ok tt, db2)
    /\ dict_get r (_data db2) = None
    /\ (forall k, k <> r -> k ∉ _del_promises db ->
                  k ∉ dict_keys (_add_promises db) ->
                  dict_get k (_data db2) = dict_get k (_data db))
    /\ _add_promises db2 = [] /\ _del_promises db2 = [].
Proof.
  apply orb_false_iff in Hfresh as [Hnadd Hndel].
  apply bool_decide_eq_false in Hndel.
  set (db1 := set_del_promises db (_del_promises db ++ [r])).
  destruct (delete_promises (_del_promises db1) db1) as (d' & Hd' & Hfor).
  { simpl. apply NoDup_app. split; [done|]. split; [|apply NoDup_singleton].
    intros x Hx Hx'. apply list_elem_of_singleton in Hx'. by subst. }
  { simpl. intros r' [Hr'|Hr']%elem_of_app.
    - apply dict_contains_true. rewrite forallb_forall in Hdels.
      apply Hdels. by apply list_elem_of_In.
    - apply list_elem_of_singleton in Hr' as ->. by apply dict_contains_true. }
  simpl in Hd'.
  exists db1, (mkRules (install_all (Rule_type db) (_add_promises db) d')
                       (max_conds db) (Rule_type db) [] []).
  split; [|split; [|split; [|split]]].
  - unfold request_del, promised, __contains__, gets, modify, raise, mbind,
      M_bind.
    rewrite Hnadd. rewrite bool_decide_eq_false_2 by done. simpl.
    by rewrite Hin.
  - rewrite step_unfold, Hfor. simpl.
    by rewrite update_within.
  - simpl. rewrite install_all_get_out by by apply dict_contains_false.
    eapply delete_all_get_in; [done..|]. apply elem_of_app. right. by left.
  - intros k Hk Hkd Hka. simpl. rewrite install_all_get_out by done.
    eapply delete_all_get_out; [done|].
    intros [?|?%list_elem_of_singleton]%elem_of_app; done.
  - done.
Qed.

(** X6: once [step()] has returned, a second [step()] with no request in
    between returns as well and changes nothing. *)
Theorem step_idempotent (db db' : Rules)
    (Hstep : step db = (Ok tt, db')) :
  step db' = (Ok tt, db').
Proof.
  destruct (step_outcome db) as [d' [[e H]|[[e H]|H]]];
    rewrite H in Hstep; [done | done |].
  injection Hstep as <-. by rewrite step_unfold.
Qed.

Lemma step_idempotent_witness :
  let stored := mkRules [(Samples.r, RuleObj RuleClass Samples.two_conds)]
                        None RuleClass [] [] in
  step stored = (Ok tt, stored).
Proof.
  apply (step_idempotent
           (set_add_promises (init None None None)
              [(Samples.r, RuleObj RuleClass Samples.two_conds)])).
  reflexivity.
Defined.

Lemma request_del_step_removes_witness :
  exists db1 db2,
    request_del Samples.r
      (mkRules [(Samples.r, RuleObj RuleClass Samples.two_conds)]
               None RuleClass [] []) = (Ok tt, db1)
    /\ step db1 = (Ok tt, db2)
    /\ dict_get Samples.r (_data db2) = None.
Proof.
  destruct (request_del_step_removes
              (mkRules [(Samples.r, RuleObj RuleClass Samples.two_conds)]
                       None RuleClass [] []) Samples.r)
    as (db1 & db2 & H1 & H2 & H3 & _).
  - simpl. apply NoDup_singleton.
  - reflexivity.
  - reflexivity.
  - reflexivity.
  - simpl. apply NoDup_nil_2.
  - reflexivity.
  - by exists db1, db2.
Defined.
End PromiseExtras.


Section ConstructorExtras.
Import nd Rules RulesSpec RulesAPI.
Local Open Scope float_scope.

Lemma extend_fresh (value : float) (keys : list Symbol)
    (acc : list (Symbol * float)) :
  NoDup keys -> (forall k, k ∈ keys -> k ∉ dict_keys acc) ->
  foldl (fun acc k => if dict_contains k acc then acc else acc ++ [(k, value)])
        acc keys
  = acc ++ map (fun k => (k, value)) keys.
Proof.
  revert acc. induction keys as [|k keys IH]; intros acc Hnd Hfresh; simpl.
  - by rewrite app_nil_r.
  - apply NoDup_cons in Hnd as [Hk Hnd].
    assert (dict_contains k acc = false) as ->.
    { apply dict_contains_false, Hfresh. by left. }
    rewrite IH; [by rewrite <- app_assoc | done |].
    intros k' Hk'. unfold dict_keys. rewrite map_app. simpl.
    intros [Hin|Hin]%elem_of_app.
    + apply (Hfresh k'); [by right | done].
    + apply list_elem_of_singleton in Hin. by subst.
Qed.

Lemma extend_covered (value : float) (keys : list Symbol)
    (acc : list (Symbol * float)) :
  (forall k, k ∈ keys -> k ∈ dict_keys acc) ->
  foldl (fun acc k => if dict_contains k acc then acc else acc ++ [(k, value)])
        acc keys
  = acc.
Proof.
  induction keys as [|k keys IH]; intros Hcov; simpl; [done|].
  assert (dict_contains k acc = true) as ->.
  { apply dict_contains_true, Hcov. by left. }
  apply IH. intros k' Hk'. apply Hcov. by right.
Qed.

Lemma extend_unweighted (conds : list chunk) :
  NoDup conds ->
  extend (MutableNumDict None) conds 1
  = mkNumDict (map (fun k => (k, 1)) conds) None.
Proof.
  intros Hnd. unfold extend, MutableNumDict. simpl. f_equal.
  rewrite extend_fresh; [done | done |]. intros k _ Hk. inversion Hk.
Qed.

(** X7: a rule built without weights from pairwise distinct conditions.
    With at most eight conditions the constructor returns a rule that
    stores the conditions in the order given, each with the float [1/n].
    With nine conditions it fails its own assertion: added one after the
    other, nine times the float [1/9] is more than 1. *)
Theorem Rule_init_equal_weights (conc : chunk) (conds : list chunk)
    (Hnd : NoDup conds) :
  ((length conds <= 8)%nat ->
   Rule_init conc conds None
   = Ok (mkRule conc
           (mkNumDict (map (fun k => (k, 1 / float_of_nat (length conds))) conds)
                      None)))
  /\ (length conds = 9%nat ->
      Rule_init conc conds None
      = Raise (AssertionError "Inferred weights must sum to one or less.")).
Proof.
  rewrite Rule_init_outcome. unfold stored_weights.
  rewrite extend_unweighted by done. clear Hnd.
  split; intros Hlen.
  - do 9 (destruct conds as [|? conds]; [reflexivity|]).
    simpl in Hlen. lia.
  - do 9 (destruct conds as [|? conds]; [discriminate|]).
    destruct conds; [reflexivity | discriminate].
Qed.

Lemma Rule_init_equal_weights_witness :
  Rule_init Samples.c [Samples.x; Samples.y] None
  = Ok (mkRule Samples.c (mkNumDict [(Samples.x, 0.5); (Samples.y, 0.5)] None))
  /\ Rule_init Samples.c Samples.nine_conds None
     = Raise (AssertionError "Inferred weights must sum to one or less.").
Proof.
  split.
  - apply (Rule_init_equal_weights Samples.c [Samples.x; Samples.y]).
    + apply (bool_decide_unpack (NoDup [Samples.x; Samples.y])).
      vm_compute. exact I.
    + simpl. lia.
  - apply (Rule_init_equal_weights Samples.c Samples.nine_conds).
    + apply (bool_decide_unpack (NoDup Samples.nine_conds)).
      vm_compute. exact I.
    + reflexivity.
Defined.

(** X8: weights that are given for exactly the conditions and sum to at
    most 1 are stored as they are given, whatever their signs. *)
Theorem Rule_init_keeps_normalised (conc : chunk) (conds : list chunk)
    (w : list (chunk * float))
    (Hkeys : issuperset conds (dict_keys w) = true)
    (Hcov : issuperset (dict_keys w) conds = true)
    (Hsum : (val_sum (mkNumDict w None) <=? 1) = true) :
  Rule_init conc conds (Some w) = Ok (mkRule conc (mkNumDict w None)).
Proof.
  rewrite Rule_init_outcome.
  assert (issuperset conds (dict_keys (data (MutableNumDict (Some w)))) = true)
    as -> by exact Hkeys.
  unfold stored_weights.
  assert (extend (MutableNumDict (Some w)) conds 1 = mkNumDict w None) as ->.
  { unfold extend, MutableNumDict. simpl. f_equal.
    apply extend_covered. by apply issuperset_true. }
  rewrite (leb_not_ltb _ _ Hsum). by rewrite Hsum.
Qed.

Lemma Rule_init_keeps_normalised_witness :
  Rule_init Samples.c [Samples.x; Samples.y]
            (Some [(Samples.x, 0.25); (Samples.y, 0.5)])
  = Ok (mkRule Samples.c
          (mkNumDict [(Samples.x, 0.25); (Samples.y, 0.5)] None)).
Proof.
  apply (Rule_init_keeps_normalised Samples.c [Samples.x; Samples.y]
           [(Samples.x, 0.25); (Samples.y, 0.5)]); reflexivity.
Defined.

Lemma issubclass_refl (t : PyClass) : issubclass t t = true.
Proof. unfold issubclass. apply bool_decide_eq_true_2. by left. Qed.

(** X9: [define] builds the form with the configured rule class, so the
    form always has the configured type.  When the constructor fails one
    of its assertions, [define] raises that [AssertionError]; when the
    form has more conditions than [max_conds] allows, it raises
    [ValueError]; in both cases the database is left as it was.
    Otherwise it stores the form under [r] and returns [r]. *)
Theorem define_installs (db : Rules) (r : rule) (conc : chunk)
    (conds : list chunk) (weights : option (list (chunk * float))) :
  match Rule_init conc conds weights with
  | Raise e =>
      (exists msg, e = AssertionError msg)
      /\ define r conc conds weights db = (Raise e, db)
  | Ok rl =>
      let form := RuleObj (Rule_type db) rl in
      if within_max_conds (max_conds db) form
      then define r conc conds weights db
           = (Ok r, set_data db (dict_set r form (_data db)))
      else exists msg,
          define r conc conds weights db = (Raise (ValueError msg), db)
  end.
Proof.
  assert (define r conc conds weights db =
          match Rule_init conc conds weights with
          | Raise e => (Raise e, db)
          | Ok form => (__setitem__ r (RuleObj (Rule_type db) form);; mret r) db
          end) as Hdef.
  { unfold define, gets, mbind at 1, M_bind at 1.
    by destruct (Rule_init conc conds weights). }
  rewrite Hdef. clear Hdef.
  destruct (Rule_init conc conds weights) as [rl|e] eqn:Hinit.
  - cbv zeta. set (form := RuleObj (Rule_type db) rl).
    destruct (within_max_conds (max_conds db) form) eqn:Hw.
    + unfold mbind, M_bind. rewrite setitem_within by done.
      unfold form at 1. simpl. by rewrite issubclass_refl.
    + unfold __setitem__, _validate_rule_form, gets, raise, mbind, M_bind.
      unfold within_max_conds in Hw.
      destruct (max_conds db) as [n|]; [|done]. simpl in *.
      destruct (n <? _)%nat; [by eexists | done].
  - split; [|done]. rewrite Rule_init_outcome in Hinit.
    destruct (issuperset conds _); [|injection Hinit as <-; by eexists].
    destruct (_ <=? 1); [done|]. injection Hinit as <-. by eexists.
Qed.

Lemma define_installs_witness :
  define Samples.r Samples.c [Samples.x; Samples.y] None (init None None None)
  = (Ok Samples.r,
     mkRules [(Samples.r, RuleObj RuleClass Samples.two_conds)]
             None RuleClass [] [])
  /\ define Samples.r Samples.c Samples.nine_conds None (init None None None)
     = (Raise (AssertionError "Inferred weights must sum to one or less."),
        init None None None).
Proof.
  split.
  - exact (define_installs (init None None None) Samples.r Samples.c
             [Samples.x; Samples.y] None).
  - exact (proj2 (define_installs (init None None None) Samples.r Samples.c
                    Samples.nine_conds None)).
Defined.
End ConstructorExtras.


(* ===================================================================== *)
(** ** More on members and offers *)
(* ===================================================================== *)

Section DescendantFacts.

Lemma flat_map_of_map {A B C} (f : A -> B) (g : B -> list C) (l : list A) :
  flat_map g (map f l) = flat_map (fun a => g (f a)) l.
Proof. induction l as [|a l IH]; simpl; [done|]. by rewrite IH. Qed.

Lemma flat_map_ext_elem {A B} (f g : A -> list B) (l : list A) :
  (forall a, a ∈ l -> f a = g a) -> flat_map f l = flat_map g l.
Proof.
  induction l as [|a l IH]; intros Hfg; simpl; [done|].
  rewrite Hfg by by left. rewrite IH; [done|].
  intros a' Ha'. apply Hfg. by right.
Qed.

Lemma nested_Forall_values (P : RealizerObj -> Prop) (d : Registry) :
  Forall (fun ctb => Forall (fun km => P km.2) ctb.2) d ->
  forall m, m ∈ Struct.values d None -> P m.
Proof.
  intros Hall m (ctb & km & Hctb & Hkm & ->)%elem_of_values.
  rewrite Forall_forall in Hall. specialize (Hall ctb Hctb).
  rewrite Forall_forall in Hall. by apply Hall.
Qed.

(** A map over the tree that rebuilds every Structure around its mapped
    members maps the list of descendants. *)
Lemma all_members_tree_map (F : RealizerObj -> RealizerObj) (r : RealizerObj) :
  (forall self d, exists self',
      F (Structure self d) = Structure self' (values_map F d)) ->
  (forall self, all_members (F (Construct self)) = []) ->
  all_members (F r) = map F (all_members r).
Proof.
  intros HS HC.
  induction r as [self|self d IH] using RealizerObj_tree_ind; [apply HC|].
  destruct (HS self d) as [self' ->].
  rewrite !all_members_values, values_values_map, flat_map_of_map.
  pose proof (nested_Forall_values
                (fun m => all_members (F m) = map F (all_members m)) d IH)
    as IH'.
  clear IH.
  induction (Struct.values d None) as [|m l IHl]; [done|].
  simpl. rewrite map_app, IH' by by left.
  rewrite IHl; [done|]. intros m' Hm'. apply IH'. by right.
Qed.

Lemma all_members_offer (r : RealizerObj) (c : Symbol) (f : PullFunc) :
  all_members (_offer r c f) = map (fun m => _offer m c f) (all_members r).
Proof.
  apply (all_members_tree_map (fun m => _offer m c f)).
  - intros self d. by eexists.
  - done.
Qed.

Lemma all_members_refresh (r : RealizerObj) :
  all_members (refresh_outputs r) = map refresh_outputs (all_members r).
Proof.
  apply (all_members_tree_map refresh_outputs).
  - intros self d. by eexists.
  - done.
Qed.

Lemma all_members_clear (r : RealizerObj) :
  all_members (clear_outputs r) = map clear_outputs (all_members r).
Proof.
  apply (all_members_tree_map clear_outputs).
  - intros self d. by eexists.
  - done.
Qed.

Lemma offer_lookup (r : RealizerObj) (c : Symbol) (f : PullFunc) (s : Symbol) :
  inputs (_offer r c f) !! s =
  if decide (s = c)
  then (if _accepts r c then Some f else inputs r !! c)
  else inputs r !! s.
Proof.
  assert (inputs (_offer r c f)
          = if _accepts r c then <[c := f]> (inputs r) else inputs r) as ->.
  { destruct r; simpl; apply base_offer_inputs. }
  destruct (decide (s = c)) as [->|Hne]; destruct (_accepts r c); try done.
  - apply lookup_insert_eq.
  - by rewrite lookup_insert_ne.
Qed.

Lemma offer_accepts (r : RealizerObj) (c : Symbol) (f : PullFunc) (s : Symbol) :
  _accepts (_offer r c f) s = _accepts r s.
Proof. by rewrite !accepts_iface, offer_iface. Qed.
End DescendantFacts.

Section OfferExtras.

(** X10: an offer made to a realizer reaches every realizer below it: the
    descendants afterwards are the descendants before, each having been
    offered the same link, so every realizer of the tree that accepts the
    symbol holds the offered callback for it and every other table is
    unchanged. *)
Theorem offer_reaches_descendants (r : RealizerObj) (c : Symbol) (f : PullFunc) :
  all_members (_offer r c f) = map (fun m => _offer m c f) (all_members r)
  /\ Forall (fun m => inputs m !! c = Some f)
            (filter (fun m => _accepts m c = true)
                    (_offer r c f :: all_members (_offer r c f)))
  /\ Forall (fun m => inputs (_offer m c f) = inputs m)
            (filter (fun m => _accepts m c = false) (r :: all_members r)).
Proof.
  split; [apply all_members_offer|]. split.
  - apply Forall_forall. intros m [Hacc Hm]%list_elem_of_filter.
    assert (exists m0, m = _offer m0 c f) as [m0 ->].
    { apply elem_of_cons in Hm as [->|Hm]; [by eexists|].
      rewrite all_members_offer in Hm.
      apply list_elem_of_fmap in Hm as (m0 & -> & _). by eexists. }
    rewrite offer_accepts in Hacc.
    rewrite offer_lookup, decide_True by done. by rewrite Hacc.
  - apply Forall_forall. intros m [Hacc Hm]%list_elem_of_filter.
    apply map_eq. intros s. rewrite offer_lookup, Hacc.
    by destruct (decide (s = c)) as [->|].
Qed.
End OfferExtras.


(* ===================================================================== *)
(** ** More on the registry *)
(* ===================================================================== *)

Section RegistryViews.
Implicit Types (d : Registry) (r m t : RealizerObj) (s c x : Symbol).

Lemma elem_of_items d mask (km : Symbol * RealizerObj) :
  km ∈ Struct.items d mask <->
  exists ctb, ctb ∈ d /\ Struct.selects mask ctb.1 = true /\ km ∈ ctb.2.
Proof.
  unfold Struct.items. rewrite list_elem_of_In, in_flat_map. split.
  - intros (ctb & Hctb & Hkm). exists ctb.
    split; [by apply list_elem_of_In|].
    destruct (Struct.selects mask ctb.1); [|inversion Hkm].
    split; [done | by apply list_elem_of_In].
  - intros (ctb & Hctb & Hsel & Hkm). exists ctb.
    split; [by apply list_elem_of_In|]. rewrite Hsel. by apply list_elem_of_In.
Qed.

Lemma keys_constructs d :
  wf_registry d = true ->
  Struct.keys d None = map construct (Struct.values d None).
Proof.
  intros [_ Hwf]%wf_registry_spec. unfold Struct.keys, Struct.values.
  rewrite map_map. apply map_ext_in. intros [k m] Hkm.
  apply list_elem_of_In, elem_of_items in Hkm as ([ct b] & Hb & _ & Hkm).
  simpl in *. destruct (Hwf _ _ Hb) as [_ Hent].
  by destruct (Hent _ _ Hkm) as [-> _].
Qed.

Lemma wf_registry_tail ct (b : list (Symbol * RealizerObj)) d :
  wf_registry ((ct, b) :: d) = true -> wf_registry d = true.
Proof.
  intros [Hnd Hwf]%wf_registry_spec. apply wf_registry_spec.
  unfold dict_keys in *. simpl in Hnd. apply NoDup_cons in Hnd as [_ Hnd].
  split; [done|]. intros ct' b' Hb'. apply Hwf. by right.
Qed.

Lemma keys_NoDup d : wf_registry d = true -> NoDup (Struct.keys d None).
Proof.
  induction d as [|[ct b] d IH]; intros Hwf.
  - apply NoDup_nil_2.
  - pose proof Hwf as [Hnd Hall]%wf_registry_spec.
    unfold Struct.keys, Struct.items in *. simpl. rewrite map_app.
    apply NoDup_app.
    destruct (Hall ct b) as [Hndb Hent]; [by left|].
    split; [done|]. split; [|apply IH; by eapply wf_registry_tail].
    intros x Hx Hx'.
    apply list_elem_of_fmap in Hx as ([k m] & -> & Hkm).
    destruct (Hent _ _ Hkm) as [_ Hct]. simpl in *.
    apply list_elem_of_fmap in Hx' as ([k' m'] & Hk' & Hkm').
    apply list_elem_of_In, in_flat_map in Hkm' as ([ct' b'] & Hb' & Hin).
    simpl in *. apply list_elem_of_In in Hb', Hin.
    destruct (Hall ct' b') as [_ Hent']; [by right|].
    destruct (Hent' _ _ Hin) as [_ Hct']. subst k.
    unfold dict_keys in Hnd. simpl in Hnd.
    apply NoDup_cons in Hnd as [Hnotin _]. apply Hnotin.
    apply list_elem_of_fmap. exists (ct', b'). split; [|done].
    simpl. congruence.
Qed.

Lemma keys_registered d x :
  wf_registry d = true ->
  x ∈ Struct.keys d None <-> exists m, Struct.getitem d x = Ok m.
Proof.
  intros Hwf. rewrite keys_constructs by done. by apply registered_iff.
Qed.

Lemma getitem_value d x m :
  Struct.getitem d x = Ok m -> m ∈ Struct.values d None.
Proof.
  intros (b & Hb & Hm)%getitem_elem. apply elem_of_values.
  by exists (ctype x, b), (x, m).
Qed.

(** X11: in a registry that satisfies the invariant of [_add], iteration,
    lookup and the type filter agree: [keys()] yields no symbol twice; it
    yields exactly the symbols that [self[key]] finds; the realizer found
    under a symbol carries that symbol and is among [values()]; and
    [keys(ctype)] yields exactly the symbols whose own construct type
    meets [ctype]. *)
Theorem registry_views_agree d (Hwf : wf_registry d = true) :
  NoDup (Struct.keys d None)
  /\ (forall x, x ∈ Struct.keys d None <-> exists m, Struct.getitem d x = Ok m)
  /\ (forall x m, Struct.getitem d x = Ok m ->
                  construct m = x /\ m ∈ Struct.values d None)
  /\ (forall mask x,
         x ∈ Struct.keys d (Some mask) <->
         x ∈ Struct.keys d None /\ N.land (ctype x) mask <> 0%N)
  /\ Struct.keys d None = map construct (Struct.values d None).
Proof.
  split; [by apply keys_NoDup|]. split; [intros x; by apply keys_registered|].
  split; [|split; [|by apply keys_constructs]].
  - intros x m Hm. split; [by eapply getitem_construct | by eapply getitem_value].
  - pose proof Hwf as [_ Hall]%wf_registry_spec.
    intros mask x. unfold Struct.keys. split.
    + intros ([k m] & -> & Hkm)%list_elem_of_fmap.
      apply elem_of_items in Hkm as ([ct b] & Hb & Hsel & Hkm). simpl in *.
      destruct (Hall _ _ Hb) as [_ Hent]. destruct (Hent _ _ Hkm) as [_ Hct].
      split.
      * apply list_elem_of_fmap. exists (k, m). split; [done|].
        apply elem_of_items. by exists (ct, b).
      * rewrite Hct. apply negb_true_iff, N.eqb_neq in Hsel. done.
    + intros [([k m] & -> & Hkm)%list_elem_of_fmap Hmask].
      apply elem_of_items in Hkm as ([ct b] & Hb & _ & Hkm). simpl in *.
      destruct (Hall _ _ Hb) as [_ Hent]. destruct (Hent _ _ Hkm) as [_ Hct].
      apply list_elem_of_fmap. exists (k, m). split; [done|].
      apply elem_of_items. exists (ct, b). split; [done|]. split; [|done].
      simpl. apply negb_true_iff, N.eqb_neq. by rewrite <- Hct.
Qed.

Lemma registry_views_agree_witness :
  match SampleNet.two_level with
  | Structure _ d =>
      Struct.keys d (Some SampleNet.ct_node) = [SampleNet.a]
      /\ forall x, x ∈ Struct.keys d None <->
                   exists m, Struct.getitem d x = Ok m
  | Construct _ => False
  end.
Proof.
  simpl. split; [reflexivity|].
  refine (proj1 (proj2 (registry_views_agree _ _))).
  vm_compute. reflexivity.
Defined.
End RegistryViews.


Section AddExtras.
Implicit Types (d : Registry) (r m t : RealizerObj) (s c x : Symbol).

Lemma add_total d (rs : list RealizerObj) : exists d', Links._add d rs = Ok d'.
Proof.
  revert d. induction rs as [|r rs IH]; intros d; [by eexists|].
  rewrite (add_cons d r rs _ (add_single d r)). apply IH.
Qed.

(** X12: [_add] never raises.  On a registry that satisfies the invariant
    it returns a registry that satisfies it again, in which the symbols
    found are those found before together with the symbols of the added
    realizers. *)
Theorem add_registers d (rs : list RealizerObj) (Hwf : wf_registry d = true) :
  exists d',
    Links._add d rs = Ok d'
    /\ wf_registry d' = true
    /\ forall x, x ∈ Struct.keys d' None <->
                 x ∈ map construct rs \/ x ∈ Struct.keys d None.
Proof.
  revert d Hwf. induction rs as [|r rs IH]; intros d Hwf.
  - exists d. split; [done|]. split; [done|]. intros x. simpl.
    split; [by right | intros [Hx|?]; [inversion Hx | done]].
  - destruct (add_one_spec d r Hwf) as (d1 & Hd1 & Hwf1 & Hreg1 & _).
    destruct (IH d1 Hwf1) as (d' & Hd' & Hwf' & Hreg').
    exists d'. split; [by rewrite (add_cons d r rs d1)|]. split; [done|].
    intros x. rewrite Hreg', (keys_registered d1 x Hwf1), Hreg1.
    rewrite <- (keys_registered d x Hwf). simpl. rewrite elem_of_cons.
    naive_solver.
Qed.

Lemma add_registers_witness :
  exists d',
    Links._add [] [SampleNet.A; SampleNet.B] = Ok d'
    /\ (SampleNet.a ∈ Struct.keys d' None).
Proof.
  destruct (add_registers [] [SampleNet.A; SampleNet.B])
    as (d' & Hd' & _ & Hreg).
  - reflexivity.
  - exists d'. split; [exact Hd'|]. apply Hreg. left. simpl. by left.
Defined.

Lemma fold_absorb_lookup_out t (l : list RealizerObj) s :
  (s ∉ map construct l \/ s = construct t
   \/ iface_accepts (iface t) s = false) ->
  inputs (foldl absorb t l) !! s = inputs t !! s.
Proof.
  revert t. induction l as [|m l IH]; intros t Hs; simpl; [done|].
  rewrite IH.
  - unfold absorb. destruct (decide (construct t ≠ construct m)) as [Hne|]; [|done].
    rewrite offer_lookup. destruct (decide (s = construct m)) as [->|]; [|done].
    rewrite accepts_iface.
    destruct Hs as [Hs|[Hs|Hs]]; [|done | by rewrite Hs].
    exfalso. apply Hs. simpl. by left.
  - rewrite absorb_construct, absorb_iface.
    destruct Hs as [Hs|[Hs|Hs]]; [left | by right; left | by right; right].
    intros Hin. apply Hs. simpl. by right.
Qed.

Lemma fold_absorb_lookup_in t (l : list RealizerObj) m :
  NoDup (map construct l) -> m ∈ l ->
  construct m ≠ construct t ->
  iface_accepts (iface t) (construct m) = true ->
  inputs (foldl absorb t l) !! construct m = Some (view m).
Proof.
  revert t. induction l as [|m0 l IH]; intros t Hnd Hm Hne Hacc.
  - inversion Hm.
  - simpl in Hnd. apply NoDup_cons in Hnd as [Hm0 Hnd]. simpl.
    apply elem_of_cons in Hm as [->|Hm].
    + rewrite fold_absorb_lookup_out by by left.
      unfold absorb. rewrite decide_True by done.
      rewrite offer_lookup, decide_True by done.
      by rewrite accepts_iface, Hacc.
    + apply IH; [done | done | by rewrite absorb_construct
                 | by rewrite absorb_iface].
Qed.

(** X13: adding one realizer [r] to a registry that satisfies the invariant
    wires it in both directions.  Every member under another symbol has
    been offered the view of [r], and nothing else has happened to it.
    The object filed under the symbol of [r] is [r] itself with the same
    emitter and updater; it holds the view of each member whose symbol it
    accepts, and its links for all other symbols are as before. *)
Theorem add_wires_both_ways d r (Hwf : wf_registry d = true) :
  exists d' r',
    Links._add d [r] = Ok d'
    /\ Struct.getitem d' (construct r) = Ok r'
    /\ view r' = view r /\ iface r' = iface r
    /\ (forall s m, s <> construct r -> Struct.getitem d s = Ok m ->
          Struct.getitem d' s = Ok (_offer m (construct r) (view r))
          /\ (_accepts r s = true -> inputs r' !! s = Some (view m)))
    /\ (forall s, (s = construct r \/ _accepts r s = false
                   \/ Struct.getitem d s = Raise KeyError) ->
                  inputs r' !! s = inputs r !! s).
Proof.
  set (c := construct r). set (d0 := Links.setitem d c r).
  assert (wf_registry d0 = true) as Hwf0 by by apply wf_setitem.
  set (t := foldl absorb r (Struct.values d0 None)).
  destruct (fold_absorb_inv r (Struct.values d0 None)) as (Htc & Htv & Hti).
  exists (Links.setitem (values_map (offer_from r) d0) c t), t.
  split; [apply add_single|]. split; [apply getitem_setitem_eq|].
  split; [done|]. split; [done|]. split.
  - intros s m Hs Hm. split.
    + rewrite getitem_setitem_ne by done. rewrite getitem_values_map.
      unfold d0. rewrite getitem_setitem_ne by done. rewrite Hm.
      unfold offer_from. rewrite decide_True; [done|].
      rewrite (getitem_construct d s m Hwf Hm). by fold c.
    + intros Hacc. pose proof (getitem_construct d s m Hwf Hm) as Hcm.
      rewrite <- Hcm. unfold t. apply fold_absorb_lookup_in.
      * rewrite <- keys_constructs by done. by apply keys_NoDup.
      * apply (getitem_value d0 s). unfold d0.
        by rewrite getitem_setitem_ne.
      * rewrite Hcm. by fold c.
      * by rewrite Hcm, <- accepts_iface.
  - intros s Hs. unfold t. apply fold_absorb_lookup_out.
    destruct Hs as [Hs|[Hs|Hs]]; [by right; left | |].
    + right; right. by rewrite <- accepts_iface.
    + destruct (decide (s = c)) as [->|Hne]; [by right; left|]. left.
      rewrite (registered_iff d0 s Hwf0). unfold d0.
      rewrite getitem_setitem_ne by done. rewrite Hs. by intros [m ?].
Qed.

Lemma add_wires_both_ways_witness :
  exists d' r',
    Links._add [(SampleNet.ct_node, [(SampleNet.a, SampleNet.A)])] [SampleNet.B]
    = Ok d'
    /\ Struct.getitem d' SampleNet.b = Ok r'
    /\ inputs r' !! SampleNet.a = Some (view SampleNet.A).
Proof.
  destruct (add_wires_both_ways
              [(SampleNet.ct_node, [(SampleNet.a, SampleNet.A)])] SampleNet.B)
    as (d' & r' & Hd' & Hr' & _ & _ & Hmem & _).
  - vm_compute. reflexivity.
  - exists d', r'. split; [exact Hd'|]. split; [exact Hr'|].
    apply (Hmem SampleNet.a SampleNet.A); [discriminate | reflexivity |].
    vm_compute. reflexivity.
Defined.
End AddExtras.


(* ===================================================================== *)
(** ** More on outputs *)
(* ===================================================================== *)

Section OutputExtras.

Lemma values_map_compose (f g : RealizerObj -> RealizerObj) (d : Registry) :
  values_map f (values_map g d) = values_map (fun m => f (g m)) d.
Proof.
  unfold values_map. rewrite map_map. apply map_ext. intros [ct b]. simpl.
  f_equal. rewrite map_map. by apply map_ext.
Qed.

Lemma values_map_fixed (f : RealizerObj -> RealizerObj) (d : Registry) :
  (forall m, m ∈ Struct.values d None -> f m = m) -> values_map f d = d.
Proof.
  intros Hf. rewrite <- (values_map_id d) at 2. by apply values_map_ext.
Qed.

Lemma refresh_outputs_idem (r : RealizerObj) :
  refresh_outputs (refresh_outputs r) = refresh_outputs r.
Proof.
  induction r as [self|self d IH] using RealizerObj_tree_ind; [done|].
  change (refresh_outputs (Structure self d))
    with (Structure (Struct.reset_output self (values_map refresh_outputs d))
                    (values_map refresh_outputs d)).
  change (refresh_outputs (Structure ?s ?d'))
    with (Structure (Struct.reset_output s (values_map refresh_outputs d'))
                    (values_map refresh_outputs d')).
  rewrite values_map_compose.
  rewrite (values_map_ext (fun m => refresh_outputs (refresh_outputs m))
                          refresh_outputs d); [done|].
  by apply (nested_Forall_values
              (fun m => refresh_outputs (refresh_outputs m) = refresh_outputs m)).
Qed.

Lemma clear_outputs_idem (r : RealizerObj) :
  clear_outputs (clear_outputs r) = clear_outputs r.
Proof.
  induction r as [self|self d IH] using RealizerObj_tree_ind; [done|].
  change (clear_outputs (Structure self d))
    with (Structure (Struct.reset_output self (values_map clear_outputs d))
                    (values_map clear_outputs d)).
  change (clear_outputs (Structure ?s ?d'))
    with (Structure (Struct.reset_output s (values_map clear_outputs d'))
                    (values_map clear_outputs d')).
  rewrite values_map_compose.
  rewrite (values_map_ext (fun m => clear_outputs (clear_outputs m))
                          clear_outputs d); [done|].
  by apply (nested_Forall_values
              (fun m => clear_outputs (clear_outputs m) = clear_outputs m)).
Qed.

Lemma refresh_after_clear (r : RealizerObj) :
  refresh_outputs (clear_outputs r) = clear_outputs r.
Proof.
  induction r as [self|self d IH] using RealizerObj_tree_ind; [done|].
  change (clear_outputs (Structure self d))
    with (Structure (Struct.reset_output self (values_map clear_outputs d))
                    (values_map clear_outputs d)).
  change (refresh_outputs (Structure ?s ?d'))
    with (Structure (Struct.reset_output s (values_map refresh_outputs d'))
                    (values_map refresh_outputs d')).
  rewrite values_map_compose.
  rewrite (values_map_ext (fun m => refresh_outputs (clear_outputs m))
                          clear_outputs d); [done|].
  by apply (nested_Forall_values
              (fun m => refresh_outputs (clear_outputs m) = clear_outputs m)).
Qed.

Lemma clear_outputs_iface (m : RealizerObj) :
  construct (clear_outputs m) = construct m
  /\ inputs (clear_outputs m) = inputs m
  /\ iface (clear_outputs m) = iface m
  /\ view (clear_outputs m) = view m.
Proof. by destruct m. Qed.

(** X14: a finalisation that has succeeded can be repeated: it succeeds
    again and returns the tree unchanged.  It changes outputs only: the
    realizers of the tree keep their symbols and their input-link
    tables. *)
Theorem finalize_idempotent (context : option (list Symbol))
    (r r' : RealizerObj)
    (Hfin : _finalize_assembly context r = Ok r') :
  _finalize_assembly context r' = Ok r'
  /\ map construct (r' :: all_members r') = map construct (r :: all_members r)
  /\ map inputs (r' :: all_members r') = map inputs (r :: all_members r).
Proof.
  destruct (finalize_spec context r) as [[Hok Hf]|[_ (m & _ & _ & Hf)]];
    [|rewrite Hf in Hfin; discriminate].
  rewrite Hf in Hfin. injection Hfin as <-.
  split; [|split].
  - destruct (finalize_spec context (refresh_outputs r))
      as [[_ Hf']|[Hbad _]].
    + by rewrite Hf', refresh_outputs_idem.
    + rewrite tree_links_ok_refresh in Hbad. congruence.
  - rewrite all_members_refresh. rewrite <- map_cons, map_map.
    apply map_ext. intros m. apply refresh_outputs_iface.
  - rewrite all_members_refresh. rewrite <- map_cons, map_map.
    apply map_ext. intros m. apply refresh_outputs_iface.
Qed.

Lemma finalize_idempotent_witness :
  _finalize_assembly None (refresh_outputs SampleNet.wired)
  = Ok (refresh_outputs SampleNet.wired).
Proof.
  apply (finalize_idempotent None SampleNet.wired (refresh_outputs SampleNet.wired)).
  vm_compute. reflexivity.
Defined.

(** X15: [clear_outputs()] changes outputs only and is idempotent: the
    realizers of the tree keep their symbols and input-link tables,
    clearing twice is clearing once, and a [reset_output()], or a whole
    finalisation pass of output recomputation, right after it changes
    nothing. *)
Theorem clear_outputs_keeps_links (r : RealizerObj) :
  map construct (clear_outputs r :: all_members (clear_outputs r))
    = map construct (r :: all_members r)
  /\ map inputs (clear_outputs r :: all_members (clear_outputs r))
     = map inputs (r :: all_members r)
  /\ clear_outputs (clear_outputs r) = clear_outputs r
  /\ refresh_outputs (clear_outputs r) = clear_outputs r
  /\ match clear_outputs r with
     | Structure self d => Struct.reset_output self d = self
     | Construct _ => True
     end.
Proof.
  split; [|split; [|split; [|split]]].
  - rewrite all_members_clear. rewrite <- map_cons, map_map.
    apply map_ext. intros m. apply clear_outputs_iface.
  - rewrite all_members_clear. rewrite <- map_cons, map_map.
    apply map_ext. intros m. apply clear_outputs_iface.
  - apply clear_outputs_idem.
  - apply refresh_after_clear.
  - destruct r as [self|self d]; [done|].
    change (clear_outputs (Structure self d))
      with (Structure (Struct.reset_output self (values_map clear_outputs d))
                      (values_map clear_outputs d)).
    done.
Qed.
End OutputExtras.


(* ===================================================================== *)
(** ** More on updates *)
(* ===================================================================== *)

Section UpdateExtras.
Variable ask : PullFunc -> Output.

Lemma flat_map_split_kind {B} (f : RealizerObj -> list B) (l : list RealizerObj) :
  flat_map (fun m => if isinstance_Structure m then f m else []) l
  ++ flat_map (fun m => if isinstance_Construct m then f m else []) l
  ≡ₚ flat_map f l.
Proof.
  induction l as [|m l IH]; [done|]. simpl.
  destruct m as [s|s d]; simpl.
  - rewrite <- IH. by rewrite Permutation_app_swap_app.
  - rewrite <- app_assoc. by rewrite IH.
Qed.

Lemma flat_map_Permutation_ext {A B} (f g : A -> list B) (l : list A) :
  (forall a, a ∈ l -> f a ≡ₚ g a) -> flat_map f l ≡ₚ flat_map g l.
Proof.
  induction l as [|a l IH]; intros Hfg; [done|]. simpl.
  rewrite (Hfg a) by by left. rewrite IH; [done|].
  intros a' Ha'. apply Hfg. by right.
Qed.

Lemma flat_map_nested {A B C} (f : A -> list B) (g : B -> list C) (l : list A) :
  flat_map g (flat_map f l) = flat_map (fun a => flat_map g (f a)) l.
Proof.
  induction l as [|a l IH]; [done|]. simpl. by rewrite flat_map_app, IH.
Qed.

(** X16: an update pass calls the propagator hook of every Construct of the
    tree exactly once, and the updater of every realizer that has one
    exactly once, and makes no other call. *)
Theorem update_calls_each_once (r : RealizerObj) :
  (_update ask r).2 ≡ₚ flat_map update_calls (r :: all_members r).
Proof.
  induction r as [self|self d IH] using RealizerObj_tree_ind.
  - simpl. unfold Construct_update.
    destruct (pull_update_data_iface ask self) as [Hu Hc].
    destruct (_updater (RealizerBase._pull_update_data ask self)) eqn:E;
      rewrite <- Hu; simpl; by rewrite ?Hc.
  - rewrite update_trace_Structure, (all_members_values self d).
    rewrite app_assoc, flat_map_split_kind.
    cbn [flat_map update_calls].
    rewrite flat_map_nested. rewrite Permutation_app_comm. f_equiv.
    apply flat_map_Permutation_ext.
    by apply (nested_Forall_values
                (fun m => (_update ask m).2
                          ≡ₚ flat_map update_calls (m :: all_members m))).
Qed.
End UpdateExtras.

(* ===================================================================== *)
(** ** Addresses *)
(* ===================================================================== *)

Section AddressExtras.

Lemma address_cons (d : Registry) (k : Symbol) (rest : list Symbol) :
  rest <> [] ->
  Address.getitem d (k :: rest)
  = (head ← Struct.getitem d k; Address.descend head rest).
Proof. destruct rest; [done|]. reflexivity. Qed.

(** X17: looking up a tuple address walks down the tree.  The empty
    address raises [KeyError]; an address of one symbol is the plain
    lookup; a longer address splits at any point into the lookup of its
    first part followed by the lookup of the rest in the Structure found,
    and raises [TypeError] when what is found there is a Construct.
    Whatever an address finds is a descendant. *)
Theorem address_lookup_composes (self : Realizer Cycle) (d : Registry)
    (p q : list Symbol) (k : Symbol)
    (Hp : p <> []) (Hq : q <> []) :
  Address.getitem d [] = Raise KeyError
  /\ Address.getitem d [k] = Struct.getitem d k
  /\ Address.getitem d (p ++ q)
     = (m ← Address.getitem d p; Address.descend m q)
  /\ (forall m, Address.getitem d p = Ok m -> m ∈ all_members (Structure self d)).
Proof.
  split; [done|]. split; [done|]. split.
  - clear self. revert d. induction p as [|k0 p IH]; intros d; [done|].
    destruct p as [|k1 p].
    + simpl app. rewrite address_cons by done. done.
    + rewrite <- app_comm_cons.
      rewrite address_cons by (simpl; discriminate).
      rewrite (address_cons d k0 (k1 :: p)) by discriminate.
      destruct (Struct.getitem d k0) as [[s|s d']|e]; simpl; [done| |done].
      apply IH. discriminate.
  - revert self d. induction p as [|k0 p IH]; intros self d m; [done|].
    destruct p as [|k1 p].
    + cbn [Address.getitem]. intros Hm. apply getitem_value in Hm.
      rewrite all_members_values.
      apply list_elem_of_In, in_flat_map. exists m.
      split; [by apply list_elem_of_In | by left].
    + rewrite address_cons by discriminate.
      destruct (Struct.getitem d k0) as [[s|s d']|e] eqn:Hk0;
        cbn [mbind Result_bind Address.descend]; [done| |done].
      intros Hm. apply (IH ltac:(discriminate) s) in Hm.
      apply getitem_value in Hk0. rewrite all_members_values.
      apply list_elem_of_In, in_flat_map. exists (Structure s d').
      split; [by apply list_elem_of_In|]. right. by apply list_elem_of_In.
Qed.

Lemma address_lookup_composes_witness :
  match SampleNet.two_level with
  | Structure _ d =>
      Address.getitem d ([SampleNet.sub] ++ [SampleNet.b]) = Ok SampleNet.B
  | Construct _ => False
  end.
Proof.
  simpl.
  destruct (address_lookup_composes SampleNet.Agent
              [(SampleNet.ct_subsystem,
                [(SampleNet.sub,
                  Structure SampleNet.Sub
                    [(SampleNet.ct_node, [(SampleNet.b, SampleNet.B)])])]);
               (SampleNet.ct_node, [(SampleNet.a, SampleNet.A)])]
              [SampleNet.sub] [SampleNet.b] SampleNet.a)
    as (_ & _ & H & _).
  - discriminate.
  - discriminate.
  - etransitivity; [exact H|]. reflexivity.
Defined.
End AddressExtras.


(* ===================================================================== *)
(** ** More on the build context *)
(* ===================================================================== *)

Section FinalizeState.
Variable context : option (list Symbol).

Lemma map_until_agrees {A} (f : A -> Result unit * A) (g : A -> Result A)
    (l : list A) :
  (forall x, x ∈ l -> match g x with
                      | Ok y => f x = (Ok tt, y)
                      | Raise e => (f x).1 = Raise e
                      end) ->
  match mapM g l with
  | Ok l' => map_until f l = (Ok tt, l')
  | Raise e => (map_until f l).1 = Raise e
  end.
Proof.
  induction l as [|a l IH]; intros Hall; [done|].
  assert (forall x, x ∈ l -> match g x with
                             | Ok y => f x = (Ok tt, y)
                             | Raise e => (f x).1 = Raise e
                             end) as Hl
    by (intros x Hx; apply Hall; by right).
  specialize (IH Hl). specialize (Hall a (list_elem_of_here a l)).
  simpl. destruct (g a) as [y|e].
  - rewrite Hall. destruct (mapM g l) as [l'|e].
    + by rewrite IH.
    + destruct (map_until f l) as [res l']. simpl in *. by subst.
  - destruct (f a) as [res a']. simpl in *. by subst.
Qed.

Lemma map_until_map {A B} (f : A -> Result unit * A) (h : A -> B) (l : list A) :
  (forall x, x ∈ l -> h (f x).2 = h x) ->
  map h (map_until f l).2 = map h l.
Proof.
  induction l as [|a l IH]; intros Hall; [done|].
  assert (map h (map_until f l).2 = map h l) as IH'
    by (apply IH; intros x Hx; apply Hall; by right).
  specialize (Hall a (list_elem_of_here a l)).
  simpl. destruct (f a) as [[u|e] a']; simpl in *.
  - destruct (map_until f l) as [res l']. simpl in *. by rewrite Hall, IH'.
  - by rewrite Hall.
Qed.

Lemma map_until_ok {A} (f : A -> Result unit * A) (g : A -> A) (l : list A) :
  (forall x, x ∈ l -> f x = (Ok tt, g x)) ->
  map_until f l = (Ok tt, map g l).
Proof.
  induction l as [|a l IH]; intros Hall; [done|].
  simpl. rewrite (Hall a) by by left.
  rewrite IH; [done|]. intros x Hx. apply Hall. by right.
Qed.

Lemma values_until_agrees (f : RealizerObj -> Result unit * RealizerObj)
    (g : RealizerObj -> Result RealizerObj) (d : Registry) :
  (forall m, m ∈ Struct.values d None ->
             match g m with
             | Ok m' => f m = (Ok tt, m')
             | Raise e => (f m).1 = Raise e
             end) ->
  match values_mapM g d with
  | Ok d' => values_until f d = (Ok tt, d')
  | Raise e => (values_until f d).1 = Raise e
  end.
Proof.
  intros Hall. unfold values_until, values_mapM.
  apply map_until_agrees. intros ctb Hctb.
  pose proof (map_until_agrees
                (fun km : Symbol * RealizerObj =>
                   let '(res, m') := f km.2 in (res, (km.1, m')))
                (fun km => m' ← g km.2; Ok (km.1, m')) ctb.2) as Hb.
  lapply Hb; clear Hb.
  2:{ intros km Hkm.
      assert (km.2 ∈ Struct.values d None) as Hin
        by (apply elem_of_values; by exists ctb, km).
      specialize (Hall km.2 Hin). destruct (g km.2) as [y|e]; simpl.
      - by rewrite Hall.
      - destruct (f km.2) as [res m']. simpl in *. by subst. }
  intros Hb.
  destruct (mapM _ ctb.2) as [b'|e]; simpl.
  - by rewrite Hb.
  - destruct (map_until _ ctb.2) as [res b']. simpl in *. by subst.
Qed.

Lemma values_until_map (f : RealizerObj -> Result unit * RealizerObj)
    (h : RealizerObj -> RealizerObj) (d : Registry) :
  (forall m, m ∈ Struct.values d None -> h (f m).2 = h m) ->
  values_map h (values_until f d).2 = values_map h d.
Proof.
  intros Hall. unfold values_until, values_map.
  apply map_until_map. intros ctb Hctb.
  pose proof (map_until_map
                (fun km : Symbol * RealizerObj =>
                   let '(res, m') := f km.2 in (res, (km.1, m')))
                (fun km => (km.1, h km.2)) ctb.2) as Hb.
  destruct (map_until _ ctb.2) as [res b']. simpl in *. f_equal.
  apply Hb. intros km Hkm.
  assert (km.2 ∈ Struct.values d None) as Hin
    by (apply elem_of_values; by exists ctb, km).
  specialize (Hall km.2 Hin). destruct (f km.2) as [res' m']. simpl in *.
  by rewrite Hall.
Qed.

Lemma values_until_ok (f : RealizerObj -> Result unit * RealizerObj)
    (g : RealizerObj -> RealizerObj) (d : Registry) :
  (forall m, m ∈ Struct.values d None -> f m = (Ok tt, g m)) ->
  values_until f d = (Ok tt, values_map g d).
Proof.
  intros Hall. unfold values_until, values_map.
  apply map_until_ok. intros ctb Hctb.
  rewrite (map_until_ok _ (fun km => (km.1, g km.2))); [done|].
  intros km Hkm. rewrite Hall; [done|].
  apply elem_of_values. by exists ctb, km.
Qed.

Lemma finalize_state_Structure_eq (self : Realizer Cycle) (d : Registry) :
  _finalize_assembly_state context (Structure self d) =
  match values_until (finalize_state_if_Structure context) d with
  | (Raise e, d1) => (Raise e, Structure self d1)
  | (Ok _, d1) =>
      match values_until (finalize_state_if_Construct context) d1 with
      | (Raise e, d2) => (Raise e, Structure self d2)
      | (Ok _, d2) =>
          let self' := Struct.reset_output self d2 in
          (RealizerBase._finalize_assembly context self', Structure self' d2)
      end
  end.
Proof. reflexivity. Qed.

(** The two models of [_finalize_assembly] raise and return together, and
    return the same tree. *)
Lemma finalize_state_agrees (r : RealizerObj) :
  match _finalize_assembly context r with
  | Ok r' => _finalize_assembly_state context r = (Ok tt, r')
  | Raise e => (_finalize_assembly_state context r).1 = Raise e
  end.
Proof.
  induction r as [self|self d IH] using RealizerObj_tree_ind.
  - simpl. by destruct (RealizerBase._finalize_assembly context self) as [[]|e].
  - pose proof (nested_Forall_values
                  (fun m => match _finalize_assembly context m with
                            | Ok r' => _finalize_assembly_state context m
                                       = (Ok tt, r')
                            | Raise e => (_finalize_assembly_state context m).1
                                         = Raise e
                            end) d IH) as IH'.
    clear IH.
    rewrite finalize_Structure_eq, finalize_state_Structure_eq.
    pose proof (values_until_agrees (finalize_state_if_Structure context)
                  (finalize_if_Structure context) d) as H1.
    assert (forall m, m ∈ Struct.values d None ->
              match finalize_if_Structure context m with
              | Ok m' => finalize_state_if_Structure context m = (Ok tt, m')
              | Raise e => (finalize_state_if_Structure context m).1 = Raise e
              end) as Hm1.
    { intros m Hm. unfold finalize_if_Structure, finalize_state_if_Structure.
      destruct (isinstance_Structure m); [by apply IH' | done]. }
    specialize (H1 Hm1).
    destruct (values_mapM (finalize_if_Structure context) d) as [d1|e]; simpl.
    2:{ destruct (values_until _ d) as [res d1]. simpl in *. by subst. }
    rewrite H1.
    pose proof (values_until_agrees (finalize_state_if_Construct context)
                  (finalize_if_Construct context) d1) as H2.
    assert (forall m, m ∈ Struct.values d1 None ->
              match finalize_if_Construct context m with
              | Ok m' => finalize_state_if_Construct context m = (Ok tt, m')
              | Raise e => (finalize_state_if_Construct context m).1 = Raise e
              end) as Hm2.
    { intros m _. destruct m as [s|s d']; simpl; [|done].
      by destruct (RealizerBase._finalize_assembly context s) as [[]|e]. }
    specialize (H2 Hm2).
    destruct (values_mapM (finalize_if_Construct context) d1) as [d2|e]; simpl.
    2:{ destruct (values_until _ d1) as [res d2]. simpl in *. by subst. }
    rewrite H2.
    by destruct (RealizerBase._finalize_assembly context _) as [[]|e].
Qed.

(** Finalisation writes outputs only, also when it raises. *)
Lemma finalize_state_clear (r : RealizerObj) :
  clear_outputs (_finalize_assembly_state context r).2 = clear_outputs r.
Proof.
  induction r as [self|self d IH] using RealizerObj_tree_ind; [done|].
  pose proof (nested_Forall_values
                (fun m => clear_outputs (_finalize_assembly_state context m).2
                          = clear_outputs m) d IH) as IH'.
  clear IH.
  rewrite finalize_state_Structure_eq.
  pose proof (values_until_map (finalize_state_if_Structure context)
                clear_outputs d) as H1.
  assert (forall m, m ∈ Struct.values d None ->
            clear_outputs (finalize_state_if_Structure context m).2
            = clear_outputs m) as Hm1.
  { intros m Hm. unfold finalize_state_if_Structure.
    destruct (isinstance_Structure m); [by apply IH' | done]. }
  specialize (H1 Hm1).
  destruct (values_until (finalize_state_if_Structure context) d)
    as [res1 d1]. simpl in H1.
  pose proof (values_until_map (finalize_state_if_Construct context)
                clear_outputs d1) as H2.
  assert (forall m, m ∈ Struct.values d1 None ->
            clear_outputs (finalize_state_if_Construct context m).2
            = clear_outputs m) as Hm2
    by (intros m _; by destruct m).
  specialize (H2 Hm2).
  change (clear_outputs (Structure self d))
    with (Structure (Struct.reset_output self (values_map clear_outputs d))
                    (values_map clear_outputs d)).
  rewrite <- H1.
  destruct res1 as [[]|e]; [|done].
  destruct (values_until (finalize_state_if_Construct context) d1)
    as [res2 d2]. simpl in H2.
  rewrite <- H2.
  destruct res2 as [[]|e]; done.
Qed.

(** When the link check passes at every member, both loops complete and
    the own check decides, on the tree with every output recomputed. *)
Lemma finalize_state_own_check (self : Realizer Cycle) (d : Registry) :
  forallb tree_links_ok (Struct.values d None) = true ->
  _finalize_assembly_state context (Structure self d)
  = (RealizerBase._finalize_assembly context self,
     refresh_outputs (Structure self d)).
Proof.
  intros Hok. rewrite forallb_forall in Hok.
  assert (forall m, m ∈ Struct.values d None -> tree_links_ok m = true) as Hall
    by (intros m Hm; by apply Hok, list_elem_of_In).
  clear Hok. rewrite finalize_state_Structure_eq.
  rewrite (values_until_ok _ refresh_outputs).
  2:{ intros m Hm. unfold finalize_state_if_Structure.
      destruct (isinstance_Structure m) eqn:Hk.
      - pose proof (finalize_state_agrees m) as Hag.
        destruct (finalize_spec context m) as [[_ Hf]|[Hbad _]].
        + by rewrite Hf in Hag.
        + rewrite (Hall m Hm) in Hbad. discriminate.
      - rewrite refresh_outputs_Construct; [done | by destruct m]. }
  rewrite (values_until_ok _ (fun m => m)).
  2:{ intros m' Hm'. rewrite values_values_map in Hm'.
      apply list_elem_of_fmap in Hm' as (m & -> & Hm).
      destruct m as [s|s d']; [|done]. simpl.
      rewrite base_finalize. specialize (Hall _ Hm). simpl in Hall.
      by rewrite Hall. }
  rewrite values_map_id. cbv zeta.
  rewrite !base_finalize.
  change (links_ok (Struct.reset_output self (values_map refresh_outputs d)))
    with (links_ok self).
  reflexivity.
Qed.
End FinalizeState.


Section BuildExtras.

Lemma construct_all_list (rs l : list RealizerObj) (st : BuildState) :
  BUILD_LIST st = Some l ->
  construct_all rs st = mkBuildState (BUILD_CTX st) (Some (l ++ rs)).
Proof.
  unfold construct_all. revert l st.
  induction rs as [|r rs IH]; intros l st Hl; simpl.
  - rewrite app_nil_r. destruct st. simpl in *. by subst.
  - unfold Build._update_add_queue at 2. rewrite Hl.
    rewrite (IH (l ++ [r])) by done. simpl. by rewrite <- app_assoc.
Qed.

Lemma construct_all_unset (rs : list RealizerObj) (st : BuildState) :
  BUILD_LIST st = None -> construct_all rs st = st.
Proof.
  unfold construct_all. induction rs as [|r rs IH]; intros Hl; simpl; [done|].
  unfold Build._update_add_queue at 2. rewrite Hl. by apply IH.
Qed.

(** X18: a scope entered while another scope is active.  The realizers
    constructed in it are collected in its own list, in the order of
    construction; a normal exit adds exactly these to the Structure, runs
    no finalisation, cannot raise, and puts both context variables back to
    their values from before the scope was entered.  Outside any scope a
    construction leaves the context as it is. *)
Theorem nested_scope_attaches (self : Realizer Cycle) (d : Registry)
    (rs : list RealizerObj) (st : BuildState) (parent : list Symbol)
    (Hctx : BUILD_CTX st = Some parent) (Hparent : parent <> []) :
  let st1 := (Build.__enter__ self st).2 in
  let tok := (Build.__enter__ self st).1 in
  exists d',
    Links._add d rs = Ok d'
    /\ construct_all rs st1
       = mkBuildState (Some (parent ++ [_construct self])) (Some rs)
    /\ Build.__exit__ self d tok None (construct_all rs st1)
       = (Ok tt, Structure self d',
          mkBuildState (BUILD_CTX st)
                       (Build.refresh (Structure self d') <$> BUILD_LIST st))
    /\ construct_all rs (mkBuildState None None) = mkBuildState None None.
Proof.
  intros st1 tok. destruct (add_total d rs) as [d' Hd']. exists d'.
  assert (construct_all rs st1
          = mkBuildState (Some (parent ++ [_construct self])) (Some rs)) as Hst.
  { unfold st1, Build.__enter__. rewrite Hctx. simpl.
    by rewrite (construct_all_list rs []). }
  split; [done|]. split; [done|]. split; [|by apply construct_all_unset].
  rewrite Hst. unfold Build.__exit__, Build.exit_block. simpl.
  rewrite Hd'. rewrite length_app. simpl.
  assert ((length parent + 1 <=? 1)%nat = false) as ->.
  { apply Nat.leb_gt. destruct parent; [done | simpl; lia]. }
  done.
Qed.

Lemma nested_scope_attaches_witness :
  let st := mkBuildState (Some [SampleNet.agent]) (Some []) in
  exists d',
    Build.__exit__ SampleNet.Sub [] (Build.__enter__ SampleNet.Sub st).1 None
      (construct_all [SampleNet.B] (Build.__enter__ SampleNet.Sub st).2)
    = (Ok tt, Structure SampleNet.Sub d', st).
Proof.
  destruct (nested_scope_attaches SampleNet.Sub [] [SampleNet.B]
              (mkBuildState (Some [SampleNet.agent]) (Some []))
              [SampleNet.agent])
    as (d' & _ & _ & H & _).
  - reflexivity.
  - discriminate.
  - by exists d'.
Defined.

(** X19: the outermost scope.  A normal exit adds the collected realizers
    and finalises the whole tree.  When the link check passes everywhere
    the Structure comes out with its outputs recomputed and the context
    variables are unset again.  When it fails somewhere the exit raises
    the error of a realizer whose check fails, with the path of the scope
    as context; the context variables stay set, the list still naming the
    realizers of the scope; and the Structure is left with the members
    and links that [_add] gave it and with the outputs recomputed so far:
    all of them when only the Structure's own check fails. *)
Theorem outermost_scope_finalizes (self : Realizer Cycle) (d : Registry)
    (rs : list RealizerObj) (st : BuildState)
    (Hctx : BUILD_CTX st = None) :
  let st1 := (Build.__enter__ self st).2 in
  let tok := (Build.__enter__ self st).1 in
  let here := Some [_construct self] in
  exists d',
    Links._add d rs = Ok d'
    /\ if tree_links_ok (Structure self d')
       then Build.__exit__ self d tok None (construct_all rs st1)
            = (Ok tt, refresh_outputs (Structure self d'),
               mkBuildState None
                 (Build.refresh (refresh_outputs (Structure self d'))
                    <$> BUILD_LIST st))
       else exists m self' st',
           m ∈ Structure self d' :: all_members (Structure self d')
           /\ obj_links_ok m = false
           /\ Build.__exit__ self d tok None (construct_all rs st1)
              = (Raise (link_error here m), self', st')
           /\ BUILD_CTX st' = here
           /\ (map construct <$> BUILD_LIST st') = Some (map construct rs)
           /\ clear_outputs self' = clear_outputs (Structure self d')
           /\ (forallb tree_links_ok (Struct.values d' None) = true ->
               self' = refresh_outputs (Structure self d')).
Proof.
  intros st1 tok here. destruct (add_total d rs) as [d' Hd']. exists d'.
  split; [done|].
  assert (construct_all rs st1 = mkBuildState here (Some rs)) as ->.
  { unfold st1, Build.__enter__. rewrite Hctx. simpl.
    by rewrite (construct_all_list rs []). }
  unfold tok, Build.__enter__, Build.__exit__, Build.exit_block.
  rewrite Hctx. cbn [BUILD_CTX BUILD_LIST Build.ctx_get fst snd].
  rewrite Hd'. cbn [length Nat.leb]. fold here.
  pose proof (finalize_state_agrees here (Structure self d')) as Hag.
  pose proof (finalize_state_clear here (Structure self d')) as Hcl.
  pose proof (finalize_state_own_check here self d') as Hown.
  destruct (finalize_spec here (Structure self d'))
    as [[Hok Hf]|[Hbad (m & Hm & Hl & Hf)]]; rewrite Hf in Hag.
  - rewrite Hok, Hag. done.
  - rewrite Hbad.
    destruct (_finalize_assembly_state here (Structure self d'))
      as [res self'] eqn:Hst.
    simpl in Hag, Hcl. subst res.
    exists m, self', (mkBuildState here (Some rs)).
    do 6 (split; [done|]).
    intros Hall. specialize (Hown Hall).
    apply (f_equal snd) in Hown. exact Hown.
Qed.

Lemma outermost_scope_finalizes_witness :
  let st := mkBuildState None None in
  Build.__exit__ SampleNet.Agent [] (Build.__enter__ SampleNet.Agent st).1 None
    (construct_all [SampleNet.A; SampleNet.B]
                   (Build.__enter__ SampleNet.Agent st).2)
  = (Ok tt, refresh_outputs SampleNet.wired, st)
  /\ exists e self' st',
      Build.__exit__ SampleNet.Needy [] (Build.__enter__ SampleNet.Needy st).1
        None
        (construct_all [SampleNet.A; SampleNet.B]
                       (Build.__enter__ SampleNet.Needy st).2)
      = (Raise e, self', st')
      /\ BUILD_CTX st' = Some [SampleNet.agent]
      /\ output self' = TrieOut [(SampleNet.a, output SampleNet.A);
                                 (SampleNet.b, output SampleNet.B)].
Proof.
  split.
  - destruct (outermost_scope_finalizes SampleNet.Agent []
                [SampleNet.A; SampleNet.B] (mkBuildState None None) eq_refl)
      as (d' & Hd' & H).
    assert (SampleNet.wired = Structure SampleNet.Agent d') as Hw.
    { unfold SampleNet.wired. by rewrite Hd'. }
    rewrite <- Hw in H.
    assert (tree_links_ok SampleNet.wired = true) as Hok
      by (vm_compute; reflexivity).
    rewrite Hok in H. exact H.
  - destruct (outermost_scope_finalizes SampleNet.Needy []
                [SampleNet.A; SampleNet.B] (mkBuildState None None) eq_refl)
      as (d' & Hd' & H).
    assert (d' = match Links._add [] [SampleNet.A; SampleNet.B] with
                 | Ok d0 => d0
                 | Raise _ => []
                 end) as -> by (by rewrite Hd').
    match type of H with
    | if ?b then _ else _ =>
        assert (b = false) as Hbad by (vm_compute; reflexivity);
        rewrite Hbad in H
    end.
    destruct H as (m & self' & st' & _ & _ & Hex & Hctx' & _ & _ & Hall).
    exists (link_error (Some [_construct SampleNet.Needy]) m), self', st'.
    split; [exact Hex|]. split; [exact Hctx'|].
    rewrite Hall by (vm_compute; reflexivity).
    vm_compute. reflexivity.
Defined.
End BuildExtras.

(* ===================================================================== *)
(** ** Pulling data *)
(* ===================================================================== *)

Section PullExtras.
Context {Et : Type} `{EmitterLike Et}.
Variable ask : PullFunc -> Output.

Lemma NoDup_fst_filter {A B} (P : A * B -> Prop) `{forall x, Decision (P x)}
    (l : list (A * B)) :
  NoDup (map fst l) -> NoDup (map fst (filter P l)).
Proof.
  induction l as [|[a b] l IH]; intros Hnd; [done|].
  simpl in Hnd. apply NoDup_cons in Hnd as [Ha Hnd].
  destruct (decide (P (a, b))).
  - rewrite filter_cons_True by done. simpl. apply NoDup_cons.
    split; [|by apply IH].
    intros ([a' b'] & -> & Hin)%list_elem_of_fmap.
    apply list_elem_of_filter in Hin as [_ Hin].
    apply Ha. apply list_elem_of_fmap. by exists (a', b').
  - rewrite filter_cons_False by done. by apply IH.
Qed.

Lemma pulled_lookup (P : Symbol -> bool) (inputs : gmap Symbol PullFunc)
    (s : Symbol) :
  dict_get s (map (fun kv => (kv.1, ask kv.2))
                  (filter (fun kv => P kv.1 = true) (map_to_list inputs)))
  = match inputs !! s with
    | Some f => if P s then Some (ask f) else None
    | None => None
    end.
Proof.
  set (l := filter (fun kv : Symbol * PullFunc => P kv.1 = true)
                   (map_to_list inputs)).
  assert (NoDup (dict_keys (map (fun kv : Symbol * PullFunc => (kv.1, ask kv.2)) l)))
    as Hnd.
  { unfold dict_keys. rewrite map_map. simpl.
    apply (NoDup_fst_filter (fun kv : Symbol * PullFunc => P kv.1 = true)).
    apply NoDup_fst_map_to_list. }
  destruct (inputs !! s) as [f|] eqn:Hs.
  - destruct (P s) eqn:HP.
    + apply dict_get_NoDup; [done|].
      apply list_elem_of_fmap. exists (s, f). split; [done|].
      apply list_elem_of_filter. split; [done|]. by apply elem_of_map_to_list.
    + apply dict_get_None. unfold dict_keys. rewrite map_map. simpl.
      intros ([s' f'] & -> & Hin)%list_elem_of_fmap.
      apply list_elem_of_filter in Hin as [HP' _]. simpl in *. congruence.
  - apply dict_get_None. unfold dict_keys. rewrite map_map. simpl.
    intros ([s' f'] & -> & Hin)%list_elem_of_fmap.
    apply list_elem_of_filter in Hin as [_ Hin].
    apply elem_of_map_to_list in Hin. simpl in *. congruence.
Qed.

(** X20: the two pulls read the link table through different filters.  The
    input cache holds, for each linked symbol that the emitter expects, the
    current output behind its callback, and nothing else; the update cache
    does the same with the updater's filter, and is left alone when there
    is no updater.  A link that [_offer] has just stored is read by at
    least one of the two pulls. *)
Theorem pulls_read_links (self : Realizer Et) (s : Symbol) (f : PullFunc) :
  dict_get s (_input_cache (RealizerMore._pull_input_data ask self))
    = match _inputs self !! s with
      | Some g => if expects (as_emitter (_emitter self)) s
                  then Some (ask g) else None
      | None => None
      end
  /\ match _updater self with
     | Some u =>
         dict_get s (_update_cache (RealizerBase._pull_update_data ask self))
         = match _inputs self !! s with
           | Some g => if upd_expects u s then Some (ask g) else None
           | None => None
           end
     | None => RealizerBase._pull_update_data ask self = self
     end
  /\ (RealizerBase._accepts self s = true ->
      let self' := RealizerBase._offer self s f in
      dict_get s (_input_cache (RealizerMore._pull_input_data ask self'))
        = Some (ask f)
      \/ dict_get s (_update_cache (RealizerBase._pull_update_data ask self'))
         = Some (ask f)).
Proof.
  split; [|split].
  - unfold RealizerMore._pull_input_data. simpl. apply pulled_lookup.
  - unfold RealizerBase._pull_update_data.
    destruct (_updater self) as [u|]; [|done]. simpl. apply pulled_lookup.
  - intros Hacc self'.
    assert (_inputs self' !! s = Some f) as Hs.
    { unfold self'. rewrite base_offer_inputs, Hacc. apply lookup_insert_eq. }
    assert (_emitter self' = _emitter self /\ _updater self' = _updater self)
      as [He Hu].
    { unfold self', RealizerBase._offer. by rewrite Hacc. }
    unfold RealizerBase._accepts in Hacc.
    unfold RealizerMore._pull_input_data, RealizerBase._pull_update_data.
    rewrite Hu, He.
    destruct (_updater self) as [u|]; simpl; rewrite !pulled_lookup, Hs.
    + apply orb_true_iff in Hacc as [-> | ->]; [by left | by right].
    + rewrite Hacc. by left.
Qed.
End PullExtras.


(* ===================================================================== *)
(** ** Adding many realizers *)
(* ===================================================================== *)

Section PermutationExtras.
Implicit Types (d : Registry) (r m : RealizerObj) (s c x : Symbol).

Lemma same_links_refl d : same_links d d.
Proof. intros s. by destruct (Struct.getitem d s). Qed.

Lemma same_links_trans d1 d2 d3 :
  same_links d1 d2 -> same_links d2 d3 -> same_links d1 d3.
Proof.
  intros H12 H23 s. specialize (H12 s). specialize (H23 s).
  destruct (Struct.getitem d1 s), (Struct.getitem d2 s),
    (Struct.getitem d3 s); try done.
  destruct H12 as [-> ->]. done.
Qed.

Lemma same_links_registered d d' x :
  same_links d d' ->
  (exists m, Struct.getitem d x = Ok m) <-> (exists m, Struct.getitem d' x = Ok m).
Proof.
  intros Hs. specialize (Hs x).
  destruct (Struct.getitem d x), (Struct.getitem d' x); try done;
    split; intros [m Hm]; by eauto.
Qed.

Lemma keyview_same d d' s i (P P' : Symbol -> Prop) :
  keyview d s i P -> keyview d' s i P' -> (forall x, P x <-> P' x) ->
  match Struct.getitem d s, Struct.getitem d' s with
  | Ok m, Ok m' => iface m = iface m' /\ dom (inputs m) = dom (inputs m')
  | Raise _, Raise _ => True
  | _, _ => False
  end.
Proof.
  intros (m & -> & Hi & HP) (m' & -> & Hi' & HP') HPP'.
  split; [congruence|]. apply set_eq. intros x. by rewrite HP, HP', HPP'.
Qed.

Lemma absent_same d d' s :
  member_keys d s = None -> member_keys d' s = None ->
  match Struct.getitem d s, Struct.getitem d' s with
  | Ok m, Ok m' => iface m = iface m' /\ dom (inputs m) = dom (inputs m')
  | Raise _, Raise _ => True
  | _, _ => False
  end.
Proof.
  unfold member_keys.
  by destruct (Struct.getitem d s), (Struct.getitem d' s).
Qed.

Lemma add_one_same_links d1 d2 d1' d2' r :
  wf_registry d1 = true -> wf_registry d2 = true -> same_links d1 d2 ->
  Links._add d1 [r] = Ok d1' -> Links._add d2 [r] = Ok d2' ->
  same_links d1' d2'.
Proof.
  intros Hwf1 Hwf2 Hsame Hd1 Hd2.
  destruct (add_one_spec d1 r Hwf1) as (e1 & He1 & _ & _ & Hk1 & Ho1).
  destruct (add_one_spec d2 r Hwf2) as (e2 & He2 & _ & _ & Hk2 & Ho2).
  rewrite Hd1 in He1. injection He1 as <-.
  rewrite Hd2 in He2. injection He2 as <-.
  intros s. destruct (decide (s = construct r)) as [->|Hne].
  - eapply keyview_same; [exact Hk1 | exact Hk2|].
    intros x. cbn beta. by rewrite (same_links_registered d1 d2 x Hsame).
  - pose proof (Hsame s) as Hs.
    destruct (Struct.getitem d1 s) as [m1|e1] eqn:Hm1,
             (Struct.getitem d2 s) as [m2|e2] eqn:Hm2; try done.
    + destruct Hs as [Hi Hdom].
      eapply keyview_same.
      * apply (Ho1 s (iface m1) (fun x => x ∈ dom (inputs m1)) Hne).
        by exists m1.
      * apply (Ho2 s (iface m1) (fun x => x ∈ dom (inputs m2)) Hne).
        by exists m2.
      * intros x. cbn beta. by rewrite Hdom.
    + apply absent_same.
      * eapply add_one_absent; [done | done|]. unfold member_keys. by rewrite Hm1.
      * eapply add_one_absent; [done | done|]. unfold member_keys. by rewrite Hm2.
Qed.

Lemma add_swap_same_links d A B dAB dBA :
  wf_registry d = true -> construct A <> construct B ->
  Links._add d [A; B] = Ok dAB -> Links._add d [B; A] = Ok dBA ->
  same_links dAB dBA.
Proof.
  intros Hwf Hne HAB HBA.
  destruct (add_one_spec d A Hwf) as (dA & HdA & HwfA & HregA & HkA & HoA).
  destruct (add_one_spec d B Hwf) as (dB & HdB & HwfB & HregB & HkB & HoB).
  destruct (add_one_spec dA B HwfA) as (e1 & He1 & _ & _ & HkAB & HoAB).
  destruct (add_one_spec dB A HwfB) as (e2 & He2 & _ & _ & HkBA & HoBA).
  rewrite (add_cons d A [B] dA HdA), He1 in HAB. injection HAB as ->.
  rewrite (add_cons d B [A] dB HdB), He2 in HBA. injection HBA as ->.
  intros s.
  destruct (decide (s = construct A)) as [->|HsA].
  { eapply keyview_same; [by apply HoAB | exact HkBA|].
    intros x. cbn beta. rewrite (HregB x). naive_solver. }
  destruct (decide (s = construct B)) as [->|HsB].
  { eapply keyview_same; [exact HkAB | by apply HoBA|].
    intros x. cbn beta. rewrite (HregA x). naive_solver. }
  destruct (Struct.getitem d s) as [m|e] eqn:Hm.
  - assert (keyview d s (iface m) (fun x => x ∈ dom (inputs m))) as Hv.
    { by exists m. }
    eapply keyview_same;
      [apply HoAB, HoA, Hv; done | apply HoBA, HoB, Hv; done|].
    intros x. cbn beta. naive_solver.
  - assert (member_keys d s = None) as Hn.
    { unfold member_keys. by rewrite Hm. }
    apply absent_same.
    + eapply add_one_absent; [exact He1 | done|].
      by eapply add_one_absent.
    + eapply add_one_absent; [exact He2 | done|].
      by eapply add_one_absent.
Qed.

Lemma add_list_same_links (rs : list RealizerObj) d1 d2 d1' d2' :
  wf_registry d1 = true -> wf_registry d2 = true -> same_links d1 d2 ->
  Links._add d1 rs = Ok d1' -> Links._add d2 rs = Ok d2' ->
  same_links d1' d2'.
Proof.
  revert d1 d2. induction rs as [|r rs IH]; intros d1 d2 Hwf1 Hwf2 Hsame H1 H2.
  - injection H1 as <-. by injection H2 as <-.
  - destruct (add_one_spec d1 r Hwf1) as (e1 & He1 & Hwe1 & _).
    destruct (add_one_spec d2 r Hwf2) as (e2 & He2 & Hwe2 & _).
    rewrite (add_cons d1 r rs e1 He1) in H1.
    rewrite (add_cons d2 r rs e2 He2) in H2.
    apply (IH e1 e2 Hwe1 Hwe2); [|done|done].
    by apply (add_one_same_links d1 d2 e1 e2 r).
Qed.

Lemma add_app d (l1 l2 : list RealizerObj) d1 :
  Links._add d l1 = Ok d1 -> Links._add d (l1 ++ l2) = Links._add d1 l2.
Proof.
  revert d. induction l1 as [|r l1 IH]; intros d Hd1.
  - by injection Hd1 as <-.
  - rewrite <- app_comm_cons.
    rewrite (add_cons d r l1 _ (add_single d r)) in Hd1.
    rewrite (add_cons d r (l1 ++ l2) _ (add_single d r)). by apply IH.
Qed.

Lemma add_permutation_same_links (rs rs' : list RealizerObj) :
  rs ≡ₚ rs' ->
  forall d1 d2 d1' d2',
    NoDup (map construct rs) ->
    wf_registry d1 = true -> wf_registry d2 = true -> same_links d1 d2 ->
    Links._add d1 rs = Ok d1' -> Links._add d2 rs' = Ok d2' ->
    same_links d1' d2'.
Proof.
  induction 1 as [|r rs rs' Hperm IH|B A rs|rs rs' rs'' H1 IH1 H2 IH2];
    intros d1 d2 d1' d2' Hnd Hwf1 Hwf2 Hsame Hd1 Hd2.
  - injection Hd1 as <-. by injection Hd2 as <-.
  - simpl in Hnd. apply NoDup_cons in Hnd as [_ Hnd].
    destruct (add_one_spec d1 r Hwf1) as (e1 & He1 & Hwe1 & _).
    destruct (add_one_spec d2 r Hwf2) as (e2 & He2 & Hwe2 & _).
    rewrite (add_cons d1 r rs e1 He1) in Hd1.
    rewrite (add_cons d2 r rs' e2 He2) in Hd2.
    apply (IH e1 e2 d1' d2' Hnd Hwe1 Hwe2); [|done|done].
    by apply (add_one_same_links d1 d2 e1 e2 r).
  - assert (construct A <> construct B) as Hne.
    { simpl in Hnd. apply NoDup_cons in Hnd as [Hnotin _].
      intros Heq. apply Hnotin. rewrite <- Heq. by left. }
    destruct (add_total d1 [A; B]) as [e1 He1].
    destruct (add_total d2 [A; B]) as [e2 He2].
    destruct (add_total d2 [B; A]) as [e3 He3].
    change (A :: B :: rs) with ([A; B] ++ rs) in Hd1.
    change (B :: A :: rs) with ([B; A] ++ rs) in Hd2.
    rewrite (add_app d1 [A; B] rs e1 He1) in Hd1.
    rewrite (add_app d2 [B; A] rs e3 He3) in Hd2.
    apply (add_list_same_links rs e1 e3); [| | |done|done].
    + by apply (add_preserves_wf d1 e1 [A; B]).
    + by apply (add_preserves_wf d2 e3 [B; A]).
    + apply (same_links_trans e1 e2 e3).
      * by apply (add_list_same_links [A; B] d1 d2).
      * by apply (add_swap_same_links d2 A B).
  - destruct (add_total d1 rs') as [e He].
    apply (same_links_trans d1' e d2').
    + by apply (IH1 d1 d1 d1' e Hnd Hwf1 Hwf1 (same_links_refl d1)).
    + apply (IH2 d1 d2 e d2'); [|done..].
      assert (map construct rs ≡ₚ map construct rs') as Hp
        by by apply Permutation_map.
      by rewrite <- Hp.
Qed.

(** X21: the keys of the input-link tables after [_add] do not depend on
    the order of the arguments.  When realizers with pairwise distinct
    symbols are added to a registry that satisfies the invariant, in one
    order and in any other, both calls succeed and every symbol is found
    in both results or in neither, with the same emitter and updater and
    the same keys in the input-link table. *)
Theorem add_permutation_invariant d (rs rs' : list RealizerObj)
    (Hwf : wf_registry d = true)
    (Hnd : NoDup (map construct rs))
    (Hperm : rs ≡ₚ rs') :
  exists d1 d2,
    Links._add d rs = Ok d1 /\ Links._add d rs' = Ok d2
    /\ same_links d1 d2
    /\ forall s, member_keys d1 s = member_keys d2 s.
Proof.
  destruct (add_total d rs) as [d1 Hd1].
  destruct (add_total d rs') as [d2 Hd2].
  exists d1, d2. split; [done|]. split; [done|].
  assert (same_links d1 d2) as Hsame.
  { by apply (add_permutation_same_links rs rs' Hperm d d d1 d2 Hnd Hwf Hwf
                (same_links_refl d)). }
  split; [done|]. intros s. specialize (Hsame s). unfold member_keys.
  destruct (Struct.getitem d1 s), (Struct.getitem d2 s); try done.
  by destruct Hsame as [_ ->].
Qed.

Lemma add_permutation_invariant_witness :
  exists d1 d2,
    Links._add [] [SampleNet.A; SampleNet.B] = Ok d1
    /\ Links._add [] [SampleNet.B; SampleNet.A] = Ok d2
    /\ forall s, member_keys d1 s = member_keys d2 s.
Proof.
  destruct (add_permutation_invariant [] [SampleNet.A; SampleNet.B]
              [SampleNet.B; SampleNet.A])
    as (d1 & d2 & H1 & H2 & _ & H3).
  - reflexivity.
  - simpl. apply NoDup_cons. split; [|apply NoDup_singleton].
    intros Hin. apply list_elem_of_singleton in Hin. discriminate.
  - apply perm_swap.
  - by exists d1, d2.
Defined.
End PermutationExtras.
